(** * cibyl: query orchestration, source selection, filtering and merging

    A shallow embedding of

    - [cibyl/orchestrator.py]  ([Orchestrator.populate], [Orchestrator.run_query],
                                [Orchestrator.extend_parser]),
    - [cibyl/cli.py]           ([query], [get_config_file_path]),
    - [cibyl/sources/elasticsearch/api.py]
        ([get_build_filters], [filter_jobs], [filter_builds],
         [ElasticSearch.get_jobs], [ElasticSearch.get_builds],
         [ElasticSearch.get_last_build], [ElasticSearch.get_tests],
         [ElasticSearch.match_filter_test_by_duration]),

    together with the properties the specification states about them, and
    further properties that the code shows.

    Python values are modelled as follows.  A [dict] is an association list
    in insertion order ([PyDict]); an exception is the [Raise] branch of
    [outcome]; an [int] is a [Z]; a [float] is a binary64 [float]; a [str]
    is a [string] (ASCII).  What these files import from the repository but
    is not part of the sources at hand (the model classes, the filtering
    helpers, [check_builds_for_test], [RANGE_OPERATORS]) is modelled from
    the specification, and each such definition says so in its comment;
    [Source.get_source_method] and what the libraries provide (regular
    expressions, the XML parser, [float] of a string) are parameters. *)

From Stdlib Require Import ZArith List String Ascii Bool Lia.
From Stdlib Require Import Sorted Permutation DecimalString.
From Stdlib Require DecimalPos.
From Stdlib Require Import PrimFloat.
Import ListNotations.

Set Implicit Arguments.
Local Open Scope string_scope.
Local Open Scope list_scope.
Local Open Scope Z_scope.

(** ** Exceptions *)

Inductive exn : Type :=
| KeyError (key : string)
| ValueError (literal : string)
| TypeError (what : string)
| AttributeError (attribute : string)
| MissingArgument
| NoCapableSource (system_name handler_name : string)
| ElasticSearchError
| RegexError (pattern : string)
| IndexError
| ParserError
| BackendError (what : string).

Inductive outcome (A : Type) : Type :=
| Ok (a : A)
| Raise (e : exn).

Arguments Ok {A} a.
Arguments Raise {A} e.

Definition bind {A B : Type} (m : outcome A) (k : A -> outcome B) : outcome B :=
  match m with
  | Ok a => k a
  | Raise e => Raise e
  end.

Notation "x <- m ;; k" := (bind m (fun x => k))
  (at level 61, m at next level, right associativity).

(** [for x in l: acc = body(acc, x)], leaving the loop at the first
    exception. *)
Fixpoint for_each {A S : Type} (body : S -> A -> outcome S) (l : list A) (s : S)
  : outcome S :=
  match l with
  | [] => Ok s
  | x :: t => s' <- body s x ;; for_each body t s'
  end.

(** [[f(x) for x in l]], leaving at the first exception. *)
Fixpoint map_result {A B : Type} (f : A -> outcome B) (l : list A)
  : outcome (list B) :=
  match l with
  | [] => Ok []
  | x :: t => y <- f x ;; ys <- map_result f t ;; Ok (y :: ys)
  end.

(** ** Insertion-ordered dictionaries with string keys *)

Module PyDict.

Definition dict (V : Type) : Type := list (string * V).

Definition keys {V : Type} (d : dict V) : list string := map fst d.
Definition values {V : Type} (d : dict V) : list V := map snd d.
Definition items {V : Type} (d : dict V) : list (string * V) := d.

(** [d.get(k)] *)
Fixpoint get {V : Type} (k : string) (d : dict V) : option V :=
  match d with
  | [] => None
  | (k', v) :: t => if String.eqb k k' then Some v else get k t
  end.

(** [k in d] *)
Definition mem {V : Type} (k : string) (d : dict V) : bool :=
  match get k d with Some _ => true | None => false end.

(** [d[k]] *)
Definition getitem {V : Type} (k : string) (d : dict V) : outcome V :=
  match get k d with
  | Some v => Ok v
  | None => Raise (KeyError k)
  end.

(** [d[k] = v]: an existing key keeps its position, a new key goes last. *)
Fixpoint set {V : Type} (k : string) (v : V) (d : dict V) : dict V :=
  match d with
  | [] => [(k, v)]
  | (k', v') :: t =>
      if String.eqb k k' then (k', v) :: t else (k', v') :: set k v t
  end.

(** [d[k] = f(d[k])] for a key that is present; nothing otherwise. *)
Fixpoint update {V : Type} (k : string) (f : V -> V) (d : dict V) : dict V :=
  match d with
  | [] => []
  | (k', v') :: t =>
      if String.eqb k k' then (k', f v') :: t else (k', v') :: update k f t
  end.

(** [{k: v for k, v in d.items() if keep(v)}] *)
Definition filter_values {V : Type} (keep : V -> bool) (d : dict V) : dict V :=
  filter (fun kv => keep (snd kv)) d.

(** [bool(d)] *)
Definition truthy {V : Type} (d : dict V) : bool :=
  match d with [] => false | _ => true end.

Definition wf {V : Type} (d : dict V) : Prop := NoDup (keys d).

End PyDict.

Import PyDict.

(** ** Python built-ins used by the sources *)

(** [sorted(l, key=key)]: stable, ascending. *)
Fixpoint insert_sorted {A : Type} (key : A -> Z) (a : A) (l : list A) : list A :=
  match l with
  | [] => [a]
  | b :: t => if key a <=? key b then a :: b :: t else b :: insert_sorted key a t
  end.

Definition sorted {A : Type} (key : A -> Z) (l : list A) : list A :=
  fold_right (insert_sorted key) [] l.

(** [sorted(l, key=key, reverse=True)]: descending; elements with equal
    keys keep their original order. *)
Fixpoint insert_sorted_rev {A : Type} (key : A -> Z) (a : A) (l : list A)
  : list A :=
  match l with
  | [] => [a]
  | b :: t =>
      if key b <=? key a then a :: b :: t else b :: insert_sorted_rev key a t
  end.

Definition sorted_rev {A : Type} (key : A -> Z) (l : list A) : list A :=
  fold_right (insert_sorted_rev key) [] l.

(** [l[-1]] *)
Fixpoint last_item {A : Type} (l : list A) : option A :=
  match l with
  | [] => None
  | [a] => Some a
  | _ :: t => last_item t
  end.

(** [str(n)] for an [int]. *)
Definition str_of_int (z : Z) : string := NilZero.string_of_int (Z.to_int z).

(** [int(s)] for a [str]: surrounding white space is dropped, then an
    optional sign, then decimal digits, where single underscores may
    separate digits.  Anything else is a [ValueError]. *)
Definition is_space (c : ascii) : bool :=
  let n := nat_of_ascii c in
  ((9 <=? n) && (n <=? 13) || (28 <=? n) && (n <=? 32))%nat.

Definition digit_of (c : ascii) : option Z :=
  let n := nat_of_ascii c in
  if ((48 <=? n) && (n <=? 57))%nat then Some (Z.of_nat n - 48) else None.

Fixpoint lstrip (s : string) : string :=
  match s with
  | String c t => if is_space c then lstrip t else s
  | EmptyString => EmptyString
  end.

Fixpoint all_space (s : string) : bool :=
  match s with
  | EmptyString => true
  | String c t => is_space c && all_space t
  end.

(** [digits_from acc after_digit s]: reads the digits of [s] into [acc];
    [after_digit] says that the previous character was a digit, which is
    what an underscore and the end of the literal need. *)
Fixpoint digits_from (acc : Z) (after_digit : bool) (s : string) : option Z :=
  match s with
  | EmptyString => if after_digit then Some acc else None
  | String c t =>
      match digit_of c with
      | Some d => digits_from (10 * acc + d) true t
      | None =>
          if Ascii.eqb c "_" then
            if after_digit then
              match t with
              | String c' _ =>
                  match digit_of c' with
                  | Some _ => digits_from acc false t
                  | None => None
                  end
              | EmptyString => None
              end
            else None
          else if after_digit && all_space s then Some acc else None
      end
  end.

Definition int_literal (s : string) : option Z :=
  match lstrip s with
  | String "-" t => option_map Z.opp (digits_from 0 false t)
  | String "+" t => digits_from 0 false t
  | t => digits_from 0 false t
  end.

Definition int_of_str (s : string) : outcome Z :=
  match int_literal s with
  | Some z => Ok z
  | None => Raise (ValueError s)
  end.

(** [s.lower()] and [s.upper()] *)
Definition lower_char (c : ascii) : ascii :=
  let n := nat_of_ascii c in
  if ((65 <=? n) && (n <=? 90))%nat then ascii_of_nat (n + 32) else c.

Definition upper_char (c : ascii) : ascii :=
  let n := nat_of_ascii c in
  if ((97 <=? n) && (n <=? 122))%nat then ascii_of_nat (n - 32) else c.

Fixpoint map_string (f : ascii -> ascii) (s : string) : string :=
  match s with
  | EmptyString => EmptyString
  | String c t => String (f c) (map_string f t)
  end.

Definition lower : string -> string := map_string lower_char.
Definition upper : string -> string := map_string upper_char.

(** [x in l] for a list of [str]. *)
Definition str_in (x : string) (l : list string) : bool :=
  existsb (String.eqb x) l.


(** ** Raw records of the backend

    [ElkJob = Dict[str, Union[str, dict]]]: a hit of the search is a
    dictionary whose ["_source"] entry is the flat record the functions
    below read.  Jenkins sends [build_num] as an [int], so a field is a
    string, an integer or [None]. *)

Inductive scalar : Type :=
| SNone
| SStr (s : string)
| SInt (z : Z).

Inductive pyval : Type :=
| PScalar (v : scalar)
| PDict (d : dict scalar).

Definition ElkJob : Type := dict scalar.

(** [str(v)] *)
Definition str_of_scalar (v : scalar) : string :=
  match v with
  | SNone => "None"
  | SStr s => s
  | SInt z => str_of_int z
  end.

(** [hit['_source']] *)
Definition source_of_hit (hit : dict pyval) : outcome ElkJob :=
  v <- getitem "_source" hit ;;
  match v with
  | PDict d => Ok d
  | PScalar _ => Raise (TypeError "_source")
  end.

(** A field that the model classes store as text: [None] leaves it unset.
    The declared type of a record makes such a field text; an integer
    there is outside that type and is reported as a [TypeError]. *)
Definition text_field (what : string) (v : scalar) : outcome (option string) :=
  match v with
  | SNone => Ok None
  | SStr s => Ok (Some s)
  | SInt _ => Raise (TypeError what)
  end.

(** A field used as a key of the result: text, by the declared type of a
    record; anything else is outside that type and is reported as a
    [TypeError]. *)
Definition key_field (what : string) (v : scalar) : outcome string :=
  match v with
  | SStr s => Ok s
  | _ => Raise (TypeError what)
  end.

(** ** The model hierarchy *)

(** Modelled from the spec: the classes [Test], [Build] and [Job] of
    [cibyl.models.ci.base] are not among the sources.  Section 4.1 gives
    their contract: an add operation is merge-or-insert, and re-adding an
    entity with the same key updates only the fields present in the new
    value, preserving previously set fields absent from the new value. *)
Definition merge_field {A : Type} (old new : option A) : option A :=
  match new with
  | Some _ => new
  | None => old
  end.

(** Modelled from the spec: merge-or-insert of [v] under key [k]
    (section 4.1). *)
Fixpoint add_entry {V : Type} (merge : V -> V -> V) (k : string) (v : V)
  (d : dict V) : dict V :=
  match d with
  | [] => [(k, v)]
  | (k', v') :: t =>
      if String.eqb k k' then (k', merge v' v) :: t
      else (k', v') :: add_entry merge k v t
  end.

Definition add_all {V : Type} (merge : V -> V -> V) (key : V -> string)
  (news : list V) (d : dict V) : dict V :=
  fold_left (fun acc v => add_entry merge (key v) v acc) news d.

Module Test.

Record t : Type := mk {
  name : string;
  result : option string;
  duration : option float;
  class_name : option string
}.

Definition merge (self other : t) : t :=
  {| name := name self;
     result := merge_field (result self) (result other);
     duration := merge_field (duration self) (duration other);
     class_name := merge_field (class_name self) (class_name other) |}.

End Test.

Module Build.

Record t : Type := mk {
  build_id : string;
  status : option string;
  duration : option Z;
  tests : dict Test.t
}.

(** [Build(build_id, status, duration)] *)
Definition new (id : string) (st : option string) (dur : option Z) : t :=
  {| build_id := id; status := st; duration := dur; tests := [] |}.

Definition add_test (test : Test.t) (self : t) : t :=
  {| build_id := build_id self;
     status := status self;
     duration := duration self;
     tests := add_entry Test.merge (Test.name test) test (tests self) |}.

Definition merge (self other : t) : t :=
  {| build_id := build_id self;
     status := merge_field (status self) (status other);
     duration := merge_field (duration self) (duration other);
     tests := add_all Test.merge Test.name (values (tests other))
                (tests self) |}.

End Build.

Module Job.

Record t : Type := mk {
  name : string;
  url : option string;
  builds : dict Build.t
}.

(** [Job(name=name, url=url)] *)
Definition new (n : string) (u : option string) : t :=
  {| name := n; url := u; builds := [] |}.

Definition add_build (build : Build.t) (self : t) : t :=
  {| name := name self;
     url := url self;
     builds := add_entry Build.merge (Build.build_id build) build
                 (builds self) |}.

Definition merge (self other : t) : t :=
  {| name := name self;
     url := merge_field (url self) (url other);
     builds := add_all Build.merge Build.build_id (values (builds other))
                 (builds self) |}.

End Job.

(** Modelled from the spec: [has_builds_job] and [has_tests_job] of
    [cibyl.utils.models] are not among the sources; the comments at their
    calls say what they test (the output jobs have at least one build, at
    least one test). *)
Definition has_builds_job (job : Job.t) : bool := truthy (Job.builds job).

Definition has_tests_job (job : Job.t) : bool :=
  existsb (fun b => truthy (Build.tests b)) (values (Job.builds job)).

(** ** Arguments of a query *)

(** A ranged argument: [operator] is one of the keys of [RANGE_OPERATORS],
    [operand] the text after it. *)
Record Range : Type := { operator : string; operand : string }.

Inductive argval : Type :=
| VNone
| VStrs (l : list string)
| VRanges (l : list Range).

(** [bool(value)] *)
Definition argval_truthy (v : argval) : bool :=
  match v with
  | VNone => false
  | VStrs l => match l with [] => false | _ => true end
  | VRanges l => match l with [] => false | _ => true end
  end.

Module Argument.

(** [cibyl.cli.argument.Argument], by the attributes the sources read. *)
Record t : Type := mk {
  name : string;
  level : Z;
  func : option string;
  value : argval
}.

(** [bool(arg.func)]: [None] and the empty name are false. *)
Definition has_func (arg : t) : bool :=
  match func arg with
  | Some f => negb (String.eqb f "")
  | None => false
  end.

End Argument.

(** The keyword arguments of the source methods of [api.py]: [Argument]s
    by name, and the system's [jobs_scope], which is a plain pattern. *)
Record Kwargs : Type := {
  kw_args : dict Argument.t;
  kw_jobs_scope : option string
}.

(** The strings of a value that the code uses as a list of [str]. *)
Definition strs_of (v : argval) : list string :=
  match v with
  | VStrs l => l
  | _ => []
  end.

(** ["|".join(value)]: the value has to be a list of [str]. *)
Definition join_patterns (v : argval) : outcome string :=
  match v with
  | VStrs l => Ok (String.concat "|" l)
  | _ => Raise (TypeError "join")
  end.

(** ** [cibyl/sources/elasticsearch/api.py] *)

(** A test case of a parsed suite ([XMLTempestTestSuite.testcase]). *)
Record TestCase : Type := {
  tc_name : string;
  tc_skipped : bool;
  tc_failure : bool;
  tc_classname : option string;
  tc_time : option float
}.

Section ElasticSearch.

(** What the module takes from libraries: the regular expressions of
    [re] (which patterns compile, and [re.search]), the XML parser of
    the test suites ([None] when it rejects its input), and [float] of a
    string ([None] for a [ValueError]). *)
Variable re_valid : string -> bool.
Variable re_search : string -> string -> bool.
Variable parse_test_suite : scalar -> option (list TestCase).
Variable float_of_str : string -> option float.

(** [tests = xml_parser.from_string(xml, XMLTempestTestSuite)] *)
Definition parse_tests (xml : scalar) : outcome (list TestCase) :=
  match parse_test_suite xml with
  | Some tests => Ok tests
  | None => Raise ParserError
  end.

(** [self.__query_get_hits(query, index)]: the hits the server answers
    with; whatever goes wrong there is raised as [ElasticSearchError]. *)
Definition query_get_hits (response : option (list (dict pyval)))
  : outcome (list (dict pyval)) :=
  match response with
  | Some hits => Ok hits
  | None => Raise ElasticSearchError
  end.

(** [re.compile(p)] *)
Definition re_compile (p : string) : outcome string :=
  if re_valid p then Ok p else Raise (RegexError p).

(** Modelled from the spec: [apply_filters] and the [satisfy_*]
    predicates of [cibyl.utils.filtering] are not among the sources.
    Section 4.4: a record passes through the chain of stages in insertion
    order and survives only if every stage returns true; section 7: a
    record that lacks the field a stage reads is dropped. *)
Definition apply_filters (iterable : list ElkJob)
  (filters : list (ElkJob -> bool)) : list ElkJob :=
  fold_left (fun acc check => filter check acc) filters iterable.

(** Modelled from the spec: see [apply_filters]. *)
Definition field_text (model : ElkJob) (field_to_check : string)
  : option string :=
  match get field_to_check model with
  | Some (SStr s) => Some s
  | _ => None
  end.

(** Modelled from the spec: see [apply_filters]. *)
Definition satisfy_regex_match (pattern field_to_check : string)
  (model : ElkJob) : bool :=
  match field_text model field_to_check with
  | Some s => re_search pattern s
  | None => false
  end.

(** Modelled from the spec: see [apply_filters]. *)
Definition satisfy_exact_match (user_input : Argument.t)
  (field_to_check : string) (model : ElkJob) : bool :=
  match field_text model field_to_check with
  | Some s => str_in s (strs_of (Argument.value user_input))
  | None => false
  end.

(** Modelled from the spec: see [apply_filters]; the comparison ignores
    letter case, as the name says and as [test_get_builds_by_status]
    expects (['fAiL'] keeps the build whose result is ['FAIL']). *)
Definition satisfy_case_insensitive_match (user_input : Argument.t)
  (field_to_check : string) (model : ElkJob) : bool :=
  match field_text model field_to_check with
  | Some s =>
      str_in (lower s) (map lower (strs_of (Argument.value user_input)))
  | None => false
  end.

Definition get_build_filters (kwargs : Kwargs) : list (ElkJob -> bool) :=
  let checks_to_apply := [] in
  let builds_arg := get "builds" (kw_args kwargs) in
  let checks_to_apply :=
    match builds_arg with
    | Some arg =>
        if argval_truthy (Argument.value arg)
        then checks_to_apply ++ [satisfy_exact_match arg "build_num"]
        else checks_to_apply
    | None => checks_to_apply
    end in
  let build_status := get "build_status" (kw_args kwargs) in
  match build_status with
  | Some arg =>
      if argval_truthy (Argument.value arg)
      then checks_to_apply
             ++ [satisfy_case_insensitive_match arg "build_result"]
      else checks_to_apply
  | None => checks_to_apply
  end.

(** The checks [filter_jobs] installs for [kwargs]. *)
Definition job_filters (kwargs : Kwargs) : outcome (list (ElkJob -> bool)) :=
  let checks_to_apply := [] in
  checks_to_apply <-
    match get "jobs" (kw_args kwargs) with
    | Some jobs_arg =>
        if argval_truthy (Argument.value jobs_arg) then
          joined <- join_patterns (Argument.value jobs_arg) ;;
          pattern <- re_compile joined ;;
          Ok (checks_to_apply ++ [satisfy_regex_match pattern "job_name"])
        else Ok checks_to_apply
    | None => Ok checks_to_apply
    end ;;
  checks_to_apply <-
    match kw_jobs_scope kwargs with
    | Some jobs_scope_arg =>
        if String.eqb jobs_scope_arg "" then Ok checks_to_apply
        else
          pattern <- re_compile jobs_scope_arg ;;
          Ok (checks_to_apply ++ [satisfy_regex_match pattern "job_name"])
    | None => Ok checks_to_apply
    end ;;
  match get "spec" (kw_args kwargs) with
  | Some spec_jobs_name_arg =>
      if argval_truthy (Argument.value spec_jobs_name_arg)
      then Ok (checks_to_apply
                 ++ [satisfy_exact_match spec_jobs_name_arg "job_name"])
      else Ok checks_to_apply
  | None => Ok checks_to_apply
  end.

Definition filter_jobs (jobs_found : list ElkJob) (kwargs : Kwargs)
  : outcome (list ElkJob) :=
  checks_to_apply <- job_filters kwargs ;;
  Ok (apply_filters jobs_found checks_to_apply).

(** [build["build_num"] = str(build["build_num"])] *)
Definition stringify_build_num (build : ElkJob) : outcome ElkJob :=
  n <- getitem "build_num" build ;;
  Ok (set "build_num" (SStr (str_of_scalar n)) build).

Definition filter_builds (builds_found : list ElkJob)
  (checks_to_apply : list (ElkJob -> bool)) : outcome (list ElkJob) :=
  builds_found <- map_result stringify_build_num builds_found ;;
  Ok (apply_filters builds_found checks_to_apply).

(** [build.get(field)], where a missing field and [None] read alike. *)
Definition get_or_none (field : string) (build : ElkJob) : scalar :=
  match get field build with
  | Some v => v
  | None => SNone
  end.

(** [int(build_duration)] when it is not [None]. *)
Definition duration_of (v : scalar) : outcome (option Z) :=
  match v with
  | SNone => Ok None
  | SInt z => Ok (Some z)
  | SStr s => z <- int_of_str s ;; Ok (Some z)
  end.

(** The part of the loop body that [get_builds] and [get_tests] share:
    the job is created when it is new, and the build of the record is
    added to it.  Gives the job name and build id along. *)
Definition add_build_of_hit (jobs_found : dict Job.t) (build : ElkJob)
  : outcome (dict Job.t * string * string) :=
  job_name_v <- getitem "job_name" build ;;
  job_name <- key_field "job_name" job_name_v ;;
  url_v <- getitem "job_url" build ;;
  url <- text_field "job_url" url_v ;;
  let jobs_found :=
    if mem job_name jobs_found then jobs_found
    else set job_name (Job.new job_name url) jobs_found in
  build_result <- text_field "build_result" (get_or_none "build_result" build) ;;
  build_num <- getitem "build_num" build ;;
  let build_id := str_of_scalar build_num in
  build_duration <- duration_of (get_or_none "build_duration" build) ;;
  Ok (update job_name
        (Job.add_build (Build.new build_id build_result build_duration))
        jobs_found,
      job_name, build_id).

(** The body of [for build in hits] of [get_builds]. *)
Definition add_build_hit (jobs_found : dict Job.t) (build : ElkJob)
  : outcome (dict Job.t) :=
  r <- add_build_of_hit jobs_found build ;;
  Ok (fst (fst r)).

(** [sorted(builds.keys(), key=int)[-1]] *)
Definition last_build_number (builds : dict Build.t) : outcome string :=
  keyed <- map_result (fun k => z <- int_of_str k ;; Ok (k, z)) (keys builds) ;;
  match last_item (sorted snd keyed) with
  | Some (k, _) => Ok k
  | None => Raise IndexError
  end.

(** The body of the loop of [get_last_build]. *)
Definition last_build_of_job (builds_jobs job_object : dict Job.t)
  (item : string * Job.t) : outcome (dict Job.t) :=
  let (job_name, build_info) := item in
  job <- getitem job_name builds_jobs ;;
  let job_url := Job.url job in
  let builds := Job.builds build_info in
  if negb (truthy builds) then Ok job_object
  else
    last_build_number <- last_build_number builds ;;
    last_build_info <- getitem last_build_number builds ;;
    Ok (set job_name
          (Job.add_build last_build_info (Job.new job_name job_url))
          job_object).

Definition get_last_build (builds_jobs : dict Job.t) : outcome (dict Job.t) :=
  for_each (last_build_of_job builds_jobs) (items builds_jobs) [].

Definition get_builds (response : option (list (dict pyval)))
  (kwargs : Kwargs) : outcome (dict Job.t) :=
  hits <- query_get_hits response ;;
  let build_filters := get_build_filters kwargs in
  let filtering_builds := match build_filters with [] => false | _ => true end in
  hits <- map_result source_of_hit hits ;;
  hits <- filter_jobs hits kwargs ;;
  hits <- filter_builds hits build_filters ;;
  jobs_found <- for_each add_build_hit hits [] ;;
  let final_jobs :=
    if filtering_builds then filter_values has_builds_job jobs_found
    else jobs_found in
  if mem "last_build" (kw_args kwargs) then get_last_build final_jobs
  else Ok final_jobs.

(** Modelled from the spec: [RANGE_OPERATORS] of
    [cibyl.cli.ranged_argument] is not among the sources; section 4.4
    gives the table. *)
Definition RANGE_OPERATORS (op : string)
  : option (float -> float -> bool) :=
  if String.eqb op ">" then Some (fun a b => PrimFloat.ltb b a)
  else if String.eqb op ">=" then Some (fun a b => PrimFloat.leb b a)
  else if String.eqb op "<" then Some PrimFloat.ltb
  else if String.eqb op "<=" then Some PrimFloat.leb
  else if String.eqb op "==" then Some PrimFloat.eqb
  else None.

Fixpoint match_filter_test_by_duration (test_duration : option float)
  (test_duration_arguments : list Range) : outcome bool :=
  match test_duration_arguments with
  | [] => Ok true
  | test_duration_argument :: rest =>
      match RANGE_OPERATORS (operator test_duration_argument) with
      | None => Raise (KeyError (operator test_duration_argument))
      | Some op =>
          match float_of_str (operand test_duration_argument) with
          | None => Raise (ValueError (operand test_duration_argument))
          | Some bound =>
              holds <-
                match test_duration with
                | Some d => Ok (op d bound)
                | None =>
                    if String.eqb (operator test_duration_argument) "=="
                    then Ok false
                    else Raise (TypeError "duration")
                end ;;
              if negb holds then Ok false
              else match_filter_test_by_duration test_duration rest
          end
      end
  end.

(** Modelled from the spec: [check_builds_for_test] of
    [cibyl.sources.server.ServerSource] is not among the sources.
    Section 7: tests require at least one of builds/last-build, else
    [MissingArgument]; [test_get_tests] calls [get_tests()] for the
    fault and [get_tests(builds=...)] for the result. *)
Definition check_builds_for_test (kwargs : Kwargs) : outcome unit :=
  if mem "builds" (kw_args kwargs) || mem "last_build" (kw_args kwargs)
  then Ok tt
  else Raise MissingArgument.

(** The filters on tests that [get_tests] reads from [kwargs]. *)
Record TestFilters : Type := {
  tests_pattern : option string;
  test_result_argument : list string;
  test_duration_arguments : argval
}.

Definition test_status_of (test : TestCase) : string :=
  let test_status := "SUCCESS" in
  let test_status := if tc_skipped test then "SKIPPED" else test_status in
  if tc_failure test then "FAILURE" else test_status.

(** [bool(test_duration)] for a [float] or [None]. *)
Definition duration_truthy (d : option float) : bool :=
  match d with
  | Some x => negb (PrimFloat.eqb x 0%float)
  | None => false
  end.

(** The body of [for test in tests.testcase]: [None] when a [continue]
    leaves the test out. *)
Definition select_test (f : TestFilters) (test : TestCase)
  : outcome (option Test.t) :=
  let test_name := tc_name test in
  let test_status := test_status_of test in
  let class_name := tc_classname test in
  let test_duration := tc_time test in
  let pattern_ok :=
    match tests_pattern f with
    | Some p =>
        let matches_test_name := re_search p test_name in
        let matches_test_class :=
          match class_name with
          | Some c => re_search p c
          | None => false
          end in
        matches_test_class || matches_test_name
    | None => true
    end in
  if negb pattern_ok then Ok None
  else if match test_result_argument f with [] => false | _ => true end
          && negb (str_in test_status (test_result_argument f))
  then Ok None
  else
    duration_ok <-
      (if argval_truthy (test_duration_arguments f) then
         match test_duration_arguments f with
         | VRanges l => match_filter_test_by_duration test_duration l
         | _ => Raise (AttributeError "operator")
         end
       else Ok true) ;;
    if negb duration_ok then Ok None
    else
      let test_duration :=
        if duration_truthy test_duration
        then option_map (fun d => PrimFloat.mul d 1000%float) test_duration
        else test_duration in
      Ok (Some {| Test.name := test_name;
                  Test.result := Some test_status;
                  Test.duration := test_duration;
                  Test.class_name := class_name |}).

(** [jobs_found[job_name].builds[build_id].add_test(test)] *)
Definition add_test_at (job_name build_id : string) (test : Test.t)
  (jobs_found : dict Job.t) : outcome (dict Job.t) :=
  job <- getitem job_name jobs_found ;;
  _ <- getitem build_id (Job.builds job) ;;
  Ok (update job_name
        (fun j => {| Job.name := Job.name j;
                     Job.url := Job.url j;
                     Job.builds :=
                       update build_id (Build.add_test test) (Job.builds j) |})
        jobs_found).

Definition test_filters_of (kwargs : Kwargs) : outcome (bool * TestFilters) :=
  let tests_filtering := false in
  tp <-
    match get "tests" (kw_args kwargs) with
    | Some arg =>
        if argval_truthy (Argument.value arg) then
          joined <- join_patterns (Argument.value arg) ;;
          pattern <- re_compile joined ;;
          Ok (true, Some pattern)
        else Ok (tests_filtering, None)
    | None => Ok (tests_filtering, None)
    end ;;
  let (tests_filtering, tests_pattern) := tp in
  test_result_argument <-
    match get "test_result" (kw_args kwargs) with
    | Some arg =>
        match Argument.value arg with
        | VStrs l => Ok (map upper l)
        | VRanges [] => Ok []
        | VRanges (_ :: _) => Raise (AttributeError "upper")
        | VNone => Raise (TypeError "test_result")
        end
    | None => Ok []
    end ;;
  let tests_filtering :=
    tests_filtering
    || match test_result_argument with [] => false | _ => true end in
  let test_duration_arguments :=
    match get "test_duration" (kw_args kwargs) with
    | Some arg => Argument.value arg
    | None => VStrs []
    end in
  let tests_filtering :=
    tests_filtering || argval_truthy test_duration_arguments in
  Ok (tests_filtering,
      {| tests_pattern := tests_pattern;
         test_result_argument := test_result_argument;
         test_duration_arguments := test_duration_arguments |}).

(** The body of [for test in tests.testcase]. *)
Definition add_selected_test (filters : TestFilters)
  (job_name build_id : string) (jobs_found : dict Job.t) (test : TestCase)
  : outcome (dict Job.t) :=
  selected <- select_test filters test ;;
  match selected with
  | Some t => add_test_at job_name build_id t jobs_found
  | None => Ok jobs_found
  end.

(** The body of [for test_suite in test_suites]. *)
Definition add_tests_of_suite (filters : TestFilters) (build : ElkJob)
  (job_name build_id : string) (jobs_found : dict Job.t)
  (test_suite : string) : outcome (dict Job.t) :=
  xml <- getitem test_suite build ;;
  tests <- parse_tests xml ;;
  for_each (add_selected_test filters job_name build_id) tests jobs_found.

(** The body of [for build in hits] of [get_tests]. *)
Definition add_tests_of_hit (filters : TestFilters) (jobs_found : dict Job.t)
  (build : ElkJob) : outcome (dict Job.t) :=
  r <- add_build_of_hit jobs_found build ;;
  let (jn, build_id) := r in
  let (jobs_found, job_name) := jn in
  let test_suites := filter (String.prefix "test_results_") (keys build) in
  for_each (add_tests_of_suite filters build job_name build_id)
    test_suites jobs_found.

Definition get_tests (response : option (list (dict pyval)))
  (kwargs : Kwargs) : outcome (dict Job.t) :=
  _ <- check_builds_for_test kwargs ;;
  hits <- query_get_hits response ;;
  hits <- map_result source_of_hit hits ;;
  let build_filters := get_build_filters kwargs in
  hits <- filter_jobs hits kwargs ;;
  hits <- filter_builds hits build_filters ;;
  tf <- test_filters_of kwargs ;;
  let (tests_filtering, filters) := tf in
  jobs_found <- for_each (add_tests_of_hit filters) hits [] ;;
  let final_jobs :=
    if tests_filtering then filter_values has_tests_job jobs_found
    else jobs_found in
  if mem "last_build" (kw_args kwargs) then get_last_build final_jobs
  else Ok final_jobs.

End ElasticSearch.

(** ** Sources, systems and environments *)

(** What a source method returns: the model instances by attribute key
    (["jobs"] for the jobs of a system). *)
Definition model_instances : Type := dict (dict Job.t).

(** A method of a source, called with the values of the arguments by
    name.  The backend does not change while one query runs. *)
Definition source_method : Type := dict argval -> outcome model_instances.

Module Source.

(** [cibyl.sources.source.Source], by the attributes the sources read;
    [methods] are the query methods the object has, by name. *)
Record t : Type := mk {
  name : string;
  priority : Z;
  enabled : bool;
  methods : dict source_method
}.

End Source.

Module System.

Record t : Type := mk {
  name : string;
  sources : list Source.t;
  jobs : dict Job.t
}.

(** Modelled from the spec: the class [System] is not among the
    sources.  Section 4.1: [addJob] is merge-or-insert; section 4.5,
    step 5: the returned subtree is merged into the system's job
    collection. *)
Definition add_job (job : Job.t) (self : t) : t :=
  {| name := name self;
     sources := sources self;
     jobs := add_entry Job.merge (Job.name job) job (jobs self) |}.

(** Modelled from the spec: see [add_job]. *)
Definition add_jobs (payload : dict Job.t) (self : t) : t :=
  fold_left (fun acc job => add_job job acc) (values payload) self.

(** Modelled from the spec: [getattr(system, method_name)] when
    [hasattr(system, method_name)]; the jobs are the one collection of
    a system that the source methods populate. *)
Definition population_method (method_name : string)
  : option (dict Job.t -> t -> t) :=
  if String.eqb method_name "add_jobs" then Some add_jobs else None.

End System.

Module Environment.

Record t : Type := mk {
  name : string;
  systems : list System.t
}.

End Environment.

(** ** [cibyl/cli.py] *)

Section Cli.

(** [source.populate(env, args)] belongs to the source classes; what it
    changes is kept abstract. *)
Variable Population : Type.
Variable used_args : Type.
Variable source_populate :
  Source.t -> Environment.t -> used_args -> Population -> Population.




End Cli.

(** ** [cibyl/orchestrator.py] *)

(** One call of a source method by [run_query]. *)
Record Fetch : Type := {
  fetch_arg : Argument.t;
  fetch_env : string;
  fetch_system : string;
  fetch_method : string
}.

Record QueryState : Type := {
  environments : list Environment.t;
  last_level : Z;
  fetched : list Fetch
}.

Definition with_last_level (level : Z) (st : QueryState) : QueryState :=
  {| environments := environments st;
     last_level := level;
     fetched := fetched st |}.

Section Orchestrator.

(** [Source.get_source_method(system_name, sources, func_name)] is not
    among the sources: it is what the orchestrator is given. *)
Variable get_source_method :
  string -> list Source.t -> string -> outcome source_method.

Definition populate (system : System.t) (instances : model_instances)
  : System.t :=
  fold_left
    (fun system (item : string * dict Job.t) =>
       let (attribute_key, value) := item in
       let population_method_name := String.append "add_" attribute_key in
       match System.population_method population_method_name with
       | Some population_method => population_method value system
       | None => system
       end)
    (items instances) system.

(** [{arg_name: arg.value for arg_name, arg in ci_args.items()}] *)
Definition values_by_name (ci_args : dict Argument.t) : dict argval :=
  map (fun item : string * Argument.t =>
         (fst item, Argument.value (snd item)))
    (items ci_args).

(** [for system in env.systems: ...] for one argument.  An exception
    leaves the loop; the systems populated before it stay populated. *)
Fixpoint query_systems (ci_args : dict Argument.t) (arg : Argument.t)
  (func env_name : string) (systems : list System.t)
  : list System.t * list Fetch * option exn :=
  match systems with
  | [] => ([], [], None)
  | system :: rest =>
      match get_source_method (System.name system) (System.sources system)
              func with
      | Raise e => (system :: rest, [], Some e)
      | Ok method =>
          let call := {| fetch_arg := arg; fetch_env := env_name;
                         fetch_system := System.name system;
                         fetch_method := func |} in
          match method (values_by_name ci_args) with
          | Raise e => (system :: rest, [call], Some e)
          | Ok instances =>
              let '(rest', calls, err) :=
                query_systems ci_args arg func env_name rest in
              (populate system instances :: rest', call :: calls, err)
          end
      end
  end.

(** [for env in self.environments: ...] for one argument. *)
Fixpoint query_environments (ci_args : dict Argument.t) (arg : Argument.t)
  (func : string) (envs : list Environment.t)
  : list Environment.t * list Fetch * option exn :=
  match envs with
  | [] => ([], [], None)
  | env :: rest =>
      let '(systems', calls, err) :=
        query_systems ci_args arg func (Environment.name env)
          (Environment.systems env) in
      let env' := {| Environment.name := Environment.name env;
                     Environment.systems := systems' |} in
      match err with
      | Some e => (env' :: rest, calls, Some e)
      | None =>
          let '(rest', calls', err') :=
            query_environments ci_args arg func rest in
          (env' :: rest', calls ++ calls', err')
      end
  end.

(** The body of the loop of [run_query] for one argument. *)
Definition run_arg (start_level : Z) (ci_args : dict Argument.t)
  (arg : Argument.t) (st : QueryState) : QueryState * option exn :=
  if (Argument.level arg >=? start_level)
     && (Argument.level arg >=? last_level st)
  then
    match Argument.func arg with
    | Some func =>
        if Argument.has_func arg then
          let '(envs', calls, err) :=
            query_environments ci_args arg func (environments st) in
          match err with
          | Some e =>
              ({| environments := envs';
                  last_level := last_level st;
                  fetched := fetched st ++ calls |}, Some e)
          | None =>
              ({| environments := envs';
                  last_level := Argument.level arg;
                  fetched := fetched st ++ calls |}, None)
          end
        else (st, None)
    | None => (st, None)
    end
  else (with_last_level (Argument.level arg) st, None).

Fixpoint run_args (start_level : Z) (ci_args : dict Argument.t)
  (args : list Argument.t) (st : QueryState) : QueryState * option exn :=
  match args with
  | [] => (st, None)
  | arg :: rest =>
      match run_arg start_level ci_args arg st with
      | (st', Some e) => (st', Some e)
      | (st', None) => run_args start_level ci_args rest st'
      end
  end.

Definition initial_state (envs : list Environment.t) : QueryState :=
  {| environments := envs; last_level := -1; fetched := [] |}.

(** The order in which [run_query] takes the arguments. *)
Definition query_order (ci_args : dict Argument.t) : list Argument.t :=
  sorted_rev Argument.level (values ci_args).

Definition run_query (start_level : Z) (ci_args : dict Argument.t)
  (envs : list Environment.t) : QueryState * option exn :=
  run_args start_level ci_args (query_order ci_args) (initial_state envs).

(** [run_query()] *)
Definition default_start_level : Z := 1.

End Orchestrator.

(** * More of the sources *)

(** ** [cibyl/cli.py]: [get_config_file_path] *)

Section ConfigFilePath.

(** [Config.DEFAULT_FILE_PATH] is a constant of [cibyl.config]. *)
Variable DEFAULT_FILE_PATH : string.

(** [for i, item in enumerate(arguments[1:])], from index [i] on, with
    [rest] what is left of [arguments[1:]]. *)
Fixpoint config_file_path_loop (arguments : list string) (i : nat)
  (rest : list string) (config_file_path : string) : outcome string :=
  match rest with
  | [] => Ok config_file_path
  | item :: rest' =>
      if String.eqb item "--config" then
        match nth_error arguments (i + 2) with
        | Some path => config_file_path_loop arguments (S i) rest' path
        | None => Raise IndexError
        end
      else config_file_path_loop arguments (S i) rest' config_file_path
  end.

Definition get_config_file_path (arguments : list string) : outcome string :=
  config_file_path_loop arguments 0 (tl arguments) DEFAULT_FILE_PATH.

End ConfigFilePath.

(** ** [cibyl/sources/elasticsearch/api.py]: [get_jobs] *)

Section ElasticSearchJobs.

Variable re_valid : string -> bool.
Variable re_search : string -> string -> bool.

(** The body of [for hit in hits] of [get_jobs]:
    [job_objects[job_name] = Job(name=job_name, url=url)]. *)
Definition add_job_of_hit (job_objects : dict Job.t) (hit : ElkJob)
  : outcome (dict Job.t) :=
  job_name_v <- getitem "job_name" hit ;;
  job_name <- key_field "job_name" job_name_v ;;
  url_v <- getitem "job_url" hit ;;
  url <- text_field "job_url" url_v ;;
  Ok (set job_name (Job.new job_name url) job_objects).

Definition get_jobs (response : option (list (dict pyval)))
  (kwargs : Kwargs) : outcome (dict Job.t) :=
  hits <- query_get_hits response ;;
  hits <- map_result source_of_hit hits ;;
  hits <- filter_jobs re_valid re_search hits kwargs ;;
  for_each add_job_of_hit hits [].

End ElasticSearchJobs.

(** ** [cibyl/orchestrator.py]: [extend_parser] *)

(** The [API] of a model class gives its attributes by name.  An
    attribute is a dictionary that may have [arguments], what it gives
    the parser, and an [attr_type]: one of the built-in types, or a class,
    which has a name and may have an [API] of its own.  An [API] is a
    finite tree: no class is reached from its own [API]. *)
Inductive attribute : Type :=
| Attribute (arguments : option (list Argument.t))
    (attr_type : option class_type)
with class_type : Type :=
| TStr
| TList
| TDict
| TInt
| Class (name : string) (API : option (list (string * attribute))).

(** One call [self.parser.extend(arguments, group_name, level=level)]; the
    parser is not among the sources, the calls are what is kept of it. *)
Record Extension : Type := {
  ext_arguments : list Argument.t;
  ext_group : string;
  ext_level : Z
}.

(** The body of the loop of [extend_parser] for one attribute. *)
Fixpoint extend_attribute (group_name : string) (level : Z)
  (attr_dict : attribute) : list Extension :=
  match attr_dict with
  | Attribute arguments class_type =>
      match arguments with
      | Some ((_ :: _) as arguments) =>
          {| ext_arguments := arguments; ext_group := group_name;
             ext_level := level |}
          :: match class_type with
             | Some (Class name (Some API)) =>
                 (fix extend_parser (attributes : list (string * attribute))
                    : list Extension :=
                    match attributes with
                    | [] => []
                    | (_, attr_dict) :: rest =>
                        extend_attribute name (level + 1) attr_dict
                        ++ extend_parser rest
                    end) API
             | _ => []
             end
      | _ => []
      end
  end.

(** [extend_parser(attributes, group_name, level)], by the calls of
    [parser.extend] it makes, in order. *)
Definition extend_parser (attributes : dict attribute) (group_name : string)
  (level : Z) : list Extension :=
  flat_map (fun item => extend_attribute group_name level (snd item))
    attributes.

(** [extend_parser(attributes)] *)
Definition default_group_name : string := "Environment".
Definition default_level : Z := 0.

(** * Vocabulary of the statements *)

(** A list of levels that never goes up. *)
Definition non_increasing (l : list Z) : Prop :=
  StronglySorted (fun a b => b <= a) l.

(** The integer a numeric identifier stands for (0 for any other text). *)
Definition int_value (k : string) : Z :=
  match int_literal k with
  | Some z => z
  | None => 0
  end.

(** [int(k)] does not raise. *)
Definition is_numeric (k : string) : bool :=
  match int_literal k with
  | Some _ => true
  | None => false
  end.

(** Every build identifier of every job is numeric. *)
Definition all_numeric (builds_jobs : dict Job.t) : bool :=
  forallb (fun job => forallb is_numeric (keys (Job.builds job)))
    (values builds_jobs).

(** The job [get_last_build] stores for a job whose last build is [b]. *)
Definition job_with_build (name : string) (url : option string) (b : Build.t)
  : Job.t :=
  {| Job.name := name; Job.url := url;
     Job.builds := [(Build.build_id b, b)] |}.

(** A record passes every stage of the chain. *)
Definition passes (stages : list (ElkJob -> bool)) (record : ElkJob) : bool :=
  forallb (fun stage => stage record) stages.

(** An upper-case ASCII letter. *)
Definition is_upper (c : ascii) : bool :=
  let n := nat_of_ascii c in ((65 <=? n) && (n <=? 90))%nat.

(** Two characters that differ at most by the case of a letter. *)
Definition same_letter (a b : ascii) : Prop :=
  a = b
  \/ (is_upper a = true /\ b = lower_char a)
  \/ (is_upper b = true /\ a = lower_char b).

(** Two strings that are equal when letter case is ignored. *)
Inductive equal_ignoring_case : string -> string -> Prop :=
| eic_empty : equal_ignoring_case "" ""
| eic_char (a b : ascii) (s t : string) :
    same_letter a b -> equal_ignoring_case s t ->
    equal_ignoring_case (String a s) (String b t).

(** The computation does not end in [MissingArgument]. *)
Definition no_missing_argument {A : Type} (m : outcome A) : Prop :=
  m <> Raise MissingArgument.

(** What [run_query] does with one system when the fetch succeeds. *)
Definition fetched_system
  (get_source_method :
     string -> list Source.t -> string -> outcome source_method)
  (ci_args : dict Argument.t) (func : string) (system : System.t)
  : option System.t :=
  match get_source_method (System.name system) (System.sources system) func
  with
  | Ok method =>
      match method (values_by_name ci_args) with
      | Ok instances => Some (populate system instances)
      | Raise _ => None
      end
  | Raise _ => None
  end.

(** Well-formed dictionaries of the model: no key comes twice, and every
    entry stands under its own key (section 3: keys are unique within
    their parent). *)
Fixpoint distinct (l : list string) : bool :=
  match l with
  | [] => true
  | x :: t => negb (str_in x t) && distinct t
  end.

Definition keyed_by {V : Type} (key : V -> string) (d : dict V) : bool :=
  forallb (fun kv => String.eqb (key (snd kv)) (fst kv)) d
  && distinct (keys d).

Definition well_formed_build (b : Build.t) : bool :=
  keyed_by Test.name (Build.tests b).

Definition well_formed_job (j : Job.t) : bool :=
  keyed_by Build.build_id (Job.builds j)
  && forallb well_formed_build (values (Job.builds j)).

(** A field that is set in [old] is set in [new]. *)
Definition stays_set {A : Type} (old new : option A) : Prop :=
  old <> None -> new <> None.

(** Every entry of [d] is in [d'], with a value that is at least as
    populated. *)
Definition dict_le {V : Type} (le : V -> V -> Prop) (d d' : dict V) : Prop :=
  forall k v, get k d = Some v -> exists v', get k d' = Some v' /\ le v v'.

Definition test_le (t t' : Test.t) : Prop :=
  stays_set (Test.result t) (Test.result t')
  /\ stays_set (Test.duration t) (Test.duration t')
  /\ stays_set (Test.class_name t) (Test.class_name t').

Definition build_le (b b' : Build.t) : Prop :=
  stays_set (Build.status b) (Build.status b')
  /\ stays_set (Build.duration b) (Build.duration b')
  /\ dict_le test_le (Build.tests b) (Build.tests b').

Definition job_le (j j' : Job.t) : Prop :=
  stays_set (Job.url j) (Job.url j')
  /\ dict_le build_le (Job.builds j) (Job.builds j').

(** Every job, build and test of [s], and every field set in them, is
    there in [s'] too. *)
Definition system_le (s s' : System.t) : Prop :=
  dict_le job_le (System.jobs s) (System.jobs s').

(** The job [jobs] has under [job_name] holds a build [build_id]. *)
Definition has_build (jobs : dict Job.t) (job_name build_id : string) : Prop :=
  exists job,
    get job_name jobs = Some job /\ In build_id (keys (Job.builds job)).

(** [hit['_source']] for a hit that has one. *)
Definition record_of_hit (hit : dict pyval) : ElkJob :=
  match get "_source" hit with
  | Some (PDict d) => d
  | _ => []
  end.

(** The record after [filter_builds] wrote [build_num] as text. *)
Definition normalised (record : ElkJob) : ElkJob :=
  match get "build_num" record with
  | Some n => set "build_num" (SStr (str_of_scalar n)) record
  | None => record
  end.

(** [str(build['build_num'])] *)
Definition record_build_id (record : ElkJob) : string :=
  match get "build_num" record with
  | Some n => str_of_scalar n
  | None => ""
  end.

(** A record in the agreed shape: the job name is text, the url is text
    or [None], the build number is there, the result is text when there,
    and the duration is a number (or the text of one) when there. *)
Definition well_formed_record (r : ElkJob) : bool :=
  match get "job_name" r, get "job_url" r, get "build_num" r with
  | Some (SStr _), Some (SStr _), Some _
  | Some (SStr _), Some SNone, Some _ =>
      match get_or_none "build_result" r with
      | SInt _ => false
      | _ => true
      end
      && match get_or_none "build_duration" r with
         | SStr s =>
             match int_literal s with Some _ => true | None => false end
         | _ => true
         end
  | _, _, _ => false
  end.

Definition well_formed_hit (hit : dict pyval) : bool :=
  match get "_source" hit with
  | Some (PDict d) => well_formed_record d
  | _ => false
  end.

(** The path that a scan of [rest] leaves: the element after the last
    ["--config"], or [current]; a ["--config"] that ends the list has no
    element after it. *)
Fixpoint path_after_config (rest : list string) (current : string)
  : outcome string :=
  match rest with
  | [] => Ok current
  | item :: rest' =>
      if String.eqb item "--config" then
        match rest' with
        | path :: _ => path_after_config rest' path
        | [] => Raise IndexError
        end
      else path_after_config rest' current
  end.

(** The fields [get_jobs] reads are there: the job name is text and the
    url is text or [None]. *)
Definition well_formed_job_record (r : ElkJob) : bool :=
  match get "job_name" r, get "job_url" r with
  | Some (SStr _), Some (SStr _) | Some (SStr _), Some SNone => true
  | _, _ => false
  end.

Definition well_formed_job_hit (hit : dict pyval) : bool :=
  match get "_source" hit with
  | Some (PDict d) => well_formed_job_record d
  | _ => false
  end.

(** [hit['job_name']] and the job [get_jobs] makes of a record. *)
Definition record_name (r : ElkJob) : string :=
  match get "job_name" r with
  | Some (SStr n) => n
  | _ => ""
  end.

Definition record_url (r : ElkJob) : option string :=
  match get "job_url" r with
  | Some (SStr u) => Some u
  | _ => None
  end.

Definition job_of_record (r : ElkJob) : Job.t :=
  Job.new (record_name r) (record_url r).

(** The dictionary [get_jobs] builds from well-formed records. *)
Definition jobs_of_records (records : list ElkJob) (acc : dict Job.t)
  : dict Job.t :=
  fold_left (fun acc r => set (record_name r) (job_of_record r) acc)
    records acc.

(** What one range says about the duration [d]: [None] when its operator
    is not in the table or its operand is not a number. *)
Definition range_check (float_of_str : string -> option float) (d : float)
  (r : Range) : option bool :=
  match RANGE_OPERATORS (operator r), float_of_str (operand r) with
  | Some op, Some bound => Some (op d bound)
  | _, _ => None
  end.

Definition range_holds (float_of_str : string -> option float) (d : float)
  (r : Range) : bool :=
  match range_check float_of_str d r with
  | Some true => true
  | _ => false
  end.

Definition range_well_formed (float_of_str : string -> option float)
  (r : Range) : bool :=
  match RANGE_OPERATORS (operator r), float_of_str (operand r) with
  | Some _, Some _ => true
  | _, _ => false
  end.

(** The builds of every job stand under their own identifiers, no
    identifier twice. *)
Definition builds_keyed (builds_jobs : dict Job.t) : bool :=
  forallb (fun job => keyed_by Build.build_id (Job.builds job))
    (values builds_jobs).

(** A job of [get_last_build]: it has the name it stands under and one
    build, which stands under its own, numeric, identifier. *)
Definition single_build_job (item : string * Job.t) : bool :=
  String.eqb (Job.name (snd item)) (fst item)
  && match Job.builds (snd item) with
     | [(k, b)] => String.eqb k (Build.build_id b) && is_numeric k
     | _ => false
     end.

(** The jobs that have builds, in order. *)
Definition with_builds (builds_jobs : dict Job.t) : dict Job.t :=
  filter (fun item => truthy (Job.builds (snd item))) builds_jobs.

(** The build number of a record is an [int], or text that [int] reads. *)
Definition numeric_build_num (r : ElkJob) : bool :=
  match get "build_num" r with
  | Some (SInt _) => true
  | Some (SStr s) => is_numeric s
  | _ => false
  end.

(** The hit is among those [get_builds] makes builds of: its record passes
    the job filters and, with its build number as text, the build
    filters. *)
Definition selected (job_stages build_stages : list (ElkJob -> bool))
  (hit : dict pyval) : bool :=
  passes job_stages (record_of_hit hit)
  && passes build_stages (normalised (record_of_hit hit)).

(** Every build of every job stands under its own identifier. *)
Definition builds_by_id (jobs : dict Job.t) : Prop :=
  forall n j k b,
    get n jobs = Some j -> get k (Job.builds j) = Some b ->
    Build.build_id b = k.

(** The environments by name, each with the number of its systems. *)
Definition shape (envs : list Environment.t) : list (string * nat) :=
  map (fun env => (Environment.name env,
                   List.length (Environment.systems env))) envs.

(** [bool(attr_dict.get('arguments'))] *)
Definition has_arguments (attr_dict : attribute) : bool :=
  match attr_dict with
  | Attribute (Some (_ :: _)) _ => true
  | _ => false
  end.

Definition arguments_of (attr_dict : attribute) : list Argument.t :=
  match attr_dict with
  | Attribute (Some arguments) _ => arguments
  | _ => []
  end.

(** The call with its level raised by [d]. *)
Definition raised (d : Z) (call : Extension) : Extension :=
  {| ext_arguments := ext_arguments call; ext_group := ext_group call;
     ext_level := ext_level call + d |}.

(** The record has no field that holds a test suite. *)
Definition no_test_suites (r : ElkJob) : bool :=
  forallb (fun key => negb (String.prefix "test_results_" key)) (keys r).

(** No hit of the answer of the server holds a test suite. *)
Definition no_suites_in (response : option (list (dict pyval))) : bool :=
  match response with
  | Some hits => forallb (fun hit => no_test_suites (record_of_hit hit)) hits
  | None => true
  end.

(** Every job has builds, and no build has tests. *)
Definition builds_without_tests (jobs : dict Job.t) : Prop :=
  forall k v,
    In (k, v) jobs ->
    Job.builds v <> []
    /\ Forall (fun kb => Build.tests (snd kb) = []) (Job.builds v).

(** The source of every system of [envs] has the method [func] and the
    method answers. *)
Definition all_answer
  (get_source_method :
     string -> list Source.t -> string -> outcome source_method)
  (ci_args : dict Argument.t) (func : string) (envs : list Environment.t)
  : bool :=
  forallb
    (fun env =>
       forallb
         (fun s =>
            match fetched_system get_source_method ci_args func s with
            | Some _ => true
            | None => false
            end)
         (Environment.systems env))
    envs.

(** The environment once every system has been fetched and populated. *)
Definition fetched_environment
  (get_source_method :
     string -> list Source.t -> string -> outcome source_method)
  (ci_args : dict Argument.t) (func : string) (env : Environment.t)
  : Environment.t :=
  {| Environment.name := Environment.name env;
     Environment.systems :=
       map (fun s =>
              match fetched_system get_source_method ci_args func s with
              | Some s' => s'
              | None => s
              end)
         (Environment.systems env) |}.

(** The calls of the method [func] for [arg], one for each system of
    each environment, in order. *)
Definition calls_for (arg : Argument.t) (func : string)
  (envs : list Environment.t) : list Fetch :=
  flat_map
    (fun env =>
       map (fun s => {| fetch_arg := arg;
                        fetch_env := Environment.name env;
                        fetch_system := System.name s;
                        fetch_method := func |})
         (Environment.systems env))
    envs.

(** The check that an argument installs when it is given and holds a
    value: [if arg and arg.value: checks_to_apply.append(...)]. *)
Definition stage_of_argument (kwargs : Kwargs) (name : string)
  (stage : Argument.t -> ElkJob -> bool) : list (ElkJob -> bool) :=
  match get name (kw_args kwargs) with
  | Some arg => if argval_truthy (Argument.value arg) then [stage arg] else []
  | None => []
  end.

(** The build number of the record is one of those the [builds] argument
    asks for, when that argument asks for any. *)
Definition build_requested (kwargs : Kwargs) (record : ElkJob) : Prop :=
  forall arg,
    get "builds" (kw_args kwargs) = Some arg ->
    argval_truthy (Argument.value arg) = true ->
    exists number,
      field_text record "build_num" = Some number
      /\ In number (strs_of (Argument.value arg)).

(** The record has a result, and it equals a status of [arg] when letter
    case is ignored. *)
Definition status_among (arg : Argument.t) (record : ElkJob) : Prop :=
  exists result status,
    field_text record "build_result" = Some result
    /\ In status (strs_of (Argument.value arg))
    /\ equal_ignoring_case result status.

(** The test case is in one of the test suites the record holds. *)
Definition test_of_record (parse_test_suite : scalar -> option (list TestCase))
  (record : ElkJob) (test : TestCase) : Prop :=
  exists suite xml tests,
    In suite (keys record)
    /\ String.prefix "test_results_" suite = true
    /\ get suite record = Some xml
    /\ parse_test_suite xml = Some tests
    /\ In test tests.

(** Every test that a build of a job of [jobs] holds has the name of a
    test case that [select_test] kept, from a suite of a record of that
    job. *)
Definition stored_tests_selected (re_search : string -> string -> bool)
  (parse_test_suite : scalar -> option (list TestCase))
  (float_of_str : string -> option float) (f : TestFilters)
  (records : list ElkJob) (jobs : dict Job.t) : Prop :=
  forall n job b build k,
    In (n, job) jobs ->
    In (b, build) (Job.builds job) ->
    In k (keys (Build.tests build)) ->
    exists record test t,
      In record records
      /\ field_text record "job_name" = Some n
      /\ test_of_record parse_test_suite record test
      /\ select_test re_search float_of_str f test = Ok (Some t)
      /\ tc_name test = k.

(** * Concrete data *)

(** Hits in the agreed shape, as the scenarios give them. *)
Definition build_hit (job_name job_url build_num build_result : string)
  : dict pyval :=
  [("_source",
    PDict [("job_name", SStr job_name); ("job_url", SStr job_url);
           ("build_num", SStr build_num);
           ("build_result", SStr build_result)])].

(** The argument [--build-status statuses]. *)
Definition status_arg (statuses : list string) : Argument.t :=
  {| Argument.name := "build_status"; Argument.level := 2;
     Argument.func := Some "get_builds"; Argument.value := VStrs statuses |}.

(** [get_builds(build_status=status_arg)] *)
Definition build_status_kwargs (statuses : list string) : Kwargs :=
  {| kw_args := [("build_status", status_arg statuses)];
     kw_jobs_scope := None |}.

(** A resolver for systems that have no source at all. *)
Definition no_source : string -> list Source.t -> string -> outcome source_method :=
  fun system_name _ func => Raise (NoCapableSource system_name func).

Definition tests_arg : Argument.t :=
  {| Argument.name := "tests"; Argument.level := 2;
     Argument.func := Some "get_tests"; Argument.value := VStrs [] |}.

(** [--sources]: an argument without a function. *)
Definition sources_arg : Argument.t :=
  {| Argument.name := "sources"; Argument.level := 1;
     Argument.func := None; Argument.value := VStrs ["elastic"] |}.

Definition example_ci_args : dict Argument.t :=
  [("tests", tests_arg); ("sources", sources_arg)].

(** The state of [run_query] once [tests_arg] has been processed. *)
Definition after_tests : QueryState :=
  fst (run_args no_source 1 example_ci_args [tests_arg] (initial_state [])).

Definition jenkins : Source.t :=
  {| Source.name := "jenkins"; Source.priority := 0; Source.enabled := true;
     Source.methods := [("get_jobs", fun _ => Ok [])] |}.

Definition elastic : Source.t :=
  {| Source.name := "elastic"; Source.priority := 5; Source.enabled := true;
     Source.methods := [("get_jobs", fun _ => Ok [])] |}.

Definition gateA : System.t :=
  {| System.name := "gateA"; System.sources := [jenkins; elastic];
     System.jobs := [] |}.


Definition build_of (id status : string) : Build.t :=
  Build.new id (Some status) None.

Definition job_2_10_3 : Job.t :=
  {| Job.name := "job1"; Job.url := Some "http://domain.tld/job1";
     Job.builds := [("2", build_of "2" "SUCCESS");
                    ("10", build_of "10" "FAIL");
                    ("3", build_of "3" "SUCCESS")] |}.

Definition job_1_abc : Job.t :=
  {| Job.name := "job1"; Job.url := Some "http://domain.tld/job1";
     Job.builds := [("1", build_of "1" "SUCCESS");
                    ("abc", build_of "abc" "FAIL")] |}.

Definition any_pattern_valid : string -> bool := fun _ => true.
Definition any_text_matches : string -> string -> bool := fun _ _ => true.

Definition last_build_kwargs : Kwargs :=
  {| kw_args :=
       [("last_build",
         {| Argument.name := "last_build"; Argument.level := 2;
            Argument.func := Some "get_builds"; Argument.value := VStrs [] |})];
     kw_jobs_scope := None |}.

(** A resolver that takes the first source, in the order of the
    configuration, that has the method. *)
Definition first_with_method
  : string -> list Source.t -> string -> outcome source_method :=
  fun system_name sources func =>
    match find (fun s => mem func (Source.methods s)) sources with
    | Some s => getitem func (Source.methods s)
    | None => Raise (NoCapableSource system_name func)
    end.

(** A source whose [get_jobs] knows the url of [job1] and whose
    [get_tests] knows one build of it. *)
Definition sample_source : Source.t :=
  {| Source.name := "elastic"; Source.priority := 0; Source.enabled := true;
     Source.methods :=
       [("get_jobs",
         fun _ => Ok [("jobs", [("job1", Job.new "job1" (Some "http://domain.tld/job1"))])]);
        ("get_tests",
         fun _ => Ok [("jobs", [("job1",
                                 Job.add_build (build_of "1" "SUCCESS")
                                   (Job.new "job1" None))])])] |}.

Definition sample_environment : Environment.t :=
  {| Environment.name := "prod";
     Environment.systems :=
       [{| System.name := "gateA"; System.sources := [sample_source];
           System.jobs := [] |}] |}.

Definition jobs_arg : Argument.t :=
  {| Argument.name := "jobs"; Argument.level := 1;
     Argument.func := Some "get_jobs"; Argument.value := VStrs ["job1"] |}.

Definition sample_ci_args : dict Argument.t :=
  [("jobs", jobs_arg); ("tests", tests_arg)].

(** A hit of the jobs index, its url present or not. *)
Definition job_hit (job_name job_url : string) : dict pyval :=
  [("_source", PDict [("job_name", SStr job_name); ("job_url", SStr job_url)])].

Definition job_hit_without_url (job_name : string) : dict pyval :=
  [("_source", PDict [("job_name", SStr job_name)])].

Definition no_kwargs : Kwargs := {| kw_args := []; kw_jobs_scope := None |}.

(** [float] on the operands of the examples. *)
Definition sample_float_of_str (s : string) : option float :=
  if String.eqb s "1" then Some 1%float
  else if String.eqb s "2" then Some 2%float
  else None.

Definition range (operator operand : string) : Range :=
  {| operator := operator; operand := operand |}.

(** Three jobs: one with three builds, one with none, one with one. *)
Definition three_jobs : dict Job.t :=
  [("job1", job_2_10_3);
   ("job0", Job.new "job0" None);
   ("job2", Job.add_build (build_of "7" "SUCCESS") (Job.new "job2" None))].

(** A hit of the builds index whose build number is an [int], as Jenkins
    sends it. *)
Definition numbered_build_hit (job_name job_url : string) (build_num : Z)
  (build_result : string) : dict pyval :=
  [("_source",
    PDict [("job_name", SStr job_name); ("job_url", SStr job_url);
           ("build_num", SInt build_num);
           ("build_result", SStr build_result)])].

(** A second argument of level 1 that has a function. *)
Definition spec_arg : Argument.t :=
  {| Argument.name := "spec"; Argument.level := 1;
     Argument.func := Some "get_jobs"; Argument.value := VStrs ["job1"] |}.

Definition three_ci_args : dict Argument.t :=
  [("jobs", jobs_arg); ("spec", spec_arg); ("tests", tests_arg)].

(** A system whose source has no [get_tests], after one that has. *)
Definition two_systems : Environment.t :=
  {| Environment.name := "staging";
     Environment.systems :=
       [{| System.name := "gateB"; System.sources := [sample_source];
           System.jobs := [] |};
        gateA] |}.

(** The arguments [--tests tempest --test-result failure
    --test-duration ">1"]. *)
Definition test_kwargs : Kwargs :=
  {| kw_args :=
       [("tests",
         {| Argument.name := "tests"; Argument.level := 3;
            Argument.func := Some "get_tests";
            Argument.value := VStrs ["tempest"] |});
        ("test_result",
         {| Argument.name := "test_result"; Argument.level := 3;
            Argument.func := Some "get_tests";
            Argument.value := VStrs ["failure"] |});
        ("test_duration",
         {| Argument.name := "test_duration"; Argument.level := 3;
            Argument.func := Some "get_tests";
            Argument.value := VRanges [range ">" "1"] |})];
     kw_jobs_scope := None |}.

(** A test case that is marked both skipped and failed. *)
Definition failed_test : TestCase :=
  {| tc_name := "test_a"; tc_skipped := true; tc_failure := true;
     tc_classname := Some "tempest.api"; tc_time := Some 1.5%float |}.

(** A model with arguments whose type has an [API], and one without
    arguments whose type has one as well. *)
Definition sample_API : dict attribute :=
  [("name", Attribute (Some [jobs_arg]) (Some TStr));
   ("systems",
    Attribute (Some [sources_arg])
      (Some (Class "System"
               (Some [("jobs",
                       Attribute (Some [jobs_arg; spec_arg])
                         (Some (Class "Job"
                                  (Some [("builds",
                                          Attribute (Some [tests_arg])
                                            (Some TList))]))))]))));
   ("hidden",
    Attribute None
      (Some (Class "Build"
               (Some [("tests", Attribute (Some [tests_arg]) None)]))))].

(** The arguments [--builds --tests tempest]. *)
Definition builds_and_tests_kwargs : Kwargs :=
  {| kw_args :=
       [("builds",
         {| Argument.name := "builds"; Argument.level := 2;
            Argument.func := Some "get_builds"; Argument.value := VStrs [] |});
        ("tests",
         {| Argument.name := "tests"; Argument.level := 3;
            Argument.func := Some "get_tests";
            Argument.value := VStrs ["tempest"] |})];
     kw_jobs_scope := None |}.

(** A parser of test suites that reads none. *)
Definition no_suite_parsed : scalar -> option (list TestCase) :=
  fun _ => None.

(** A test case that passed. *)
Definition passed_test : TestCase :=
  {| tc_name := "test_b"; tc_skipped := false; tc_failure := false;
     tc_classname := Some "tempest.api"; tc_time := Some 0.5%float |}.

(** A parser that reads the one suite of the examples. *)
Definition sample_suite_parser : scalar -> option (list TestCase) :=
  fun xml =>
    match xml with
    | SStr s => if String.eqb s "suite" then Some [failed_test; passed_test]
                else None
    | _ => None
    end.

(** A hit of a build that holds a test suite. *)
Definition tests_hit : dict pyval :=
  [("_source",
    PDict [("job_name", SStr "job1");
           ("job_url", SStr "http://domain.tld/job1");
           ("build_num", SInt 1);
           ("build_result", SStr "SUCCESS");
           ("test_results_1", SStr "suite")])].

(** The arguments [--builds --test-result failure]. *)
Definition failed_tests_kwargs : Kwargs :=
  {| kw_args :=
       [("builds",
         {| Argument.name := "builds"; Argument.level := 2;
            Argument.func := Some "get_builds"; Argument.value := VStrs [] |});
        ("test_result",
         {| Argument.name := "test_result"; Argument.level := 3;
            Argument.func := Some "get_tests";
            Argument.value := VStrs ["failure"] |})];
     kw_jobs_scope := None |}.

(** What [get_tests] returns for [tests_hit] and [failed_tests_kwargs]. *)
Definition failed_tests_build : Build.t :=
  {| Build.build_id := "1"; Build.status := Some "SUCCESS";
     Build.duration := None;
     Build.tests :=
       [("test_a",
         {| Test.name := "test_a"; Test.result := Some "FAILURE";
            Test.duration := Some 1500%float;
            Test.class_name := Some "tempest.api" |})] |}.

Definition failed_tests_job : Job.t :=
  {| Job.name := "job1"; Job.url := Some "http://domain.tld/job1";
     Job.builds := [("1", failed_tests_build)] |}.

Definition failed_tests_result : dict Job.t := [("job1", failed_tests_job)].

(** A source whose [get_tests] is the one of [api.py], called without
    [builds] and without [last_build]. *)
Definition tests_only_source : Source.t :=
  {| Source.name := "elastic"; Source.priority := 0; Source.enabled := true;
     Source.methods :=
       [("get_tests",
         fun _ =>
           jobs <- get_tests any_pattern_valid any_text_matches
                     no_suite_parsed sample_float_of_str (Some []) no_kwargs ;;
           Ok [("jobs", jobs)])] |}.

(** Two environments, three systems, all with that source. *)
Definition tests_environments : list Environment.t :=
  [{| Environment.name := "prod";
      Environment.systems :=
        [{| System.name := "gateA"; System.sources := [tests_only_source];
            System.jobs := [] |};
         {| System.name := "gateB"; System.sources := [tests_only_source];
            System.jobs := [] |}] |};
   {| Environment.name := "staging";
      Environment.systems :=
        [{| System.name := "gateC"; System.sources := [tests_only_source];
            System.jobs := [] |}] |}].

(** * Properties *)

(** ** Sorting *)

Section SortingFacts.

Variable A : Type.
Variable key : A -> Z.

Lemma insert_sorted_rev_perm (a : A) (l : list A) :
  Permutation (a :: l) (insert_sorted_rev key a l).
Proof.
  induction l as [|b t IH]; simpl; [reflexivity|].
  destruct (key b <=? key a); [reflexivity|].
  rewrite perm_swap. now apply perm_skip.
Qed.

Lemma sorted_rev_perm (l : list A) : Permutation l (sorted_rev key l).
Proof.
  induction l as [|a t IH]; simpl; [reflexivity|].
  rewrite <- insert_sorted_rev_perm. now apply perm_skip.
Qed.

Let desc (x y : A) : Prop := key y <= key x.

Lemma insert_sorted_rev_sorted (a : A) (l : list A) :
  StronglySorted desc l -> StronglySorted desc (insert_sorted_rev key a l).
Proof.
  induction 1 as [|b t Hs IH Hb]; simpl.
  - repeat constructor.
  - destruct (key b <=? key a) eqn:E.
    + apply Z.leb_le in E. constructor.
      * now constructor.
      * constructor; [exact E|].
        rewrite Forall_forall in *. intros x Hx. unfold desc in *.
        specialize (Hb x Hx). lia.
    + apply Z.leb_gt in E. constructor; [exact IH|].
      rewrite Forall_forall in *. intros x Hx.
      apply (Permutation_in _ (Permutation_sym (insert_sorted_rev_perm a t)))
        in Hx.
      destruct Hx as [<-|Hx]; [unfold desc; lia | now apply Hb].
Qed.

Lemma sorted_rev_sorted (l : list A) : StronglySorted desc (sorted_rev key l).
Proof.
  induction l as [|a t IH]; simpl; [constructor|].
  now apply insert_sorted_rev_sorted.
Qed.

Lemma strongly_sorted_map_desc (l : list A) :
  StronglySorted desc l -> non_increasing (map key l).
Proof.
  induction 1 as [|b t Hs IH Hb]; simpl; constructor; [exact IH|].
  rewrite Forall_forall in *. intros z Hz.
  apply in_map_iff in Hz. destruct Hz as (x & <- & Hx). now apply Hb.
Qed.

Lemma sorted_rev_non_increasing (l : list A) :
  non_increasing (map key (sorted_rev key l)).
Proof. apply strongly_sorted_map_desc, sorted_rev_sorted. Qed.



End SortingFacts.

Lemma non_increasing_app (l1 l2 : list Z) :
  non_increasing l1 -> non_increasing l2 ->
  (forall a b, In a l1 -> In b l2 -> b <= a) ->
  non_increasing (l1 ++ l2).
Proof.
  unfold non_increasing. induction 1 as [|a t Hs IH Ha]; intros H2 Hx; simpl.
  - exact H2.
  - constructor.
    + apply IH; [exact H2|]. intros; apply Hx; simpl; auto.
    + apply Forall_app. split; [exact Ha|].
      rewrite Forall_forall. intros b Hb. apply Hx; simpl; auto.
Qed.

(** ** [run_query]: the order of the fetches *)

Section OrchestratorFacts.

Variable get_source_method :
  string -> list Source.t -> string -> outcome source_method.

Lemma query_systems_calls ci arg func env_name systems :
  Forall (fun c => fetch_arg c = arg)
    (snd (fst (query_systems get_source_method ci arg func env_name systems))).
Proof.
  induction systems as [|system rest IH]; simpl; [constructor|].
  destruct (get_source_method _ _ _) as [method|e]; simpl; [|constructor].
  destruct (method _) as [instances|e]; simpl.
  - destruct (query_systems _ _ _ _ _ rest) as [[rest' calls] err].
    simpl in *. now constructor.
  - now repeat constructor.
Qed.

Lemma query_environments_calls ci arg func envs :
  Forall (fun c => fetch_arg c = arg)
    (snd (fst (query_environments get_source_method ci arg func envs))).
Proof.
  induction envs as [|env rest IH]; simpl; [constructor|].
  pose proof (query_systems_calls ci arg func (Environment.name env)
                (Environment.systems env)) as Hs.
  destruct (query_systems _ _ _ _ _ _) as [[systems' calls] err].
  simpl in Hs. destruct err as [e|]; simpl; [exact Hs|].
  destruct (query_environments _ _ _ _ rest) as [[rest' calls'] err'].
  simpl in *. apply Forall_app. now split.
Qed.

(** What one step adds to the list of fetches. *)
Lemma run_arg_fetched start_level ci arg st :
  exists calls,
    fetched (fst (run_arg get_source_method start_level ci arg st)) = fetched st ++ calls
    /\ Forall (fun c => fetch_arg c = arg) calls
    /\ (calls <> [] ->
        start_level <= Argument.level arg
        /\ last_level st <= Argument.level arg
        /\ Argument.has_func arg = true).
Proof.
  unfold run_arg.
  destruct (_ && _) eqn:G.
  - apply andb_true_iff in G. destruct G as [G1 G2].
    apply Z.geb_le in G1, G2.
    destruct (Argument.func arg) as [func|] eqn:F.
    + destruct (Argument.has_func arg) eqn:HF.
      * pose proof (query_environments_calls ci arg func (environments st))
          as Hc.
        destruct (query_environments _ _ _ _ _) as [[envs' calls] err].
        simpl in Hc. exists calls.
        destruct err; simpl; auto.
      * exists []. simpl. rewrite app_nil_r. repeat split; auto; congruence.
    + exists []. simpl. rewrite app_nil_r. repeat split; auto; congruence.
  - exists []. simpl. rewrite app_nil_r. repeat split; auto; congruence.
Qed.

Lemma same_arg_non_increasing (arg : Argument.t) (calls : list Fetch) :
  Forall (fun c => fetch_arg c = arg) calls ->
  non_increasing (map (fun c => Argument.level (fetch_arg c)) calls).
Proof.
  induction 1 as [|c t Hc H IHt]; simpl; constructor; [exact IHt|].
  rewrite Forall_forall in *. intros z Hz.
  apply in_map_iff in Hz. destruct Hz as (c' & <- & Hc').
  rewrite (H c' Hc'), Hc. lia.
Qed.

Lemma run_args_fetched start_level ci args st :
  StronglySorted (fun x y => Argument.level y <= Argument.level x) args ->
  exists calls,
    fetched (fst (run_args get_source_method start_level ci args st)) = fetched st ++ calls
    /\ Forall (fun c => In (fetch_arg c) args
                        /\ start_level <= Argument.level (fetch_arg c)) calls
    /\ non_increasing (map (fun c => Argument.level (fetch_arg c)) calls).
Proof.
  intros Hs. revert st.
  induction Hs as [|arg rest Hs IH Hall]; intros st; simpl.
  - exists []. rewrite app_nil_r. repeat split; constructor.
  - destruct (run_arg_fetched start_level ci arg st)
      as (calls1 & E1 & A1 & G1).
    destruct (run_arg get_source_method start_level ci arg st) as [st' [e|]]; simpl in E1.
    + exists calls1. simpl. split; [exact E1|]. split.
      * rewrite Forall_forall in *. intros c Hc.
        rewrite (A1 c Hc). split; [now left|].
        apply G1. intros ->. exact Hc.
      * now apply same_arg_non_increasing with (arg := arg).
    + destruct (IH st') as (calls2 & E2 & A2 & N2).
      exists (calls1 ++ calls2). split; [|split].
      * rewrite E2, E1. now rewrite app_assoc.
      * apply Forall_app. split.
        -- rewrite Forall_forall in *. intros c Hc.
           rewrite (A1 c Hc). split; [now left|].
           apply G1. intros ->. exact Hc.
        -- rewrite Forall_forall in *. intros c Hc.
           destruct (A2 c Hc). split; [now right|assumption].
      * rewrite map_app. apply non_increasing_app.
        -- now apply same_arg_non_increasing with (arg := arg).
        -- exact N2.
        -- intros a b Ha Hb.
           apply in_map_iff in Ha. destruct Ha as (c & <- & Hc).
           apply in_map_iff in Hb. destruct Hb as (c' & <- & Hc').
           rewrite Forall_forall in A1, A2, Hall.
           rewrite (A1 c Hc). apply Hall. now apply A2.
Qed.

(** C1. [run_query] takes the criteria by descending level (every
    criterion once); a step fetches only when the level of its criterion
    is at least [start_level] and at least [last_level], which starts at
    [-1], below every level; so the levels of the fetches of a run never
    go up, and no criterion below [start_level] is ever fetched, whatever
    the criteria, the environments and [start_level] (1 by default). *)
Theorem run_query_level_order :
  forall (start_level : Z) (ci_args : dict Argument.t)
         (envs : list Environment.t),
    Permutation (values ci_args) (query_order ci_args)
    /\ non_increasing (map Argument.level (query_order ci_args))
    /\ (forall arg st,
           fetched (fst (run_arg get_source_method start_level ci_args arg st)) <> fetched st ->
           start_level <= Argument.level arg
           /\ last_level st <= Argument.level arg)
    /\ (last_level (initial_state envs) = -1
        /\ forall arg : Argument.t,
             0 <= Argument.level arg ->
             last_level (initial_state envs) < Argument.level arg)
    /\ non_increasing
         (map (fun c => Argument.level (fetch_arg c))
            (fetched (fst (run_query get_source_method start_level ci_args envs))))
    /\ (forall c,
           In c (fetched (fst (run_query get_source_method start_level ci_args envs))) ->
           In (fetch_arg c) (values ci_args)
           /\ start_level <= Argument.level (fetch_arg c))
    /\ (forall arg,
           Argument.level arg < start_level ->
           ~ In arg (map fetch_arg
                       (fetched (fst (run_query get_source_method start_level ci_args envs)))))
    /\ (forall arg,
           Argument.level arg < default_start_level ->
           ~ In arg (map fetch_arg
                       (fetched
                          (fst (run_query get_source_method default_start_level ci_args envs))))).
Proof.
  intros start_level ci_args envs.
  assert (Hrun : forall sl,
             exists calls,
               fetched (fst (run_query get_source_method sl ci_args envs)) = calls
               /\ Forall (fun c => In (fetch_arg c) (query_order ci_args)
                                   /\ sl <= Argument.level (fetch_arg c))
                    calls
               /\ non_increasing
                    (map (fun c => Argument.level (fetch_arg c)) calls)).
  { intros sl.
    destruct (run_args_fetched sl ci_args (initial_state envs)
                (sorted_rev_sorted Argument.level (values ci_args)))
      as (calls & E & Hall & Hn).
    exists calls. repeat split; assumption. }
  assert (Hbelow : forall sl arg,
             Argument.level arg < sl ->
             ~ In arg (map fetch_arg
                         (fetched (fst (run_query get_source_method sl ci_args envs))))).
  { intros sl arg Hlt Hin.
    destruct (Hrun sl) as (calls & E & Hall & _). rewrite E in Hin.
    apply in_map_iff in Hin. destruct Hin as (c & <- & Hc).
    rewrite Forall_forall in Hall. destruct (Hall c Hc). lia. }
  split; [apply sorted_rev_perm|].
  split; [apply sorted_rev_non_increasing|].
  split.
  { intros arg st Hne.
    destruct (run_arg_fetched start_level ci_args arg st)
      as (calls & E & _ & G).
    destruct G as (G1 & G2 & _); [|split; assumption].
    intros ->. rewrite app_nil_r in E. contradiction. }
  split.
  { simpl. split; [reflexivity|intros; lia]. }
  destruct (Hrun start_level) as (calls & E & Hall & Hn).
  split; [now rewrite E|].
  split.
  { intros c Hc. rewrite E in Hc. rewrite Forall_forall in Hall.
    destruct (Hall c Hc) as [Hin Hlv]. split; [|exact Hlv].
    eapply Permutation_in; [|exact Hin].
    apply Permutation_sym, sorted_rev_perm. }
  split; [apply Hbelow|apply Hbelow].
Qed.

(** C2.  What [run_query] does with a criterion without a handler.  It
    never fetches and never changes the environments.  When the criterion
    passes the gate (its level is at least [start_level] and at least
    [last_level]) the [continue] leaves [last_level] as it was, as the
    comment in the code says of such a criterion; when it fails the gate
    the assignment that follows the [if] sets [last_level] to its level,
    which is where the code leaves what that comment and the
    specification say. *)
Theorem filter_only_last_level :
  forall (start_level : Z) (ci_args : dict Argument.t) (arg : Argument.t)
         (st : QueryState),
    Argument.has_func arg = false ->
    let st' := fst (run_arg get_source_method start_level ci_args arg st) in
    snd (run_arg get_source_method start_level ci_args arg st) = None
    /\ environments st' = environments st
    /\ fetched st' = fetched st
    /\ (start_level <= Argument.level arg ->
        last_level st <= Argument.level arg ->
        last_level st' = last_level st)
    /\ (Argument.level arg < start_level
        \/ Argument.level arg < last_level st ->
        last_level st' = Argument.level arg).
Proof.
  intros start_level ci_args arg st HF. unfold run_arg.
  rewrite HF.
  destruct (Argument.level arg >=? start_level) eqn:G1;
    destruct (Argument.level arg >=? last_level st) eqn:G2; simpl;
    rewrite ?Z.geb_le in *;
    try (assert (~ start_level <= Argument.level arg)
          by (rewrite <- Z.geb_le; congruence));
    try (assert (~ last_level st <= Argument.level arg)
          by (rewrite <- Z.geb_le; congruence));
    destruct (Argument.func arg); simpl;
    repeat split; auto; intros; lia.
Qed.

End OrchestratorFacts.

(** ** Which sources are invoked *)

Section SourceSelectionFacts.

Variable Population : Type.
Variable used_args : Type.
Variable source_populate :
  Source.t -> Environment.t -> used_args -> Population -> Population.
Variable get_source_method :
  string -> list Source.t -> string -> outcome source_method.






End SourceSelectionFacts.

(** ** Dictionaries *)

Section DictFacts.

Variable V : Type.

Lemma get_set_same (k : string) (v : V) (d : dict V) :
  get k (set k v d) = Some v.
Proof.
  induction d as [|[k' v'] t IH]; simpl.
  - now rewrite String.eqb_refl.
  - destruct (String.eqb k k') eqn:E; simpl; rewrite E; [reflexivity|exact IH].
Qed.

Lemma get_set_other (k k' : string) (v : V) (d : dict V) :
  k <> k' -> get k' (set k v d) = get k' d.
Proof.
  intros Hne. induction d as [|[k0 v0] t IH]; simpl.
  - apply String.eqb_neq in Hne. rewrite String.eqb_sym in Hne.
    now rewrite Hne.
  - destruct (String.eqb k k0) eqn:E; simpl.
    + apply String.eqb_eq in E. subst k0.
      destruct (String.eqb k' k) eqn:E'; [|reflexivity].
      apply String.eqb_eq in E'. congruence.
    + now rewrite IH.
Qed.

Lemma get_in (k : string) (v : V) (d : dict V) :
  wf d -> In (k, v) d -> get k d = Some v.
Proof.
  unfold wf, keys. induction d as [|[k' v'] t IH]; simpl; [tauto|].
  intros Hnd [E|Hin].
  - inversion E; subst. now rewrite String.eqb_refl.
  - inversion Hnd as [|? ? Hnotin Hnd']; subst.
    destruct (String.eqb k k') eqn:E.
    + apply String.eqb_eq in E. subst k'. exfalso. apply Hnotin.
      apply in_map_iff. now exists (k, v).
    + now apply IH.
Qed.

Lemma get_some_in (k : string) (v : V) (d : dict V) :
  get k d = Some v -> In (k, v) d.
Proof.
  induction d as [|[k' v'] t IH]; simpl; [discriminate|].
  destruct (String.eqb k k') eqn:E.
  - apply String.eqb_eq in E. subst k'. intros [= ->]. now left.
  - intros H. right. now apply IH.
Qed.

Lemma get_none_iff (k : string) (d : dict V) :
  get k d = None <-> ~ In k (keys d).
Proof.
  unfold keys. induction d as [|[k' v'] t IH]; simpl; [tauto|].
  destruct (String.eqb k k') eqn:E.
  - apply String.eqb_eq in E. subst k'. split; [discriminate|tauto].
  - apply String.eqb_neq in E. rewrite IH. split.
    + intros H [H1|H1]; [congruence|tauto].
    + tauto.
Qed.

Lemma in_keys_get (k : string) (d : dict V) :
  In k (keys d) -> exists v, get k d = Some v.
Proof.
  intros Hin. destruct (get k d) as [v|] eqn:E; [now exists v|].
  apply get_none_iff in E. contradiction.
Qed.

End DictFacts.

Lemma str_in_iff (x : string) (l : list string) :
  str_in x l = true <-> In x l.
Proof.
  unfold str_in. rewrite existsb_exists. split.
  - intros (y & Hy & E). apply String.eqb_eq in E. now subst.
  - intros H. exists x. split; [exact H|apply String.eqb_refl].
Qed.

Lemma distinct_NoDup (l : list string) : distinct l = true -> NoDup l.
Proof.
  induction l as [|x t IH]; simpl; [constructor|].
  intros H. apply andb_true_iff in H. destruct H as [H1 H2].
  constructor; [|now apply IH].
  intros Hin. apply str_in_iff in Hin. rewrite Hin in H1. discriminate.
Qed.

(** ** [sorted] and the last build *)

Section SortedFacts.

Variable A : Type.
Variable key : A -> Z.

Lemma insert_sorted_perm (a : A) (l : list A) :
  Permutation (a :: l) (insert_sorted key a l).
Proof.
  induction l as [|b t IH]; simpl; [reflexivity|].
  destruct (key a <=? key b); [reflexivity|].
  rewrite perm_swap. now apply perm_skip.
Qed.

Lemma sorted_perm (l : list A) : Permutation l (sorted key l).
Proof.
  induction l as [|a t IH]; simpl; [reflexivity|].
  rewrite <- insert_sorted_perm. now apply perm_skip.
Qed.

Let asc (x y : A) : Prop := key x <= key y.

Lemma insert_sorted_sorted (a : A) (l : list A) :
  StronglySorted asc l -> StronglySorted asc (insert_sorted key a l).
Proof.
  induction 1 as [|b t Hs IH Hb]; simpl.
  - repeat constructor.
  - destruct (key a <=? key b) eqn:E.
    + apply Z.leb_le in E. constructor; [now constructor|].
      constructor; [exact E|].
      rewrite Forall_forall in *. intros x Hx. unfold asc in *.
      specialize (Hb x Hx). lia.
    + apply Z.leb_gt in E. constructor; [exact IH|].
      rewrite Forall_forall in *. intros x Hx.
      apply (Permutation_in _ (Permutation_sym (insert_sorted_perm a t))) in Hx.
      destruct Hx as [<-|Hx]; [unfold asc; lia | now apply Hb].
Qed.

Lemma sorted_sorted (l : list A) : StronglySorted asc (sorted key l).
Proof.
  induction l as [|a t IH]; simpl; [constructor|].
  now apply insert_sorted_sorted.
Qed.

Lemma last_item_in (l : list A) (x : A) : last_item l = Some x -> In x l.
Proof.
  induction l as [|a t IH]; simpl; [discriminate|].
  destruct t as [|b t']; [intros [= ->]; now left|].
  intros H. right. now apply IH.
Qed.

Lemma last_item_greatest (l : list A) (x : A) :
  StronglySorted asc l -> last_item l = Some x ->
  forall y, In y l -> key y <= key x.
Proof.
  induction 1 as [|a t Hs IH Ha]; simpl; [discriminate|].
  destruct t as [|b t'].
  - intros [= ->] y [<-|[]]. lia.
  - intros Hl y [<-|Hy].
    + rewrite Forall_forall in Ha. apply Ha. now apply last_item_in.
    + now apply IH.
Qed.

Lemma last_item_some (l : list A) : l <> [] -> exists x, last_item l = Some x.
Proof.
  induction l as [|a t IH]; [congruence|]. intros _.
  destruct t as [|b t']; [now exists a|].
  destruct IH as [x Hx]; [discriminate|]. exists x. exact Hx.
Qed.

(** [sorted(l, key=key)[-1]] is an element of [l] whose key is greatest. *)
Lemma last_of_sorted (l : list A) :
  l <> [] ->
  exists x, last_item (sorted key l) = Some x
            /\ In x l
            /\ forall y, In y l -> key y <= key x.
Proof.
  intros Hne.
  destruct (last_item_some (l := sorted key l)) as [x Hx].
  { intros E. apply Hne. apply Permutation_nil.
    rewrite <- E. apply Permutation_sym, sorted_perm. }
  exists x. split; [exact Hx|]. split.
  - eapply Permutation_in; [apply Permutation_sym, sorted_perm|].
    now apply last_item_in.
  - intros y Hy. apply (last_item_greatest (sorted_sorted l) Hx).
    eapply Permutation_in; [apply sorted_perm|exact Hy].
Qed.

End SortedFacts.

(** ** [get_last_build] *)

Lemma map_result_ok (A B : Type) (f : A -> outcome B) (g : A -> B)
  (l : list A) :
  (forall x, In x l -> f x = Ok (g x)) -> map_result f l = Ok (map g l).
Proof.
  induction l as [|a t IH]; intros H; simpl; [reflexivity|].
  rewrite (H a) by now left. simpl.
  rewrite IH by (intros; apply H; now right). reflexivity.
Qed.

Lemma last_build_number_numeric (builds : dict Build.t) :
  builds <> [] ->
  (forall k, In k (keys builds) -> int_literal k <> None) ->
  exists k z,
    last_build_number builds = Ok k
    /\ In k (keys builds)
    /\ int_literal k = Some z
    /\ forall k' z', In k' (keys builds) -> int_literal k' = Some z' -> z' <= z.
Proof.
  intros Hne Hnum. unfold last_build_number.
  rewrite map_result_ok with (g := fun k => (k, int_value k)).
  2:{ intros k Hk. unfold int_of_str, int_value.
      destruct (int_literal k) eqn:E; [reflexivity|].
      exfalso. now apply (Hnum k Hk). }
  simpl.
  destruct (last_of_sorted (A := string * Z) snd
              (l := map (fun k => (k, int_value k)) (keys builds)))
    as ([k z] & Hlast & Hin & Hmax).
  { destruct builds; [congruence|discriminate]. }
  rewrite Hlast. exists k, z. split; [reflexivity|].
  apply in_map_iff in Hin. destruct Hin as (k0 & [= <- <-] & Hk0).
  split; [exact Hk0|]. split.
  - unfold int_value. destruct (int_literal k0) eqn:E; [reflexivity|].
    exfalso. now apply (Hnum k0 Hk0).
  - intros k' z' Hk' Hz'.
    assert (Ev : int_value k' = z') by (unfold int_value; now rewrite Hz').
    specialize (Hmax (k', int_value k')). simpl in Hmax.
    rewrite Ev in Hmax at 2. apply Hmax.
    rewrite Ev. apply in_map_iff. exists k'. now rewrite Ev.
Qed.

Lemma get_last_build_loop (builds_jobs : dict Job.t)
  (rest : list (string * Job.t)) :
  NoDup (map fst rest) ->
  (forall name job, In (name, job) rest -> get name builds_jobs = Some job) ->
  (forall name job k,
      In (name, job) rest -> In k (keys (Job.builds job)) ->
      int_literal k <> None) ->
  forall acc,
  exists out,
    for_each (last_build_of_job builds_jobs) rest acc = Ok out
    /\ (forall name job,
           In (name, job) rest -> Job.builds job <> [] ->
           exists k z b,
             get k (Job.builds job) = Some b
             /\ int_literal k = Some z
             /\ (forall k' z',
                    In k' (keys (Job.builds job)) ->
                    int_literal k' = Some z' -> z' <= z)
             /\ get name out = Some (job_with_build name (Job.url job) b))
    /\ (forall name job,
           In (name, job) rest -> Job.builds job = [] ->
           get name out = get name acc)
    /\ (forall name, ~ In name (map fst rest) -> get name out = get name acc).
Proof.
  induction rest as [|[n j] rest IH]; intros Hnd Hget Hnum acc.
  - exists acc. simpl. split; [reflexivity|]. repeat split; tauto.
  - inversion Hnd as [|? ? Hnotin Hnd']; subst.
    assert (Hget' : forall name job,
               In (name, job) rest -> get name builds_jobs = Some job)
      by (intros; apply Hget; now right).
    assert (Hnum' : forall name job k,
               In (name, job) rest -> In k (keys (Job.builds job)) ->
               int_literal k <> None)
      by (intros name job k H1 H2; apply (Hnum name job k); [now right|exact H2]).
    cbn [for_each]. unfold last_build_of_job at 1.
    unfold getitem at 1. rewrite (Hget n j) by now left. cbn [bind].
    destruct (Job.builds j) as [|kb bs] eqn:Eb.
    + cbn [truthy negb bind].
      destruct (IH Hnd' Hget' Hnum' acc) as (out & E & P1 & P2 & P3).
      exists out. split; [exact E|]. split; [|split].
      * intros name job [[= <- <-]|Hin] Hb; [congruence|now apply P1].
      * intros name job [[= <- <-]|Hin] Hb; [now apply P3|now apply P2 with job].
      * intros name Hn. apply P3. simpl in Hn. tauto.
    + cbn [truthy negb]. rewrite <- Eb.
      destruct (last_build_number_numeric (builds := Job.builds j))
        as (k & z & Ek & Hk & Hz & Hmax).
      { rewrite Eb. discriminate. }
      { intros k Hk. apply (Hnum n j k); [now left|exact Hk]. }
      rewrite Ek. cbn [bind].
      destruct (in_keys_get _ _ Hk) as [b Hb].
      unfold getitem. rewrite Hb. cbn [bind].
      destruct (IH Hnd' Hget' Hnum'
                  (set n (Job.add_build b (Job.new n (Job.url j))) acc))
        as (out & E & P1 & P2 & P3).
      exists out. split; [exact E|]. split; [|split].
      * intros name job [[= <- <-]|Hin] Hne.
        -- exists k, z, b. repeat split; try assumption.
           rewrite (P3 n Hnotin). now rewrite get_set_same.
        -- now apply P1.
      * intros name job [[= <- <-]|Hin] Hne.
        -- rewrite Eb in Hne. discriminate.
        -- rewrite (P2 name job Hin Hne). apply get_set_other.
           intros <-. apply Hnotin. apply in_map_iff. now exists (n, job).
      * intros name Hn. simpl in Hn. rewrite (P3 name) by tauto.
        apply get_set_other. intros <-. tauto.
Qed.

(** C4.  When the build identifiers are numeric, [get_last_build] keeps,
    for every job that has builds, the build whose identifier is greatest
    as an integer, and leaves out the jobs without builds; for the builds
    ["2"], ["10"] and ["3"] the last build is ["10"] (as text ["3"] would
    be the greatest). *)
Theorem get_last_build_numerically_greatest :
  forall builds_jobs : dict Job.t,
    distinct (keys builds_jobs) = true ->
    all_numeric builds_jobs = true ->
    exists out,
      get_last_build builds_jobs = Ok out
      /\ (forall name job,
             In (name, job) builds_jobs -> Job.builds job <> [] ->
             exists k z b,
               get k (Job.builds job) = Some b
               /\ int_literal k = Some z
               /\ (forall k' z',
                      In k' (keys (Job.builds job)) ->
                      int_literal k' = Some z' -> z' <= z)
               /\ get name out = Some (job_with_build name (Job.url job) b))
      /\ (forall name job,
             In (name, job) builds_jobs -> Job.builds job = [] ->
             get name out = None)
      /\ (forall name, ~ In name (keys builds_jobs) -> get name out = None)
      /\ (forall name url b2 b10 b3,
             get_last_build
               [(name, {| Job.name := name; Job.url := url;
                          Job.builds := [("2", b2); ("10", b10); ("3", b3)] |})]
             = Ok [(name, job_with_build name url b10)]
             /\ String.ltb "10" "3" = true).
Proof.
  intros builds_jobs Hd Hall.
  assert (Hwf : wf builds_jobs) by now apply distinct_NoDup.
  assert (Hnum : forall name job k,
             In (name, job) builds_jobs -> In k (keys (Job.builds job)) ->
             int_literal k <> None).
  { intros name job k Hin Hk. unfold all_numeric in Hall.
    rewrite forallb_forall in Hall.
    assert (Hj : In job (values builds_jobs))
      by (apply in_map_iff; now exists (name, job)).
    specialize (Hall job Hj). rewrite forallb_forall in Hall.
    specialize (Hall k Hk). unfold is_numeric in Hall.
    destruct (int_literal k); [discriminate|discriminate]. }
  clear Hall Hd.
  destruct (@get_last_build_loop builds_jobs builds_jobs Hwf
              (fun name job H => @get_in _ name job builds_jobs Hwf H) Hnum [])
    as (out & E & P1 & P2 & P3).
  exists out. split; [exact E|]. split; [exact P1|]. split; [|split].
  - intros name job Hin Hb. now rewrite (P2 name job Hin Hb).
  - intros name Hn. now rewrite (P3 name Hn).
  - intros name url b2 b10 b3. split; [|reflexivity].
    unfold get_last_build, items. cbn [for_each last_build_of_job].
    unfold getitem at 1. cbn [get]. rewrite String.eqb_refl. reflexivity.
Qed.

(** Reading the identifiers as integers either stops at the first one that
    is not numeric, with a [ValueError] for it, or all of them are. *)
Lemma int_keys_raise_or_numeric (ks : list string) :
  (exists k, In k ks /\ int_literal k = None
             /\ map_result (fun k => z <- int_of_str k ;; Ok (k, z)) ks
                = Raise (ValueError k))
  \/ (forall k, In k ks -> int_literal k <> None).
Proof.
  induction ks as [|k t IH]; [right; intros k []|].
  cbn [map_result]. unfold int_of_str at 1.
  destruct (int_literal k) as [z|] eqn:E; cbn [bind].
  - destruct IH as [(k' & Hin & Hbad & Hr)|Hall].
    + left. exists k'. split; [now right|]. split; [exact Hbad|].
      now rewrite Hr.
    + right. intros k' [<-|Hin]; [congruence|now apply Hall].
  - left. exists k. split; [now left|]. split; [exact E|reflexivity].
Qed.

Lemma get_last_build_loop_raises (builds_jobs : dict Job.t)
  (rest : list (string * Job.t)) :
  (forall name job, In (name, job) rest -> get name builds_jobs = Some job) ->
  (exists name job k,
      In (name, job) rest /\ In k (keys (Job.builds job))
      /\ int_literal k = None) ->
  forall acc,
  exists k,
    for_each (last_build_of_job builds_jobs) rest acc = Raise (ValueError k)
    /\ int_literal k = None.
Proof.
  induction rest as [|[n j] rest IH]; intros Hget Hbad acc.
  - destruct Hbad as (? & ? & ? & [] & _).
  - cbn [for_each]. unfold last_build_of_job at 1.
    unfold getitem at 1. rewrite (Hget n j) by now left. cbn [bind].
    assert (Hget' : forall name job,
               In (name, job) rest -> get name builds_jobs = Some job)
      by (intros; apply Hget; now right).
    destruct (int_keys_raise_or_numeric (keys (Job.builds j)))
      as [(k & Hin & Hk & Hr)|Hnum].
    + destruct (Job.builds j) as [|kb bs] eqn:Eb; [destruct Hin|].
      cbn [truthy negb]. unfold last_build_number. rewrite Hr. cbn [bind].
      now exists k.
    + assert (Hbad' : exists name job k,
                 In (name, job) rest /\ In k (keys (Job.builds job))
                 /\ int_literal k = None).
      { destruct Hbad as (name & job & k & [[= <- <-]|Hin] & Hk & Hnone).
        - exfalso. now apply (Hnum k Hk).
        - now exists name, job, k. }
      destruct (Job.builds j) as [|kb bs] eqn:Eb.
      * cbn [truthy negb bind]. now apply IH.
      * cbn [truthy negb]. rewrite <- Eb in *.
        destruct (last_build_number_numeric (builds := Job.builds j))
          as (k & z & Ek & Hk & _); [rewrite Eb; discriminate|exact Hnum|].
        rewrite Ek. cbn [bind].
        destruct (in_keys_get _ _ Hk) as [b Hb].
        unfold getitem. rewrite Hb. cbn [bind]. now apply IH.
Qed.

(** C5, as amended.  When a job with builds has a build identifier that is
    not numeric, [get_last_build] raises the [ValueError] of [int] for such
    an identifier; nothing catches it, so the caller gets the exception and
    no result, for any job. *)
Theorem get_last_build_non_numeric_raises :
  forall builds_jobs : dict Job.t,
    distinct (keys builds_jobs) = true ->
    all_numeric builds_jobs = false ->
    exists k,
      get_last_build builds_jobs = Raise (ValueError k)
      /\ int_literal k = None
      /\ forall out, get_last_build builds_jobs <> Ok out.
Proof.
  intros builds_jobs Hd Hn.
  assert (Hwf : wf builds_jobs) by now apply distinct_NoDup.
  assert (Hbad : exists name job k,
             In (name, job) builds_jobs /\ In k (keys (Job.builds job))
             /\ int_literal k = None).
  { unfold all_numeric in Hn.
    assert (He : existsb (fun job => negb (forallb is_numeric
                                            (keys (Job.builds job))))
                   (values builds_jobs) = true).
    { clear - Hn. induction (values builds_jobs) as [|j t IH]; simpl in *;
        [discriminate|].
      destruct (forallb is_numeric (keys (Job.builds j))); simpl in *; auto. }
    apply existsb_exists in He. destruct He as (job & Hj & Hjob).
    apply in_map_iff in Hj. destruct Hj as ([name job'] & E & Hin).
    simpl in E. subst job'.
    assert (Hk : existsb (fun k => negb (is_numeric k))
                   (keys (Job.builds job)) = true).
    { clear - Hjob. induction (keys (Job.builds job)) as [|k t IH];
        simpl in *; [discriminate|].
      destruct (is_numeric k); simpl in *; auto. }
    apply existsb_exists in Hk. destruct Hk as (k & Hk & Hbadk).
    exists name, job, k. repeat split; try assumption.
    unfold is_numeric in Hbadk. now destruct (int_literal k). }
  destruct (@get_last_build_loop_raises builds_jobs builds_jobs
              (fun name job H => @get_in _ name job builds_jobs Hwf H) Hbad [])
    as (k & E & Hk).
  exists k. unfold get_last_build, items. rewrite E.
  repeat split; [exact Hk|discriminate].
Qed.

(** ** The filter pipeline *)

Lemma filter_filter (A : Type) (f g : A -> bool) (l : list A) :
  filter g (filter f l) = filter (fun x => f x && g x) l.
Proof.
  induction l as [|a t IH]; simpl; [reflexivity|].
  destruct (f a); simpl; [destruct (g a)|]; now rewrite IH.
Qed.

Lemma apply_filters_filter (stages : list (ElkJob -> bool))
  (records : list ElkJob) :
  apply_filters records stages = filter (passes stages) records.
Proof.
  unfold apply_filters, passes. revert records.
  induction stages as [|stage rest IH]; intros records; simpl.
  - induction records as [|r t IHt]; simpl; [reflexivity|now rewrite <- IHt].
  - rewrite IH. apply filter_filter.
Qed.

Lemma passes_iff (stages : list (ElkJob -> bool)) (record : ElkJob) :
  passes stages record = true
  <-> forall stage, In stage stages -> stage record = true.
Proof. unfold passes. apply forallb_forall. Qed.

Lemma apply_filters_in (stages : list (ElkJob -> bool))
  (records : list ElkJob) (record : ElkJob) :
  In record (apply_filters records stages)
  <-> In record records
      /\ forall stage, In stage stages -> stage record = true.
Proof.
  rewrite apply_filters_filter, filter_In, passes_iff. reflexivity.
Qed.

(** C7.  The chain of filters is a conjunction: the output of
    [apply_filters] is the input restricted, in order, to the records for
    which every stage returns true, and an empty chain keeps every record.
    [filter_jobs] and [filter_builds] return exactly that for the stages
    that are active ([filter_builds] after writing [build_num] as text). *)
Theorem filter_chain_conjunctive :
  forall (records : list ElkJob) (stages : list (ElkJob -> bool)),
    apply_filters records stages = filter (passes stages) records
    /\ (forall record,
           In record (apply_filters records stages)
           <-> In record records
               /\ forall stage, In stage stages -> stage record = true)
    /\ apply_filters records [] = records
    /\ (forall re_valid re_search kwargs,
           filter_jobs re_valid re_search records kwargs
           = (active <- job_filters re_valid re_search kwargs ;;
              Ok (filter (passes active) records)))
    /\ (forall re_valid re_search kwargs,
           job_filters re_valid re_search kwargs = Ok [] ->
           filter_jobs re_valid re_search records kwargs = Ok records)
    /\ filter_builds records stages
       = (normalised <- map_result stringify_build_num records ;;
          Ok (filter (passes stages) normalised))
    /\ filter_builds records []
       = map_result stringify_build_num records.
Proof.
  intros records stages.
  assert (Hnil : forall l : list ElkJob, filter (passes []) l = l).
  { induction l as [|r t IH]; simpl; [reflexivity|now rewrite IH]. }
  split; [apply apply_filters_filter|].
  split; [intros record; apply apply_filters_in|].
  split; [reflexivity|].
  split.
  { intros re_valid re_search kwargs. unfold filter_jobs.
    destruct (job_filters re_valid re_search kwargs) as [active|e]; simpl;
      [now rewrite apply_filters_filter|reflexivity]. }
  split.
  { intros re_valid re_search kwargs E. unfold filter_jobs. rewrite E.
    reflexivity. }
  split.
  { unfold filter_builds.
    destruct (map_result stringify_build_num records) as [normalised|e];
      simpl; [now rewrite apply_filters_filter|reflexivity]. }
  unfold filter_builds.
  destruct (map_result stringify_build_num records); reflexivity.
Qed.

(** ** Letter case *)

Lemma lower_char_upper (c : ascii) :
  is_upper c = true -> lower_char c = ascii_of_nat (nat_of_ascii c + 32).
Proof. unfold is_upper, lower_char. now intros ->. Qed.

Lemma lower_char_other (c : ascii) : is_upper c = false -> lower_char c = c.
Proof. unfold is_upper, lower_char. now intros ->. Qed.

Lemma is_upper_bound (c : ascii) :
  is_upper c = true -> (65 <= nat_of_ascii c <= 90)%nat.
Proof.
  unfold is_upper. intros H. apply andb_true_iff in H. destruct H as [H1 H2].
  apply Nat.leb_le in H1, H2. lia.
Qed.

Lemma lower_char_not_upper (c : ascii) : is_upper (lower_char c) = false.
Proof.
  destruct (is_upper c) eqn:E.
  - rewrite (lower_char_upper _ E). apply is_upper_bound in E.
    unfold is_upper. rewrite nat_ascii_embedding by lia.
    apply andb_false_iff. right. apply Nat.leb_gt. lia.
  - now rewrite (lower_char_other _ E).
Qed.

Lemma lower_char_idempotent (c : ascii) :
  lower_char (lower_char c) = lower_char c.
Proof. apply lower_char_other, lower_char_not_upper. Qed.

Lemma lower_char_same_letter (a b : ascii) :
  lower_char a = lower_char b <-> same_letter a b.
Proof.
  unfold same_letter. split.
  - intros H. destruct (is_upper a) eqn:Ea; destruct (is_upper b) eqn:Eb.
    + left. rewrite (lower_char_upper _ Ea), (lower_char_upper _ Eb) in H.
      apply is_upper_bound in Ea, Eb.
      apply (f_equal nat_of_ascii) in H.
      rewrite !nat_ascii_embedding in H by lia.
      rewrite <- (ascii_nat_embedding a), <- (ascii_nat_embedding b).
      f_equal. lia.
    + right. left. split; [reflexivity|].
      now rewrite (lower_char_other _ Eb) in H.
    + right. right. split; [reflexivity|].
      now rewrite (lower_char_other _ Ea) in H.
    + left. now rewrite (lower_char_other _ Ea), (lower_char_other _ Eb) in H.
  - intros [->|[[_ ->]|[_ ->]]]; [reflexivity| |];
      now rewrite lower_char_idempotent.
Qed.

Lemma lower_equal_ignoring_case (s t : string) :
  lower s = lower t <-> equal_ignoring_case s t.
Proof.
  unfold lower. split.
  - revert t. induction s as [|a s IH]; intros [|b t]; simpl;
      try discriminate; [constructor|].
    intros [= Hc Hs]. constructor; [now apply lower_char_same_letter|auto].
  - induction 1 as [|a b s t Hc _ IH]; simpl; [reflexivity|].
    apply lower_char_same_letter in Hc. now rewrite Hc, IH.
Qed.

(** The build-status stage on a record whose [build_result] is [result]. *)
Lemma case_insensitive_match_iff (arg : Argument.t) (build : ElkJob)
  (result : string) :
  field_text build "build_result" = Some result ->
  (satisfy_case_insensitive_match arg "build_result" build = true
   <-> exists status,
         In status (strs_of (Argument.value arg))
         /\ equal_ignoring_case result status).
Proof.
  intros Hr. unfold satisfy_case_insensitive_match. rewrite Hr.
  rewrite str_in_iff, in_map_iff. split.
  - intros (status & E & Hin). exists status. split; [exact Hin|].
    now apply lower_equal_ignoring_case.
  - intros (status & Hin & E). exists status. split; [|exact Hin].
    symmetry. now apply lower_equal_ignoring_case.
Qed.

(** The build-status stage on any record: a record without a result does
    not pass. *)
Lemma case_insensitive_match_among (arg : Argument.t) (build : ElkJob) :
  satisfy_case_insensitive_match arg "build_result" build = true
  <-> status_among arg build.
Proof.
  unfold status_among.
  destruct (field_text build "build_result") as [result|] eqn:Er.
  - rewrite (case_insensitive_match_iff arg build Er). split.
    + intros (status & H1 & H2). now exists result, status.
    + intros (result' & status & [= <-] & H1 & H2). now exists status.
  - unfold satisfy_case_insensitive_match. rewrite Er. split.
    + discriminate.
    + intros (result & status & [=] & _).
Qed.

(** The build-number stage on any record. *)
Lemma exact_match_among (arg : Argument.t) (build : ElkJob) :
  satisfy_exact_match arg "build_num" build = true
  <-> exists number,
        field_text build "build_num" = Some number
        /\ In number (strs_of (Argument.value arg)).
Proof.
  unfold satisfy_exact_match.
  destruct (field_text build "build_num") as [number|].
  - rewrite str_in_iff. split.
    + intros H. now exists number.
    + now intros (number' & [= <-] & H).
  - split; [discriminate|]. intros (number & [=] & _).
Qed.

Lemma stage_of_argument_passes (kwargs : Kwargs) (name : string)
  (stage : Argument.t -> ElkJob -> bool) (record : ElkJob) :
  passes (stage_of_argument kwargs name stage) record = true
  <-> forall arg,
        get name (kw_args kwargs) = Some arg ->
        argval_truthy (Argument.value arg) = true ->
        stage arg record = true.
Proof.
  unfold stage_of_argument, passes.
  destruct (get name (kw_args kwargs)) as [arg|].
  - destruct (argval_truthy (Argument.value arg)) eqn:E; cbn [forallb].
    + rewrite andb_true_r. split.
      * now intros H a [= <-] _.
      * intros H. now apply (H arg).
    + split; [|reflexivity]. intros _ a [= <-]. congruence.
  - split; [|reflexivity]. intros _ a [=].
Qed.

Lemma get_build_filters_stages (kwargs : Kwargs) :
  get_build_filters kwargs
  = stage_of_argument kwargs "builds"
      (fun arg => satisfy_exact_match arg "build_num")
    ++ stage_of_argument kwargs "build_status"
         (fun arg => satisfy_case_insensitive_match arg "build_result").
Proof.
  unfold get_build_filters, stage_of_argument.
  destruct (get "builds" (kw_args kwargs)) as [barg|];
    [destruct (argval_truthy (Argument.value barg))|];
    (destruct (get "build_status" (kw_args kwargs)) as [sarg|];
     [destruct (argval_truthy (Argument.value sarg))|]);
    cbn [app]; now rewrite ?app_nil_r.
Qed.

(** What the checks of [get_build_filters] ask of a record, together. *)
Lemma get_build_filters_passes (kwargs : Kwargs) (record : ElkJob) :
  passes (get_build_filters kwargs) record = true
  <-> build_requested kwargs record
      /\ (forall arg,
             get "build_status" (kw_args kwargs) = Some arg ->
             argval_truthy (Argument.value arg) = true ->
             status_among arg record).
Proof.
  rewrite get_build_filters_stages. unfold passes at 1.
  rewrite forallb_app, andb_true_iff.
  fold (passes (stage_of_argument kwargs "builds"
                  (fun arg => satisfy_exact_match arg "build_num")) record).
  fold (passes (stage_of_argument kwargs "build_status"
                  (fun arg =>
                     satisfy_case_insensitive_match arg "build_result"))
          record).
  rewrite !stage_of_argument_passes. unfold build_requested.
  split; intros [H1 H2]; split; intros arg Ha Ht.
  - now apply exact_match_among, H1.
  - now apply case_insensitive_match_among, H2.
  - now apply exact_match_among, H1.
  - now apply case_insensitive_match_among, H2.
Qed.

(** ** [get_tests] and [MissingArgument] *)

Lemma nma_ok (A : Type) (a : A) : no_missing_argument (Ok a).
Proof. discriminate. Qed.

Lemma nma_bind (A B : Type) (m : outcome A) (k : A -> outcome B) :
  no_missing_argument m -> (forall a, no_missing_argument (k a)) ->
  no_missing_argument (bind m k).
Proof.
  intros Hm Hk. destruct m as [a|e]; simpl; [apply Hk|].
  intros [= ->]. now apply Hm.
Qed.

Lemma nma_for_each (A S : Type) (body : S -> A -> outcome S) (l : list A) :
  (forall s x, no_missing_argument (body s x)) ->
  forall s, no_missing_argument (for_each body l s).
Proof.
  intros H. induction l as [|x t IH]; intros s; simpl; [apply nma_ok|].
  apply nma_bind; auto.
Qed.

Lemma nma_map_result (A B : Type) (f : A -> outcome B) (l : list A) :
  (forall x, no_missing_argument (f x)) ->
  no_missing_argument (map_result f l).
Proof.
  intros H. induction l as [|x t IH]; simpl; [apply nma_ok|].
  apply nma_bind; [apply H|]. intros y.
  apply nma_bind; [exact IH|]. intros ys. apply nma_ok.
Qed.

Ltac nma_step :=
  match goal with
  | |- no_missing_argument (Ok _) => apply nma_ok
  | |- no_missing_argument (Raise _) => discriminate
  | |- no_missing_argument (bind _ _) => apply nma_bind; [|intros]
  | |- no_missing_argument (for_each _ _ _) => apply nma_for_each; intros
  | |- no_missing_argument (map_result _ _) => apply nma_map_result; intros
  | |- no_missing_argument (match ?x with _ => _ end) => destruct x
  | |- no_missing_argument _ => solve [auto]
  end.

Ltac nma := repeat nma_step.

Section MissingArgumentFacts.

Variable re_valid : string -> bool.
Variable re_search : string -> string -> bool.
Variable parse_test_suite : scalar -> option (list TestCase).
Variable float_of_str : string -> option float.

Lemma nma_getitem (V : Type) (k : string) (d : dict V) :
  no_missing_argument (getitem k d).
Proof. unfold getitem. nma. Qed.

Lemma nma_int_of_str (s : string) : no_missing_argument (int_of_str s).
Proof. unfold int_of_str. nma. Qed.

Lemma nma_source_of_hit (hit : dict pyval) :
  no_missing_argument (source_of_hit hit).
Proof. unfold source_of_hit. pose proof nma_getitem. nma. Qed.

Lemma nma_filter_jobs (records : list ElkJob) (kwargs : Kwargs) :
  no_missing_argument (filter_jobs re_valid re_search records kwargs).
Proof.
  unfold filter_jobs, job_filters, join_patterns, re_compile. nma.
Qed.

Lemma nma_filter_builds (records : list ElkJob)
  (stages : list (ElkJob -> bool)) :
  no_missing_argument (filter_builds records stages).
Proof.
  unfold filter_builds, stringify_build_num. pose proof nma_getitem. nma.
Qed.

Lemma nma_add_build_of_hit (jobs_found : dict Job.t) (build : ElkJob) :
  no_missing_argument (add_build_of_hit jobs_found build).
Proof.
  unfold add_build_of_hit, key_field, text_field, duration_of.
  pose proof nma_getitem. pose proof nma_int_of_str. nma.
Qed.

Lemma nma_test_filters_of (kwargs : Kwargs) :
  no_missing_argument (test_filters_of re_valid kwargs).
Proof. unfold test_filters_of, join_patterns, re_compile. nma. Qed.

Lemma nma_match_filter (d : option float) (l : list Range) :
  no_missing_argument (match_filter_test_by_duration float_of_str d l).
Proof. induction l as [|r t IH]; simpl; nma. Qed.

Lemma nma_select_test (filters : TestFilters) (test : TestCase) :
  no_missing_argument (select_test re_search float_of_str filters test).
Proof. unfold select_test. pose proof nma_match_filter. nma. Qed.

Lemma nma_add_tests_of_hit (filters : TestFilters) (jobs_found : dict Job.t)
  (build : ElkJob) :
  no_missing_argument
    (add_tests_of_hit re_search parse_test_suite float_of_str filters
       jobs_found build).
Proof.
  unfold add_tests_of_hit, add_tests_of_suite, add_selected_test,
    add_test_at, parse_tests.
  pose proof nma_getitem. pose proof nma_add_build_of_hit.
  pose proof nma_select_test. nma.
Qed.

Lemma nma_get_last_build (builds_jobs : dict Job.t) :
  no_missing_argument (get_last_build builds_jobs).
Proof.
  unfold get_last_build, last_build_of_job, last_build_number.
  pose proof nma_getitem. pose proof nma_int_of_str. nma.
Qed.

Lemma get_tests_without_builds response kwargs :
  mem "builds" (kw_args kwargs) = false ->
  mem "last_build" (kw_args kwargs) = false ->
  get_tests re_valid re_search parse_test_suite float_of_str response kwargs
  = Raise MissingArgument.
Proof.
  intros H1 H2. unfold get_tests, check_builds_for_test.
  now rewrite H1, H2.
Qed.

Lemma get_tests_with_builds response kwargs :
  mem "builds" (kw_args kwargs) = true
  \/ mem "last_build" (kw_args kwargs) = true ->
  no_missing_argument
    (get_tests re_valid re_search parse_test_suite float_of_str response
       kwargs).
Proof.
  intros H. unfold get_tests, check_builds_for_test, query_get_hits.
  assert (E : mem "builds" (kw_args kwargs)
              || mem "last_build" (kw_args kwargs) = true)
    by (apply orb_true_iff; exact H).
  rewrite E.
  pose proof nma_source_of_hit. pose proof nma_filter_jobs.
  pose proof nma_filter_builds. pose proof nma_test_filters_of.
  pose proof nma_add_tests_of_hit. pose proof nma_get_last_build.
  nma.
Qed.

End MissingArgumentFacts.

Section FaultFacts.

Variable get_source_method :
  string -> list Source.t -> string -> outcome source_method.

(** When the source method of a system raises, the systems that were
    populated before it keep what was merged into them, that system and
    the ones after it are left as they were, and the exception is what the
    loop ends with. *)
Lemma query_systems_fault ci arg func env_name before system after method e :
  Forall (fun s => fetched_system get_source_method ci func s <> None) before ->
  get_source_method (System.name system) (System.sources system) func
  = Ok method ->
  method (values_by_name ci) = Raise e ->
  exists calls,
    query_systems get_source_method ci arg func env_name
      (before ++ system :: after)
    = (map (fun s => match fetched_system get_source_method ci func s with
                     | Some s' => s'
                     | None => s
                     end) before
         ++ system :: after,
       calls, Some e)
    /\ map fetch_system calls
       = map System.name before ++ [System.name system].
Proof.
  intros Hb Hm He. induction Hb as [|s before Hs _ IH]; simpl.
  - rewrite Hm, He. eexists. split; reflexivity.
  - unfold fetched_system in Hs |- *.
    destruct (get_source_method (System.name s) (System.sources s) func)
      as [m|e']; [|congruence].
    destruct (m (values_by_name ci)) as [instances|e']; [|congruence].
    destruct IH as (calls & -> & Hc).
    eexists. split; [reflexivity|]. simpl. now rewrite Hc.
Qed.

Lemma query_systems_all ci arg func env_name systems :
  forallb (fun s => match fetched_system get_source_method ci func s with
                    | Some _ => true
                    | None => false
                    end) systems = true ->
  query_systems get_source_method ci arg func env_name systems
  = (map (fun s => match fetched_system get_source_method ci func s with
                   | Some s' => s'
                   | None => s
                   end) systems,
     map (fun s => {| fetch_arg := arg; fetch_env := env_name;
                      fetch_system := System.name s;
                      fetch_method := func |}) systems,
     None).
Proof.
  induction systems as [|s rest IH]; intros H; [reflexivity|].
  cbn [forallb] in H. apply andb_true_iff in H. destruct H as [Hs Hrest].
  cbn [query_systems map]. unfold fetched_system in Hs |- *.
  destruct (get_source_method (System.name s) (System.sources s) func)
    as [m|e]; [|discriminate].
  destruct (m (values_by_name ci)) as [instances|e]; [|discriminate].
  now rewrite (IH Hrest).
Qed.

Lemma query_environments_all ci arg func envs :
  all_answer get_source_method ci func envs = true ->
  query_environments get_source_method ci arg func envs
  = (map (fetched_environment get_source_method ci func) envs,
     calls_for arg func envs, None).
Proof.
  unfold all_answer.
  induction envs as [|env rest IH]; intros H; [reflexivity|].
  cbn [forallb] in H. apply andb_true_iff in H. destruct H as [Henv Hrest].
  cbn [query_environments map calls_for flat_map].
  rewrite (query_systems_all ci arg func (Environment.name env) _ Henv).
  now rewrite (IH Hrest).
Qed.

(** When no source of a system has the method, the systems before it
    have been fetched, no call is made for that system, and the loop
    ends there. *)
Lemma query_systems_no_source ci arg func env_name before system after e :
  Forall (fun s => fetched_system get_source_method ci func s <> None) before ->
  get_source_method (System.name system) (System.sources system) func
  = Raise e ->
  exists calls,
    query_systems get_source_method ci arg func env_name
      (before ++ system :: after)
    = (map (fun s => match fetched_system get_source_method ci func s with
                     | Some s' => s'
                     | None => s
                     end) before
         ++ system :: after,
       calls, Some e)
    /\ map fetch_system calls = map System.name before.
Proof.
  intros Hb Hm. induction Hb as [|s before Hs _ IH]; simpl.
  - rewrite Hm. eexists. split; reflexivity.
  - unfold fetched_system in Hs |- *.
    destruct (get_source_method (System.name s) (System.sources s) func)
      as [m|e']; [|congruence].
    destruct (m (values_by_name ci)) as [instances|e']; [|congruence].
    destruct IH as (calls & -> & Hc).
    eexists. split; [reflexivity|]. simpl. now rewrite Hc.
Qed.

(** An exception in one environment ends the loop over the environments:
    those before it have been fetched, those after it are as they
    were. *)
Lemma query_environments_fault ci arg func envs_before env envs_after
  systems' calls e :
  all_answer get_source_method ci func envs_before = true ->
  query_systems get_source_method ci arg func (Environment.name env)
    (Environment.systems env)
  = (systems', calls, Some e) ->
  query_environments get_source_method ci arg func
    (envs_before ++ env :: envs_after)
  = (map (fetched_environment get_source_method ci func) envs_before
       ++ {| Environment.name := Environment.name env;
             Environment.systems := systems' |} :: envs_after,
     calls_for arg func envs_before ++ calls, Some e).
Proof.
  intros Hb He. unfold all_answer in Hb.
  induction envs_before as [|env0 rest IH].
  - cbn [app map calls_for flat_map query_environments]. now rewrite He.
  - cbn [forallb] in Hb. apply andb_true_iff in Hb. destruct Hb as [H0 Hrest].
    cbn [app map calls_for flat_map query_environments].
    rewrite (query_systems_all ci arg func (Environment.name env0) _ H0).
    rewrite (IH Hrest). unfold fetched_environment at 2.
    now rewrite app_assoc.
Qed.

(** An exception while a criterion is fetched ends [run_query]: the
    criteria after it are not looked at. *)
Lemma run_args_fault start_level ci arg rest func st envs' calls e :
  start_level <= Argument.level arg ->
  last_level st <= Argument.level arg ->
  Argument.func arg = Some func ->
  Argument.has_func arg = true ->
  query_environments get_source_method ci arg func (environments st)
  = (envs', calls, Some e) ->
  run_args get_source_method start_level ci (arg :: rest) st
  = ({| environments := envs';
        last_level := last_level st;
        fetched := fetched st ++ calls |}, Some e).
Proof.
  intros H1 H2 Hf Hfb E. cbn [run_args]. unfold run_arg.
  assert (G1 : (Argument.level arg >=? start_level) = true)
    by (apply Z.geb_le; lia).
  assert (G2 : (Argument.level arg >=? last_level st) = true)
    by (apply Z.geb_le; lia).
  now rewrite G1, G2, Hf, Hfb, E.
Qed.

End FaultFacts.

(** C8, as amended.  Without [builds] and without [last_build] among its
    arguments [get_tests] raises [MissingArgument], before it asks the
    server and whatever the server would answer; with one of them supplied
    it never ends in [MissingArgument].  [run_query] does not catch the
    exception: when the method of a system raises it, in whichever
    environment, the run ends with it; the systems and environments
    fetched before keep what was merged into them, the system itself and
    all the systems and environments after it are as they were and are
    not asked, and the criteria that follow are not looked at. *)
Theorem get_tests_missing_argument :
  forall (re_valid : string -> bool) (re_search : string -> string -> bool)
         (parse_test_suite : scalar -> option (list TestCase))
         (float_of_str : string -> option float)
         (response : option (list (dict pyval))) (kwargs : Kwargs),
    (mem "builds" (kw_args kwargs) = false ->
     mem "last_build" (kw_args kwargs) = false ->
     get_tests re_valid re_search parse_test_suite float_of_str response kwargs
     = Raise MissingArgument)
    /\ (mem "builds" (kw_args kwargs) = true
        \/ mem "last_build" (kw_args kwargs) = true ->
        get_tests re_valid re_search parse_test_suite float_of_str response
          kwargs
        <> Raise MissingArgument)
    /\ (forall get_source_method start_level ci arg rest func st
               envs_before env envs_after before system after method,
           start_level <= Argument.level arg ->
           last_level st <= Argument.level arg ->
           Argument.func arg = Some func ->
           Argument.has_func arg = true ->
           environments st = envs_before ++ env :: envs_after ->
           all_answer get_source_method ci func envs_before = true ->
           Environment.systems env = before ++ system :: after ->
           Forall (fun s => fetched_system get_source_method ci func s <> None)
             before ->
           get_source_method (System.name system) (System.sources system) func
           = Ok method ->
           method (values_by_name ci) = Raise MissingArgument ->
           exists calls,
             run_args get_source_method start_level ci (arg :: rest) st
             = ({| environments :=
                     map (fetched_environment get_source_method ci func)
                       envs_before
                     ++ {| Environment.name := Environment.name env;
                           Environment.systems :=
                             map (fun s =>
                                    match fetched_system get_source_method
                                            ci func s
                                    with
                                    | Some s' => s'
                                    | None => s
                                    end) before
                             ++ system :: after |} :: envs_after;
                   last_level := last_level st;
                   fetched :=
                     fetched st ++ calls_for arg func envs_before ++ calls |},
                Some MissingArgument)
             /\ map fetch_system calls
                = map System.name before ++ [System.name system]).
Proof.
  intros re_valid re_search parse_test_suite float_of_str response kwargs.
  split; [apply get_tests_without_builds|].
  split; [apply get_tests_with_builds|].
  intros gsm start_level ci arg rest func st envs_before env envs_after
    before system after method H1 H2 Hf Hfb Henv Hall Hsys Hb Hm He.
  destruct (@query_systems_fault gsm ci arg func (Environment.name env)
              before system after method MissingArgument Hb Hm He)
    as (calls & E & Hc).
  exists calls. split; [|exact Hc].
  rewrite <- Hsys in E.
  apply (@run_args_fault gsm start_level ci arg rest func st);
    try assumption.
  rewrite Henv.
  now apply (@query_environments_fault gsm ci arg func envs_before env
               envs_after).
Qed.

(** ** Merging *)

Section MergeFacts.

Variable V : Type.
Variable merge : V -> V -> V.
Variable key : V -> string.

Lemma get_add_entry_same (k : string) (v : V) (d : dict V) :
  get k (add_entry merge k v d)
  = Some (match get k d with Some old => merge old v | None => v end).
Proof.
  induction d as [|[k' v'] t IH]; simpl.
  - now rewrite String.eqb_refl.
  - destruct (String.eqb k k') eqn:E; simpl; rewrite E; [reflexivity|exact IH].
Qed.

Lemma get_add_entry_other (k k' : string) (v : V) (d : dict V) :
  k <> k' -> get k' (add_entry merge k v d) = get k' d.
Proof.
  intros Hne. induction d as [|[k0 v0] t IH]; simpl.
  - apply String.eqb_neq in Hne. rewrite String.eqb_sym in Hne.
    now rewrite Hne.
  - destruct (String.eqb k k0) eqn:E; simpl.
    + apply String.eqb_eq in E. subst k0.
      destruct (String.eqb k' k) eqn:E'; [|reflexivity].
      apply String.eqb_eq in E'. congruence.
    + now rewrite IH.
Qed.

(** Adding a value that the entry under its key already holds changes
    nothing. *)
Lemma add_entry_absorbed (k : string) (v e : V) (d : dict V) :
  get k d = Some e -> merge e v = e -> add_entry merge k v d = d.
Proof.
  intros Hg Hm. induction d as [|[k' v'] t IH]; simpl in *; [discriminate|].
  destruct (String.eqb k k') eqn:E.
  - injection Hg as ->. now rewrite Hm.
  - now rewrite IH.
Qed.

Lemma add_entry_idempotent (k : string) (v : V) (d : dict V) :
  (forall a, merge (merge a v) v = merge a v) -> merge v v = v ->
  add_entry merge k v (add_entry merge k v d) = add_entry merge k v d.
Proof.
  intros H1 H2. eapply add_entry_absorbed; [apply get_add_entry_same|].
  destruct (get k d); auto.
Qed.

Lemma get_add_all_other (k : string) (news : list V) (d : dict V) :
  ~ In k (map key news) -> get k (add_all merge key news d) = get k d.
Proof.
  unfold add_all. revert d. induction news as [|x t IH]; intros d Hn; simpl;
    [reflexivity|].
  simpl in Hn. rewrite IH by tauto. apply get_add_entry_other. tauto.
Qed.

Lemma add_all_absorbed (news : list V) (d : dict V) :
  (forall v, In v news ->
             exists e, get (key v) d = Some e /\ merge e v = e) ->
  add_all merge key news d = d.
Proof.
  unfold add_all. induction news as [|x t IH]; intros H; simpl; [reflexivity|].
  destruct (H x) as (e & Hg & Hm); [now left|].
  rewrite (@add_entry_absorbed (key x) x e d Hg Hm). apply IH.
  intros v Hv. apply H. now right.
Qed.

Lemma get_add_all_member (news : list V) (v : V) :
  NoDup (map key news) -> In v news ->
  forall d,
  exists e, get (key v) (add_all merge key news d) = Some e
            /\ (e = v \/ exists a, e = merge a v).
Proof.
  unfold add_all. induction news as [|x t IH]; intros Hnd Hin d;
    [destruct Hin|].
  inversion Hnd as [|? ? Hnotin Hnd']; subst. simpl.
  destruct Hin as [->|Hin].
  - fold (add_all merge key t (add_entry merge (key v) v d)).
    rewrite get_add_all_other by exact Hnotin.
    rewrite get_add_entry_same. eexists. split; [reflexivity|].
    destruct (get (key v) d) as [old|]; [right; now exists old|now left].
  - now apply IH.
Qed.

Lemma add_all_idempotent (news : list V) (d : dict V) :
  NoDup (map key news) ->
  (forall a v, In v news -> merge (merge a v) v = merge a v) ->
  (forall v, In v news -> merge v v = v) ->
  add_all merge key news (add_all merge key news d)
  = add_all merge key news d.
Proof.
  intros Hnd H1 H2. apply add_all_absorbed. intros v Hv.
  destruct (@get_add_all_member news v Hnd Hv d) as (e & Hg & [->|[a ->]]).
  - exists v. split; [exact Hg|]. now apply H2.
  - exists (merge a v). split; [exact Hg|]. now apply H1.
Qed.

(** Merging a dictionary whose entries stand under their own keys into
    itself changes nothing. *)
Lemma add_all_self (d : dict V) :
  NoDup (keys d) ->
  (forall k v, In (k, v) d -> key v = k) ->
  (forall v, In v (values d) -> merge v v = v) ->
  add_all merge key (values d) d = d.
Proof.
  intros Hnd Hk Hm. apply add_all_absorbed. intros v Hv.
  unfold values in Hv. apply in_map_iff in Hv.
  destruct Hv as ([k v'] & E & Hin). simpl in E. subst v'.
  exists v. rewrite (Hk k v Hin). split; [now apply get_in|].
  apply Hm. unfold values. apply in_map_iff. now exists (k, v).
Qed.

End MergeFacts.

Lemma merge_field_twice (A : Type) (a b : option A) :
  merge_field (merge_field a b) b = merge_field a b.
Proof. now destruct b. Qed.

Lemma merge_field_self (A : Type) (a : option A) : merge_field a a = a.
Proof. now destruct a. Qed.

Lemma merge_field_absent (A : Type) (a : option A) : merge_field a None = a.
Proof. reflexivity. Qed.

(** *** Well-formed dictionaries *)

Lemma keyed_by_spec (V : Type) (key : V -> string) (d : dict V) :
  keyed_by key d = true ->
  NoDup (keys d)
  /\ (forall k v, In (k, v) d -> key v = k)
  /\ NoDup (map key (values d)).
Proof.
  unfold keyed_by. intros H. apply andb_true_iff in H. destruct H as [H1 H2].
  apply distinct_NoDup in H2. rewrite forallb_forall in H1.
  assert (Hk : forall k v, In (k, v) d -> key v = k).
  { intros k v Hin. specialize (H1 (k, v) Hin). now apply String.eqb_eq in H1. }
  split; [exact H2|]. split; [exact Hk|].
  replace (map key (values d)) with (keys d); [exact H2|].
  unfold keys, values. rewrite map_map. apply map_ext_in.
  intros [k v] Hin. simpl. symmetry. now apply Hk.
Qed.

Lemma test_merge_twice (a t : Test.t) :
  Test.merge (Test.merge a t) t = Test.merge a t.
Proof. unfold Test.merge. simpl. now rewrite !merge_field_twice. Qed.

Lemma test_merge_self (t : Test.t) : Test.merge t t = t.
Proof. destruct t. unfold Test.merge. simpl. now rewrite !merge_field_self. Qed.

Lemma build_merge_twice (a b : Build.t) :
  well_formed_build b = true ->
  Build.merge (Build.merge a b) b = Build.merge a b.
Proof.
  intros Hwf. apply keyed_by_spec in Hwf. destruct Hwf as (_ & _ & Hnd).
  unfold Build.merge. simpl. rewrite !merge_field_twice. f_equal.
  apply add_all_idempotent; [exact Hnd| |].
  - intros; apply test_merge_twice.
  - intros; apply test_merge_self.
Qed.

Lemma build_merge_self (b : Build.t) :
  well_formed_build b = true -> Build.merge b b = b.
Proof.
  intros Hwf. apply keyed_by_spec in Hwf. destruct Hwf as (Hnd & Hk & _).
  destruct b as [id st dur ts]. unfold Build.merge. simpl in *.
  rewrite !merge_field_self. f_equal.
  apply add_all_self; [exact Hnd|exact Hk|]. intros; apply test_merge_self.
Qed.

Lemma well_formed_job_spec (j : Job.t) :
  well_formed_job j = true ->
  keyed_by Build.build_id (Job.builds j) = true
  /\ forall b, In b (values (Job.builds j)) -> well_formed_build b = true.
Proof.
  unfold well_formed_job. intros H. apply andb_true_iff in H.
  destruct H as [H1 H2]. split; [exact H1|]. now apply forallb_forall.
Qed.

Lemma job_merge_twice (a j : Job.t) :
  well_formed_job j = true -> Job.merge (Job.merge a j) j = Job.merge a j.
Proof.
  intros Hwf. apply well_formed_job_spec in Hwf. destruct Hwf as [Hk Hb].
  apply keyed_by_spec in Hk. destruct Hk as (_ & _ & Hnd).
  unfold Job.merge. simpl. rewrite merge_field_twice. f_equal.
  apply add_all_idempotent; [exact Hnd| |].
  - intros x b Hin. apply build_merge_twice. now apply Hb.
  - intros b Hin. apply build_merge_self. now apply Hb.
Qed.

Lemma job_merge_self (j : Job.t) :
  well_formed_job j = true -> Job.merge j j = j.
Proof.
  intros Hwf. apply well_formed_job_spec in Hwf. destruct Hwf as [Hk Hb].
  apply keyed_by_spec in Hk. destruct Hk as (Hnd & Hkey & _).
  destruct j as [n u bs]. unfold Job.merge. simpl in *.
  rewrite merge_field_self. f_equal.
  apply add_all_self; [exact Hnd|exact Hkey|].
  intros b Hin. apply build_merge_self. now apply Hb.
Qed.

Lemma add_job_twice (job : Job.t) (system : System.t) :
  well_formed_job job = true ->
  System.add_job job (System.add_job job system) = System.add_job job system.
Proof.
  intros Hwf. unfold System.add_job. simpl. f_equal.
  apply add_entry_idempotent.
  - intros a. now apply job_merge_twice.
  - now apply job_merge_self.
Qed.

(** *** What is populated stays populated *)

Lemma stays_set_refl (A : Type) (a : option A) : stays_set a a.
Proof. unfold stays_set. auto. Qed.

Lemma stays_set_trans (A : Type) (a b c : option A) :
  stays_set a b -> stays_set b c -> stays_set a c.
Proof. unfold stays_set. auto. Qed.

Lemma stays_set_merge (A : Type) (a b : option A) :
  stays_set a (merge_field a b).
Proof. unfold stays_set. destruct b; simpl; [discriminate|auto]. Qed.

Section OrderFacts.

Variable V : Type.
Variable le : V -> V -> Prop.
Hypothesis le_refl : forall v, le v v.
Hypothesis le_trans : forall a b c, le a b -> le b c -> le a c.

Lemma dict_le_refl (d : dict V) : dict_le le d d.
Proof. intros k v H. exists v. auto. Qed.

Lemma dict_le_trans (a b c : dict V) :
  dict_le le a b -> dict_le le b c -> dict_le le a c.
Proof.
  intros H1 H2 k v Hg. destruct (H1 k v Hg) as (v' & Hg' & Hl).
  destruct (H2 k v' Hg') as (v'' & Hg'' & Hl'). exists v''. eauto.
Qed.

Variable merge : V -> V -> V.
Variable key : V -> string.
Hypothesis le_merge : forall a b, le a (merge a b).

Lemma dict_le_add_entry (k : string) (v : V) (d : dict V) :
  dict_le le d (add_entry merge k v d).
Proof.
  intros k' v' Hg. destruct (String.eqb k k') eqn:E.
  - apply String.eqb_eq in E. subst k'. rewrite get_add_entry_same, Hg.
    eexists. split; [reflexivity|apply le_merge].
  - apply String.eqb_neq in E. rewrite get_add_entry_other by exact E.
    exists v'. auto.
Qed.

Lemma dict_le_add_all (news : list V) (d : dict V) :
  dict_le le d (add_all merge key news d).
Proof.
  unfold add_all. revert d. induction news as [|x t IH]; intros d; simpl.
  - apply dict_le_refl.
  - eapply dict_le_trans; [apply dict_le_add_entry|apply IH].
Qed.

End OrderFacts.

Lemma test_le_refl (t : Test.t) : test_le t t.
Proof. repeat split; apply stays_set_refl. Qed.

Lemma test_le_trans (a b c : Test.t) : test_le a b -> test_le b c -> test_le a c.
Proof.
  intros (A1 & A2 & A3) (B1 & B2 & B3).
  repeat split; eapply stays_set_trans; eauto.
Qed.

Lemma test_le_merge (a b : Test.t) : test_le a (Test.merge a b).
Proof. repeat split; apply stays_set_merge. Qed.

Lemma build_le_refl (b : Build.t) : build_le b b.
Proof.
  repeat split; try apply stays_set_refl.
  apply dict_le_refl, test_le_refl.
Qed.

Lemma build_le_trans (a b c : Build.t) :
  build_le a b -> build_le b c -> build_le a c.
Proof.
  intros (A1 & A2 & A3) (B1 & B2 & B3).
  repeat split; try (eapply stays_set_trans; eauto).
  eapply dict_le_trans; eauto using test_le_trans.
Qed.

Lemma build_le_merge (a b : Build.t) : build_le a (Build.merge a b).
Proof.
  split; [apply stays_set_merge|]. split; [apply stays_set_merge|].
  simpl. apply dict_le_add_all.
  - apply test_le_refl.
  - apply test_le_trans.
  - apply test_le_merge.
Qed.

Lemma job_le_refl (j : Job.t) : job_le j j.
Proof. split; [apply stays_set_refl|apply dict_le_refl, build_le_refl]. Qed.

Lemma job_le_trans (a b c : Job.t) : job_le a b -> job_le b c -> job_le a c.
Proof.
  intros (A1 & A2) (B1 & B2). split; [eapply stays_set_trans; eauto|].
  eapply dict_le_trans; eauto using build_le_trans.
Qed.

Lemma job_le_merge (a b : Job.t) : job_le a (Job.merge a b).
Proof.
  split; [apply stays_set_merge|]. simpl. apply dict_le_add_all.
  - apply build_le_refl.
  - apply build_le_trans.
  - apply build_le_merge.
Qed.

Lemma system_le_add_job (job : Job.t) (s : System.t) :
  system_le s (System.add_job job s).
Proof.
  unfold system_le, System.add_job. simpl.
  apply dict_le_add_entry; [apply job_le_refl|apply job_le_merge].
Qed.

Lemma system_le_merges (merged : list Job.t) (s : System.t) :
  system_le s (fold_left (fun acc job => System.add_job job acc) merged s).
Proof.
  revert s. induction merged as [|j t IH]; intros s; simpl.
  - apply dict_le_refl, job_le_refl.
  - eapply dict_le_trans; [apply job_le_trans|apply system_le_add_job|apply IH].
Qed.

Lemma system_le_trans (a b c : System.t) :
  system_le a b -> system_le b c -> system_le a c.
Proof. apply dict_le_trans, job_le_trans. Qed.

Lemma system_le_populate (instances : model_instances) (s : System.t) :
  system_le s (populate s instances).
Proof.
  unfold populate, items. revert s.
  induction instances as [|[attribute_key value] t IH]; intros s; simpl.
  - apply dict_le_refl, job_le_refl.
  - eapply system_le_trans; [|apply IH].
    destruct (System.population_method _) as [method|] eqn:E.
    + unfold System.population_method in E.
      destruct (String.eqb _ _); [|discriminate]. injection E as <-.
      apply system_le_merges.
    + apply dict_le_refl, job_le_refl.
Qed.

(** C9.  Merging a job into a system a second time changes nothing, be it
    through [add_job] or through [populate]; after any sequence of merges
    every job, build and test of the system is still there and every field
    that was set is still set; and a partial result in which a field is
    absent leaves the earlier value of that field. *)
Theorem merge_idempotent_and_monotone :
  forall (system : System.t) (job : Job.t),
    well_formed_job job = true ->
    System.add_job job (System.add_job job system) = System.add_job job system
    /\ populate (populate system [("jobs", [(Job.name job, job)])])
         [("jobs", [(Job.name job, job)])]
       = populate system [("jobs", [(Job.name job, job)])]
    /\ (forall merged : list Job.t,
           system_le system
             (fold_left (fun acc j => System.add_job j acc) merged system))
    /\ (forall results : list model_instances,
           system_le system (fold_left populate results system))
    /\ (forall old partial : Job.t,
           Job.url partial = None ->
           Job.url (Job.merge old partial) = Job.url old)
    /\ (forall old partial : Build.t,
           (Build.status partial = None ->
            Build.status (Build.merge old partial) = Build.status old)
           /\ (Build.duration partial = None ->
               Build.duration (Build.merge old partial) = Build.duration old))
    /\ (forall old partial : Test.t,
           (Test.result partial = None ->
            Test.result (Test.merge old partial) = Test.result old)
           /\ (Test.duration partial = None ->
               Test.duration (Test.merge old partial) = Test.duration old)
           /\ (Test.class_name partial = None ->
               Test.class_name (Test.merge old partial) = Test.class_name old))
    /\ (forall old : Job.t,
           get (Job.name job) (System.jobs system) = Some old ->
           Job.url job = None ->
           exists new,
             get (Job.name job) (System.jobs (System.add_job job system))
             = Some new
             /\ Job.url new = Job.url old).
Proof.
  intros system job Hwf.
  split; [now apply add_job_twice|].
  split.
  { unfold populate. simpl. now apply add_job_twice. }
  split; [intros merged; apply system_le_merges|].
  split.
  { intros results. revert system. clear.
    induction results as [|r t IH]; intros system; simpl.
    - apply dict_le_refl, job_le_refl.
    - eapply system_le_trans; [apply system_le_populate|apply IH]. }
  split; [intros old partial H; simpl; now rewrite H|].
  split.
  { intros old partial. split; intros H; simpl; now rewrite H. }
  split.
  { intros old partial. repeat split; intros H; simpl; now rewrite H. }
  intros old Hold Hurl. unfold System.add_job. simpl.
  rewrite get_add_entry_same, Hold. eexists. split; [reflexivity|].
  simpl. now rewrite Hurl.
Qed.

(** C10, as amended.  When the [build_status] argument holds at least one
    status, a build record passes the checks of [get_build_filters] if and
    only if it passes the check of the build number (when [builds] asks
    for any) and its [build_result] equals one of the requested statuses
    when letter case is ignored (['fAiL'] keeps ['FAIL']); a record that
    has no [build_result] does not pass.  When the argument holds no
    status, no check of the status is installed: a record passes exactly
    when it passes the check of the build number, whatever its result. *)
Theorem build_status_ignores_case :
  forall (kwargs : Kwargs) (arg : Argument.t),
    get "build_status" (kw_args kwargs) = Some arg ->
    (argval_truthy (Argument.value arg) = true ->
     forall build,
       passes (get_build_filters kwargs) build = true
       <-> build_requested kwargs build /\ status_among arg build)
    /\ (argval_truthy (Argument.value arg) = false ->
        forall build,
          passes (get_build_filters kwargs) build = true
          <-> build_requested kwargs build)
    /\ equal_ignoring_case "FAIL" "fAiL".
Proof.
  intros kwargs arg Hs. split; [|split].
  - intros Ht build. rewrite get_build_filters_passes.
    split; intros [H1 H2]; (split; [exact H1|]).
    + now apply (H2 arg).
    + intros a Ha _. rewrite Hs in Ha. now injection Ha as <-.
  - intros Hf build. rewrite get_build_filters_passes. split.
    + now intros [H1 _].
    + intros H1. split; [exact H1|].
      intros a Ha Ht. rewrite Hs in Ha. injection Ha as <-. congruence.
  - apply lower_equal_ignoring_case. reflexivity.
Qed.

(** ** [get_builds] with a status filter *)

Lemma source_of_well_formed_hit (hit : dict pyval) :
  well_formed_hit hit = true ->
  source_of_hit hit = Ok (record_of_hit hit)
  /\ well_formed_record (record_of_hit hit) = true.
Proof.
  unfold well_formed_hit, source_of_hit, record_of_hit, getitem.
  destruct (get "_source" hit) as [[v|d]|]; try discriminate.
  intros H. now split.
Qed.

Lemma normalised_get_other (r : ElkJob) (field : string) :
  field <> "build_num" -> get field (normalised r) = get field r.
Proof.
  intros Hne. unfold normalised.
  destruct (get "build_num" r); [|reflexivity].
  apply get_set_other. congruence.
Qed.

Lemma normalised_build_num (r : ElkJob) (n : scalar) :
  get "build_num" r = Some n ->
  get "build_num" (normalised r) = Some (SStr (str_of_scalar n)).
Proof. intros H. unfold normalised. rewrite H. apply get_set_same. Qed.

Lemma well_formed_normalised (r : ElkJob) :
  well_formed_record r = true ->
  stringify_build_num r = Ok (normalised r)
  /\ well_formed_record (normalised r) = true
  /\ record_build_id (normalised r) = record_build_id r
  /\ field_text (normalised r) "build_num" = Some (record_build_id r).
Proof.
  intros Hwf. unfold well_formed_record in *.
  unfold get_or_none, field_text, record_build_id in *.
  rewrite !(@normalised_get_other r "job_name") by discriminate.
  rewrite !(@normalised_get_other r "job_url") by discriminate.
  rewrite !(@normalised_get_other r "build_result") by discriminate.
  rewrite !(@normalised_get_other r "build_duration") by discriminate.
  destruct (get "build_num" r) as [n|] eqn:En.
  - rewrite (normalised_build_num r En).
    unfold stringify_build_num, getitem, normalised. rewrite En. simpl.
    repeat split.
    destruct (get "job_name" r) as [[| |]|]; try discriminate;
      destruct (get "job_url" r) as [[| |]|]; try discriminate; exact Hwf.
  - destruct (get "job_name" r) as [[| |]|]; try discriminate;
      destruct (get "job_url" r) as [[| |]|]; discriminate.
Qed.

Lemma get_update_same (V : Type) (k : string) (f : V -> V) (d : dict V) :
  get k (update k f d) = option_map f (get k d).
Proof.
  induction d as [|[k' v'] t IH]; simpl; [reflexivity|].
  destruct (String.eqb k k') eqn:E; simpl; rewrite E; [reflexivity|exact IH].
Qed.

Lemma get_update_other (V : Type) (k k' : string) (f : V -> V) (d : dict V) :
  k <> k' -> get k' (update k f d) = get k' d.
Proof.
  intros Hne. induction d as [|[k0 v0] t IH]; simpl; [reflexivity|].
  destruct (String.eqb k k0) eqn:E; simpl.
  - apply String.eqb_eq in E. subst k0.
    destruct (String.eqb k' k) eqn:E'; [|reflexivity].
    apply String.eqb_eq in E'. congruence.
  - now rewrite IH.
Qed.

Lemma keys_add_entry (V : Type) (merge : V -> V -> V) (k k' : string) (v : V)
  (d : dict V) :
  In k' (keys (add_entry merge k v d)) <-> In k' (keys d) \/ k' = k.
Proof.
  unfold keys. induction d as [|[k0 v0] t IH]; simpl.
  - intuition auto.
  - destruct (String.eqb k k0) eqn:E; simpl.
    + apply String.eqb_eq in E. subst k0. intuition auto.
    + rewrite IH. intuition auto.
Qed.

Lemma add_build_of_hit_ok (acc : dict Job.t) (r : ElkJob) :
  well_formed_record r = true ->
  exists n u build,
    field_text r "job_name" = Some n
    /\ Build.build_id build = record_build_id r
    /\ add_build_of_hit acc r
       = Ok (update n (Job.add_build build)
               (if mem n acc then acc else set n (Job.new n u) acc),
             n, record_build_id r).
Proof.
  unfold well_formed_record, add_build_of_hit, field_text, record_build_id,
    getitem, get_or_none.
  destruct (get "job_name" r) as [[|n|]|]; try discriminate.
  destruct (get "job_url" r) as [[|u|]|]; try discriminate;
    destruct (get "build_num" r) as [num|]; try discriminate;
    intros H; apply andb_true_iff in H; destruct H as [H1 H2];
    cbn [bind key_field text_field];
    destruct (get "build_result" r) as [[|res|]|]; try discriminate;
    cbn [bind text_field];
    destruct (get "build_duration" r) as [[|dur|]|];
    cbn [bind duration_of];
    try (unfold int_of_str; destruct (int_literal dur); [|discriminate];
         cbn [bind]);
    do 3 eexists; (split; [reflexivity|]);
    (split; [|reflexivity]); reflexivity.
Qed.

(** The loop of [get_builds] over well-formed records: it succeeds, the
    builds of the result are those it started with and those of the
    records, and no job is left without builds. *)
Lemma add_build_hits (records : list ElkJob) :
  forallb well_formed_record records = true ->
  forall acc,
    (forall n j, get n acc = Some j -> Job.builds j <> []) ->
    exists out,
      for_each add_build_hit records acc = Ok out
      /\ (forall n b,
             has_build out n b
             <-> has_build acc n b
                 \/ exists r, In r records
                              /\ field_text r "job_name" = Some n
                              /\ record_build_id r = b)
      /\ (forall n j, get n out = Some j -> Job.builds j <> []).
Proof.
  induction records as [|r t IH]; intros Hwf acc Hacc.
  - exists acc. split; [reflexivity|]. split; [|exact Hacc].
    intros n b. split; [auto|]. intros [H|(r & [] & _)]. exact H.
  - simpl in Hwf. apply andb_true_iff in Hwf. destruct Hwf as [Hr Ht].
    destruct (@add_build_of_hit_ok acc r Hr) as (n & u & build & Hn & Hid & E).
    cbn [for_each]. unfold add_build_hit at 1. rewrite E. cbn [bind fst].
    set (acc0 := if mem n acc then acc else set n (Job.new n u) acc) in *.
    set (acc' := update n (Job.add_build build) acc0).
    assert (H0 : exists j0,
               get n acc0 = Some j0
               /\ (forall b, In b (keys (Job.builds j0)) <-> has_build acc n b)).
    { unfold acc0, mem. destruct (get n acc) as [j|] eqn:Ej.
      - exists j. split; [exact Ej|]. intros b. unfold has_build.
        rewrite Ej. split.
        + intros H. now exists j.
        + intros (j' & [= <-] & H). exact H.
      - exists (Job.new n u). rewrite get_set_same. split; [reflexivity|].
        intros b. unfold has_build. rewrite Ej. simpl. split; [tauto|].
        intros (j' & [=] & _). }
    destruct H0 as (j0 & Hj0 & Hkeys).
    assert (Hother : forall n', n <> n' -> get n' acc' = get n' acc).
    { intros n' Hne. unfold acc'. rewrite get_update_other by exact Hne.
      unfold acc0. destruct (mem n acc); [reflexivity|].
      now apply get_set_other. }
    assert (Hsame : get n acc' = Some (Job.add_build build j0)).
    { unfold acc'. now rewrite get_update_same, Hj0. }
    assert (Hstep : forall n' b',
               has_build acc' n' b'
               <-> has_build acc n' b' \/ (n' = n /\ b' = record_build_id r)).
    { intros n' b'. destruct (String.eqb n n') eqn:En.
      - apply String.eqb_eq in En. subst n'. unfold has_build at 1.
        rewrite Hsame. split.
        + intros (j & [= <-] & Hin). simpl in Hin.
          apply keys_add_entry in Hin. rewrite Hid in Hin.
          destruct Hin as [Hin | ->]; [left; now apply Hkeys|now right].
        + intros H. eexists. split; [reflexivity|]. simpl.
          apply keys_add_entry. rewrite Hid.
          destruct H as [H|[_ ->]]; [left; now apply Hkeys|now right].
      - apply String.eqb_neq in En. unfold has_build.
        rewrite (Hother n' En). split; [now left|].
        intros [H|[-> _]]; [exact H|congruence]. }
    destruct (IH Ht acc') as (out & Eout & Hout & Hne).
    { intros n' j. destruct (String.eqb n n') eqn:En.
      - apply String.eqb_eq in En. subst n'. rewrite Hsame.
        intros [= <-]. simpl. destruct (Job.builds j0) as [|[k0 v0] t0];
          simpl; [discriminate|]. destruct (String.eqb _ _); discriminate.
      - apply String.eqb_neq in En. rewrite (Hother n' En). apply Hacc. }
    exists out. split; [exact Eout|]. split; [|exact Hne].
    intros n' b'. rewrite Hout, Hstep. split.
    + intros [[H|[-> ->]]|(r' & Hin & H1 & H2)].
      * now left.
      * right. exists r. split; [now left|]. now split.
      * right. exists r'. split; [now right|]. now split.
    + intros [H|(r' & [<-|Hin] & H1 & H2)].
      * left. now left.
      * left. right. rewrite Hn in H1. injection H1 as <-. now split.
      * right. exists r'. now split.
Qed.

Lemma filter_values_all (V : Type) (keep : V -> bool) (d : dict V) :
  (forall k v, In (k, v) d -> keep v = true) -> filter_values keep d = d.
Proof.
  unfold filter_values. induction d as [|[k v] t IH]; intros H; simpl;
    [reflexivity|].
  rewrite (H k v) by now left. rewrite IH; [reflexivity|].
  intros k' v' Hin. apply (H k' v'). now right.
Qed.

Lemma keys_update (V : Type) (k : string) (f : V -> V) (d : dict V) :
  keys (update k f d) = keys d.
Proof.
  unfold keys. induction d as [|[k' v'] t IH]; simpl; [reflexivity|].
  destruct (String.eqb k k'); simpl; [reflexivity|now rewrite IH].
Qed.

Lemma keys_set (V : Type) (k : string) (v : V) (d : dict V) :
  keys (set k v d) = if mem k d then keys d else keys d ++ [k].
Proof.
  unfold keys, mem. induction d as [|[k' v'] t IH]; simpl; [reflexivity|].
  destruct (String.eqb k k') eqn:E; simpl; [reflexivity|].
  rewrite IH. now destruct (get k t).
Qed.

Lemma wf_set_new (V : Type) (k : string) (v : V) (d : dict V) :
  wf d -> wf (if mem k d then d else set k v d).
Proof.
  unfold wf. intros Hd. destruct (mem k d) eqn:E; [exact Hd|].
  rewrite keys_set, E.
  apply NoDup_rev in Hd. rewrite <- (rev_involutive (keys d ++ [k])).
  apply NoDup_rev. rewrite rev_app_distr. simpl. constructor; [|exact Hd].
  rewrite <- in_rev. unfold mem in E.
  destruct (get k d) eqn:G; [discriminate|]. now apply get_none_iff.
Qed.

Lemma add_build_hits_wf (records : list ElkJob) :
  forallb well_formed_record records = true ->
  forall acc out,
    wf acc -> for_each add_build_hit records acc = Ok out -> wf out.
Proof.
  induction records as [|r t IH]; intros Hwf acc out Hacc.
  - simpl. now intros [= <-].
  - simpl in Hwf. apply andb_true_iff in Hwf. destruct Hwf as [Hr Ht].
    destruct (@add_build_of_hit_ok acc r Hr) as (n & u & build & _ & _ & E).
    cbn [for_each]. unfold add_build_hit at 1. rewrite E. cbn [bind fst].
    apply (IH Ht). unfold wf. rewrite keys_update.
    now apply wf_set_new.
Qed.

Lemma filter_values_wf_all (V : Type) (keep : V -> bool) (d : dict V) :
  wf d -> (forall k v, get k d = Some v -> keep v = true) ->
  filter_values keep d = d.
Proof.
  intros Hwf H. apply filter_values_all. intros k v Hin.
  apply (H k). now apply get_in.
Qed.

Lemma status_stage_passed (kwargs : Kwargs) (arg : Argument.t)
  (record : ElkJob) :
  get "build_status" (kw_args kwargs) = Some arg ->
  argval_truthy (Argument.value arg) = true ->
  get_build_filters kwargs <> []
  /\ (passes (get_build_filters kwargs) record = true ->
      exists result status,
        field_text record "build_result" = Some result
        /\ In status (strs_of (Argument.value arg))
        /\ equal_ignoring_case result status).
Proof.
  intros Hs Ht. unfold get_build_filters. rewrite Hs, Ht. split.
  { intros E. apply (f_equal (@List.length _)) in E.
    rewrite length_app in E. simpl in E. lia. }
  unfold passes. rewrite forallb_app. simpl. rewrite andb_true_r.
  intros H. apply andb_true_iff in H. destruct H as [_ H].
  destruct (field_text record "build_result") as [result|] eqn:Er.
  - apply (case_insensitive_match_iff arg record Er) in H.
    destruct H as (status & H1 & H2). now exists result, status.
  - unfold satisfy_case_insensitive_match in H. rewrite Er in H. discriminate.
Qed.

(** C6.  With a build-status filter applied (and no [last_build]),
    [get_builds] of well-formed hits returns the jobs and builds of exactly
    those records that pass the job filters and the build filters; a
    record passes the build filters if and only if its result equals a
    requested status up to letter case (and its number is one of those
    [builds] asks for, when it asks for any), so a build whose status
    matches is kept and any other is not; every job it returns has a
    build, so a job whose builds were all filtered out is not in the
    result.  For the builds ["1"] (SUCCESS) and ["2"] (FAIL) of
    a job and the filter FAIL only build ["2"] is in the result, and a job
    with no failed build is left out. *)
Theorem get_builds_status_filter :
  forall (re_valid : string -> bool) (re_search : string -> string -> bool)
         (hits : list (dict pyval)) (kwargs : Kwargs) (arg : Argument.t)
         (job_stages : list (ElkJob -> bool)),
    get "build_status" (kw_args kwargs) = Some arg ->
    argval_truthy (Argument.value arg) = true ->
    mem "last_build" (kw_args kwargs) = false ->
    job_filters re_valid re_search kwargs = Ok job_stages ->
    forallb well_formed_hit hits = true ->
    exists out,
      get_builds re_valid re_search (Some hits) kwargs = Ok out
      /\ (forall job_name build_id,
             has_build out job_name build_id
             <-> exists hit,
                   In hit hits
                   /\ field_text (record_of_hit hit) "job_name" = Some job_name
                   /\ record_build_id (record_of_hit hit) = build_id
                   /\ passes job_stages (record_of_hit hit) = true
                   /\ passes (get_build_filters kwargs)
                        (normalised (record_of_hit hit)) = true)
      /\ (forall record,
             passes (get_build_filters kwargs) record = true
             <-> build_requested kwargs record /\ status_among arg record)
      /\ (forall job_name job,
             get job_name out = Some job -> Job.builds job <> [])
      /\ (forall url other_url,
             get_builds re_valid re_search
               (Some [build_hit "job1" url "1" "SUCCESS";
                      build_hit "job1" url "2" "FAIL";
                      build_hit "job2" other_url "7" "SUCCESS"])
               (build_status_kwargs ["FAIL"])
             = Ok [("job1",
                    {| Job.name := "job1"; Job.url := Some url;
                       Job.builds :=
                         [("2", Build.new "2" (Some "FAIL") None)] |})]).
Proof.
  intros re_valid re_search hits kwargs arg job_stages Hs Ht Hlast Hjf Hwf.
  rewrite forallb_forall in Hwf.
  destruct (status_stage_passed kwargs [] Hs Ht) as [Hne _].
  set (stages := get_build_filters kwargs) in *.
  set (records := map record_of_hit hits).
  set (kept := filter (passes job_stages) records).
  set (final := filter (passes stages) (map normalised kept)).
  assert (Hrec : forall r, In r records -> well_formed_record r = true).
  { intros r Hr. apply in_map_iff in Hr. destruct Hr as (hit & <- & Hin).
    now apply source_of_well_formed_hit, Hwf. }
  assert (Hfinal : forallb well_formed_record final = true).
  { apply forallb_forall. intros r Hr. unfold final in Hr.
    apply filter_In in Hr. destruct Hr as [Hr _].
    apply in_map_iff in Hr. destruct Hr as (r0 & <- & Hr0).
    apply filter_In in Hr0. destruct Hr0 as [Hr0 _].
    now apply well_formed_normalised, Hrec. }
  destruct (@add_build_hits final Hfinal [])
    as (out & Eout & Hout & Hnonempty); [intros n j; discriminate|].
  assert (Hwfout : wf out).
  { apply (@add_build_hits_wf final Hfinal [] out); [constructor|exact Eout]. }
  exists out. split.
  { unfold get_builds. cbn [query_get_hits bind].
    rewrite map_result_ok with (g := record_of_hit)
      by (intros hit Hin; now apply source_of_well_formed_hit, Hwf).
    cbn [bind]. unfold filter_jobs. rewrite Hjf. cbn [bind].
    rewrite apply_filters_filter. unfold filter_builds.
    rewrite map_result_ok with (g := normalised).
    2:{ intros r Hr. apply filter_In in Hr. destruct Hr as [Hr _].
        now apply well_formed_normalised, Hrec. }
    cbn [bind]. rewrite apply_filters_filter.
    fold records kept stages final. rewrite Eout. cbn [bind].
    rewrite Hlast.
    destruct stages as [|s0 st]; [congruence|].
    rewrite filter_values_wf_all; [reflexivity|exact Hwfout|].
    intros k v Hg. unfold has_builds_job.
    specialize (Hnonempty k v Hg). now destruct (Job.builds v). }
  split.
  { intros job_name build_id. rewrite Hout. split.
    - intros [(j & [=] & _)|(r & Hr & Hn & Hb)].
      unfold final in Hr. apply filter_In in Hr. destruct Hr as [Hr Hp].
      apply in_map_iff in Hr. destruct Hr as (r0 & <- & Hr0).
      apply filter_In in Hr0. destruct Hr0 as [Hr0 Hp0].
      pose proof (Hrec r0 Hr0) as Hw.
      apply in_map_iff in Hr0. destruct Hr0 as (hit & <- & Hin).
      exists hit. split; [exact Hin|].
      unfold field_text in Hn |- *.
      rewrite normalised_get_other in Hn by discriminate.
      split; [exact Hn|].
      destruct (well_formed_normalised _ Hw) as (_ & _ & Eid & _).
      rewrite Eid in Hb. now repeat split.
    - intros (hit & Hin & Hn & Hb & Hp0 & Hp). right.
      assert (Hr0 : In (record_of_hit hit) records)
        by (apply in_map_iff; now exists hit).
      pose proof (Hrec _ Hr0) as Hw.
      exists (normalised (record_of_hit hit)). split; [|split].
      + unfold final. apply filter_In. split; [|exact Hp].
        apply in_map_iff. exists (record_of_hit hit). split; [reflexivity|].
        apply filter_In. now split.
      + unfold field_text in Hn |- *.
        now rewrite normalised_get_other by discriminate.
      + destruct (well_formed_normalised _ Hw) as (_ & _ & Eid & _).
        now rewrite Eid. }
  split.
  { intros record. unfold stages. rewrite get_build_filters_passes.
    split; intros [H1 H2]; (split; [exact H1|]).
    - now apply (H2 arg).
    - intros a Ha _. rewrite Hs in Ha. now injection Ha as <-. }
  split; [exact Hnonempty|].
  intros url other_url. reflexivity.
Qed.

(** * Concrete runs *)

Example int_of_str_10 : int_of_str "10" = Ok 10.
Proof. reflexivity. Qed.

Example int_of_str_padded : int_of_str " +1_000 " = Ok 1000.
Proof. reflexivity. Qed.

Example int_of_str_letters : int_of_str "1a" = Raise (ValueError "1a").
Proof. reflexivity. Qed.

Example int_of_str_empty : int_of_str "" = Raise (ValueError "").
Proof. reflexivity. Qed.

Example str_of_int_negative : str_of_int (-15) = "-15".
Proof. reflexivity. Qed.

Example sorted_rev_keeps_ties :
  map Argument.name
    (query_order [("a", {| Argument.name := "a"; Argument.level := 1;
                           Argument.func := None; Argument.value := VNone |});
                  ("b", {| Argument.name := "b"; Argument.level := 2;
                           Argument.func := None; Argument.value := VNone |});
                  ("c", {| Argument.name := "c"; Argument.level := 1;
                           Argument.func := None; Argument.value := VNone |});
                  ("d", {| Argument.name := "d"; Argument.level := 2;
                           Argument.func := None; Argument.value := VNone |})])
  = ["b"; "d"; "a"; "c"].
Proof. reflexivity. Qed.

(** C2: a criterion without a function that passes the gate leaves
    [last_level] alone (here at its initial value). *)
Lemma filter_only_last_level_witness :
  Argument.has_func sources_arg = false
  /\ last_level (fst (run_arg no_source 1 example_ci_args sources_arg
                        (initial_state [])))
     = -1.
Proof.
  split; [reflexivity|].
  destruct (@filter_only_last_level no_source 1 example_ci_args sources_arg
              (initial_state []) eq_refl) as (_ & _ & _ & H & _).
  apply H; simpl; lia.
Defined.

(** C2: after the level-2 criterion [tests] the criterion [sources], which
    has no function and whose level 1 is below [last_level] = 2, sets
    [last_level] to 1. *)
Lemma filter_only_updates_last_level :
  query_order example_ci_args = [tests_arg; sources_arg]
  /\ Argument.func sources_arg = None
  /\ last_level after_tests = 2
  /\ last_level (fst (run_arg no_source 1 example_ci_args sources_arg
                        after_tests)) = 1
  /\ last_level (fst (run_query no_source 1 example_ci_args [])) = 1.
Proof. repeat split. Qed.


(** C4: the theorem at the job whose builds are ["2"], ["10"], ["3"]. *)
Lemma get_last_build_numerically_greatest_witness :
  exists out,
    get_last_build [("job1", job_2_10_3)] = Ok out
    /\ get "job1" out
       = Some (job_with_build "job1" (Some "http://domain.tld/job1")
                 (build_of "10" "FAIL")).
Proof.
  destruct (@get_last_build_numerically_greatest [("job1", job_2_10_3)]
              eq_refl eq_refl)
    as (out & E & _).
  exists out. split; [exact E|].
  injection E as <-. reflexivity.
Defined.

(** C5: the theorem at the job whose builds are ["1"] and ["abc"]. *)
Lemma get_last_build_non_numeric_raises_witness :
  exists k, get_last_build [("job1", job_1_abc)] = Raise (ValueError k).
Proof.
  destruct (@get_last_build_non_numeric_raises [("job1", job_1_abc)]
              eq_refl eq_refl)
    as (k & E & _).
  exists k. exact E.
Defined.

(** C5: [get_last_build] ends in the [ValueError] of ["abc"], and so does
    [get_builds] called with [last_build]: the caller gets the exception. *)
Lemma non_numeric_build_id_propagates :
  get_last_build [("job1", job_1_abc)] = Raise (ValueError "abc")
  /\ get_builds any_pattern_valid any_text_matches
       (Some [build_hit "job1" "http://domain.tld/job1" "1" "SUCCESS";
              build_hit "job1" "http://domain.tld/job1" "abc" "FAIL"])
       last_build_kwargs
     = Raise (ValueError "abc").
Proof. split; reflexivity. Qed.

(** C6: the theorem at the scenario of the two builds. *)
Lemma get_builds_status_filter_witness :
  exists out,
    get_builds any_pattern_valid any_text_matches
      (Some [build_hit "job1" "http://domain.tld/job1" "1" "SUCCESS";
             build_hit "job1" "http://domain.tld/job1" "2" "FAIL"])
      (build_status_kwargs ["FAIL"])
    = Ok out
    /\ forall job_name job,
         get job_name out = Some job -> Job.builds job <> [].
Proof.
  destruct (@get_builds_status_filter any_pattern_valid any_text_matches
              [build_hit "job1" "http://domain.tld/job1" "1" "SUCCESS";
               build_hit "job1" "http://domain.tld/job1" "2" "FAIL"]
              (build_status_kwargs ["FAIL"]) (status_arg ["FAIL"]) []
              eq_refl eq_refl eq_refl eq_refl eq_refl)
    as (out & E & _ & _ & H & _).
  exists out. split; [exact E|exact H].
Defined.

(** C8: [get_tests] without [builds] and [last_build] raises
    [MissingArgument], and the query that calls it for the first of three
    systems ends there: the other two systems, one of them in another
    environment, are not asked. *)
Lemma missing_argument_ends_the_query :
  get_tests any_pattern_valid any_text_matches no_suite_parsed
    sample_float_of_str (Some []) no_kwargs
  = Raise MissingArgument
  /\ snd (run_query first_with_method 1 [("tests", tests_arg)]
            tests_environments)
     = Some MissingArgument
  /\ map (fun c => (fetch_env c, fetch_system c))
       (fetched (fst (run_query first_with_method 1 [("tests", tests_arg)]
                        tests_environments)))
     = [("prod", "gateA")]
  /\ environments (fst (run_query first_with_method 1 [("tests", tests_arg)]
                          tests_environments))
     = tests_environments.
Proof. repeat split. Qed.

(** C9: the theorem at a system that holds a job, and the same job merged
    twice. *)
Lemma merge_idempotent_and_monotone_witness :
  well_formed_job job_2_10_3 = true
  /\ System.add_job job_2_10_3 (System.add_job job_2_10_3 gateA)
     = System.add_job job_2_10_3 gateA.
Proof.
  split; [reflexivity|].
  exact (proj1 (@merge_idempotent_and_monotone gateA job_2_10_3 eq_refl)).
Defined.

(** C10: the theorem at the request ['fAiL'] and a record whose result
    is ['FAIL']. *)
Lemma build_status_ignores_case_witness :
  passes (get_build_filters (build_status_kwargs ["fAiL"]))
    [("build_num", SStr "2"); ("build_result", SStr "FAIL")]
  = true.
Proof.
  apply (proj1 (@build_status_ignores_case (build_status_kwargs ["fAiL"])
                  (status_arg ["fAiL"]) eq_refl) eq_refl).
  split.
  - intros arg [=].
  - exists "FAIL", "fAiL". split; [reflexivity|]. split; [now left|].
    apply lower_equal_ignoring_case. reflexivity.
Defined.

(** C10: with a [build_status] argument that holds no status, the build
    whose result is SUCCESS is in the result of [get_builds], though its
    result equals none of the requested statuses. *)
Lemma empty_build_status_keeps_every_build :
  get "build_status" (kw_args (build_status_kwargs [])) = Some (status_arg [])
  /\ get_builds any_pattern_valid any_text_matches
       (Some [build_hit "job1" "http://domain.tld/job1" "1" "SUCCESS"])
       (build_status_kwargs [])
     = Ok [("job1",
            {| Job.name := "job1"; Job.url := Some "http://domain.tld/job1";
               Job.builds := [("1", build_of "1" "SUCCESS")] |})]
  /\ ~ (exists status,
          In status (strs_of (Argument.value (status_arg [])))
          /\ equal_ignoring_case "SUCCESS" status).
Proof.
  repeat split. intros (status & [] & _).
Qed.

Example fail_matches_any_case :
  get_builds any_pattern_valid any_text_matches
    (Some [build_hit "test" "http://domain.tld/test/" "1" "SUCCESS";
           build_hit "test2" "http://domain.tld/test2/" "2" "FAIL"])
    (build_status_kwargs ["fAiL"])
  = Ok [("test2",
         {| Job.name := "test2"; Job.url := Some "http://domain.tld/test2/";
            Job.builds := [("2", build_of "2" "FAIL")] |})].
Proof. reflexivity. Qed.

(** With the criteria [jobs] (level 1) and [tests] (level 2) the tests are
    fetched first, and the jobs, whose level is below the last level, are
    not fetched. *)
Example deeper_fetch_comes_first :
  map (fun c => (Argument.name (fetch_arg c), fetch_system c))
    (fetched (fst (run_query first_with_method 1 sample_ci_args
                     [sample_environment])))
  = [("tests", "gateA")]
  /\ map (fun j => (fst j, Job.url (snd j), keys (Job.builds (snd j))))
       (flat_map System.jobs
          (flat_map Environment.systems
             (environments (fst (run_query first_with_method 1 sample_ci_args
                                   [sample_environment])))))
     = [("job1", None, ["1"])].
Proof. split; reflexivity. Qed.

(** With [jobs] alone the jobs are fetched and merged into the system. *)
Example jobs_alone_are_fetched :
  map (fun j => (fst j, Job.url (snd j)))
    (flat_map System.jobs
       (flat_map Environment.systems
          (environments (fst (run_query first_with_method 1
                                [("jobs", jobs_arg)] [sample_environment])))))
  = [("job1", Some "http://domain.tld/job1")].
Proof. reflexivity. Qed.

(** * Further properties *)

(** ** [get_config_file_path] *)

Section ConfigFilePathFacts.

Variable default : string.

(** The index [i + 2] of the loop is the position after the current
    item. *)
Lemma config_file_path_loop_scan (arguments : list string) (i : nat)
  (rest : list string) (current : string) :
  skipn (S i) arguments = rest ->
  config_file_path_loop arguments i rest current
  = path_after_config rest current.
Proof.
  revert i current. induction rest as [|item rest' IH]; intros i current Hs;
    simpl; [reflexivity|].
  assert (Hs' : skipn (S (S i)) arguments = rest').
  { replace (S (S i)) with (1 + S i)%nat by lia.
    rewrite <- skipn_skipn, Hs. reflexivity. }
  assert (Hn : nth_error arguments (i + 2) = hd_error rest').
  { replace (i + 2)%nat with (S (S i)) by lia.
    rewrite <- Hs'. clear. generalize (S (S i)) as n. intros n.
    revert arguments. induction n as [|n IHn]; intros [|a l]; simpl; auto. }
  destruct (String.eqb item "--config").
  - rewrite Hn. destruct rest' as [|path rest'']; cbn [hd_error];
      [reflexivity|]. now apply IH.
  - now apply IH.
Qed.

Lemma get_config_file_path_scan (arguments : list string) :
  get_config_file_path default arguments
  = path_after_config (tl arguments) default.
Proof.
  unfold get_config_file_path. apply config_file_path_loop_scan.
  now destruct arguments.
Qed.

Lemma path_after_config_none (rest : list string) (current : string) :
  ~ In "--config" rest -> path_after_config rest current = Ok current.
Proof.
  induction rest as [|item rest' IH]; intros Hn; simpl; [reflexivity|].
  destruct (String.eqb item "--config") eqn:E.
  - apply String.eqb_eq in E. subst. exfalso. apply Hn. now left.
  - apply IH. intros H. apply Hn. now right.
Qed.

Lemma path_after_config_last (pre post : list string) (path current : string) :
  ~ In "--config" (path :: post) ->
  path_after_config (pre ++ "--config" :: path :: post) current = Ok path.
Proof.
  intros Hn. revert current.
  induction pre as [|item pre' IH]; intros current; simpl.
  - destruct (String.eqb path "--config") eqn:E.
    + apply String.eqb_eq in E. subst. exfalso. apply Hn. now left.
    + apply path_after_config_none. intros H. apply Hn. now right.
  - destruct (String.eqb item "--config").
    + destruct pre' as [|x pre'']; simpl app; apply IH.
    + apply IH.
Qed.

Lemma path_after_config_error (rest : list string) (current : string) :
  (path_after_config rest current = Raise IndexError
   <-> exists pre, rest = pre ++ ["--config"])
  /\ (forall e, path_after_config rest current = Raise e -> e = IndexError).
Proof.
  revert current. induction rest as [|item rest' IH]; intros current; simpl.
  - split; [|discriminate]. split; [discriminate|].
    intros ([|x pre] & H); discriminate.
  - destruct (String.eqb item "--config") eqn:E.
    + apply String.eqb_eq in E. subst item.
      destruct rest' as [|path rest''].
      * split; [|now intros e [= <-]]. split; [|reflexivity].
        intros _. now exists [].
      * destruct (IH path) as [IH1 IH2]. split; [|exact IH2].
        rewrite IH1. split.
        -- intros (pre & ->). now exists ("--config" :: pre).
        -- intros ([|x pre] & H); [discriminate|].
           injection H as _ H. now exists pre.
    + destruct (IH current) as [IH1 IH2]. split; [|exact IH2].
      rewrite IH1. split.
      * intros (pre & ->). now exists (item :: pre).
      * intros ([|x pre] & H).
        -- injection H as -> _. rewrite String.eqb_refl in E. discriminate.
        -- injection H as _ H. now exists pre.
Qed.

(** X1.  [get_config_file_path] returns the argument that follows the last
    ["--config"] of the command line, and the default path when the
    command line has no ["--config"]; the program name, [arguments[0]], is
    never read as an option. *)
Theorem get_config_file_path_last_option :
  forall (prog : string) (pre post : list string) (path : string),
    (~ In "--config" (path :: post) ->
     get_config_file_path default (prog :: pre ++ "--config" :: path :: post)
     = Ok path)
    /\ (~ In "--config" post ->
        get_config_file_path default (prog :: post) = Ok default)
    /\ get_config_file_path default [] = Ok default
    /\ get_config_file_path default ["--config"] = Ok default.
Proof.
  intros prog pre post path. rewrite !get_config_file_path_scan. simpl.
  split; [apply path_after_config_last|].
  split; [apply path_after_config_none|].
  split; reflexivity.
Qed.

(** X2.  [get_config_file_path] raises [IndexError] exactly when the last
    argument of the command line (the program name apart) is
    ["--config"], and it raises nothing else. *)
Theorem get_config_file_path_index_error :
  forall arguments : list string,
    (get_config_file_path default arguments = Raise IndexError
     <-> exists pre, tl arguments = pre ++ ["--config"])
    /\ (forall e,
           get_config_file_path default arguments = Raise e ->
           e = IndexError).
Proof.
  intros arguments. rewrite get_config_file_path_scan.
  apply path_after_config_error.
Qed.

End ConfigFilePathFacts.

(** ** [get_jobs] *)

Lemma wf_set (V : Type) (k : string) (v : V) (d : dict V) :
  wf d -> wf (set k v d).
Proof.
  intros Hd. pose proof (@wf_set_new V k v d Hd) as H. unfold wf in *.
  rewrite keys_set. destruct (mem k d) eqn:E; [exact Hd|].
  now rewrite keys_set, E in H.
Qed.

Lemma source_of_well_formed_job_hit (hit : dict pyval) :
  well_formed_job_hit hit = true ->
  source_of_hit hit = Ok (record_of_hit hit)
  /\ well_formed_job_record (record_of_hit hit) = true.
Proof.
  unfold well_formed_job_hit, source_of_hit, record_of_hit, getitem.
  destruct (get "_source" hit) as [[v|d]|]; try discriminate.
  intros H. now split.
Qed.

Lemma add_job_of_hit_ok (acc : dict Job.t) (r : ElkJob) :
  well_formed_job_record r = true ->
  add_job_of_hit acc r = Ok (set (record_name r) (job_of_record r) acc)
  /\ field_text r "job_name" = Some (record_name r).
Proof.
  unfold well_formed_job_record, add_job_of_hit, job_of_record, record_name,
    record_url, field_text, getitem.
  destruct (get "job_name" r) as [[|n|]|]; try discriminate.
  destruct (get "job_url" r) as [[|u|]|]; try discriminate; intros _;
    split; reflexivity.
Qed.

Lemma for_each_add_job_of_hit (records : list ElkJob) (acc : dict Job.t) :
  forallb well_formed_job_record records = true ->
  for_each add_job_of_hit records acc = Ok (jobs_of_records records acc).
Proof.
  revert acc. induction records as [|r t IH]; intros acc Hwf; simpl;
    [reflexivity|].
  simpl in Hwf. apply andb_true_iff in Hwf. destruct Hwf as [Hr Ht].
  destruct (add_job_of_hit_ok acc r Hr) as [-> _]. simpl. now apply IH.
Qed.

Lemma jobs_of_records_wf (records : list ElkJob) (acc : dict Job.t) :
  wf acc -> wf (jobs_of_records records acc).
Proof.
  revert acc. induction records as [|r t IH]; intros acc Hacc; simpl;
    [exact Hacc|].
  apply IH. now apply wf_set.
Qed.

Lemma jobs_of_records_keys (records : list ElkJob) (acc : dict Job.t)
  (n : string) :
  In n (keys (jobs_of_records records acc))
  <-> In n (keys acc) \/ exists r, In r records /\ record_name r = n.
Proof.
  revert acc. induction records as [|r t IH]; intros acc; simpl.
  - split; [auto|]. intros [H|(r & [] & _)]. exact H.
  - rewrite IH, keys_set. split.
    + intros [H|(r' & Hin & Hn)].
      * destruct (mem (record_name r) acc); [now left|].
        apply in_app_iff in H. destruct H as [H|[<-|[]]]; [now left|].
        right. exists r. auto.
      * right. exists r'. auto.
    + intros [H|(r' & [<-|Hin] & Hn)].
      * left. destruct (mem (record_name r) acc); [exact H|].
        apply in_app_iff. now left.
      * left. subst n. unfold mem.
        destruct (get (record_name r) acc) as [j|] eqn:G.
        -- apply get_some_in in G. unfold keys. apply in_map_iff.
           now exists (record_name r, j).
        -- apply in_app_iff. right. now left.
      * right. exists r'. auto.
Qed.

Lemma jobs_of_records_get_other (records : list ElkJob) (acc : dict Job.t)
  (n : string) :
  (forall r, In r records -> record_name r <> n) ->
  get n (jobs_of_records records acc) = get n acc.
Proof.
  revert acc. induction records as [|r t IH]; intros acc H; simpl;
    [reflexivity|].
  rewrite IH by (intros r' Hr'; apply H; now right).
  apply get_set_other. apply H. now left.
Qed.

Lemma jobs_of_records_get_last (before after : list ElkJob) (r : ElkJob)
  (acc : dict Job.t) :
  (forall r', In r' after -> record_name r' <> record_name r) ->
  get (record_name r) (jobs_of_records (before ++ r :: after) acc)
  = Some (job_of_record r).
Proof.
  intros H. unfold jobs_of_records. rewrite fold_left_app. simpl.
  fold (jobs_of_records before acc).
  fold (jobs_of_records after
          (set (record_name r) (job_of_record r) (jobs_of_records before acc))).
  rewrite jobs_of_records_get_other by exact H. apply get_set_same.
Qed.

Section GetJobsFacts.

Variable re_valid : string -> bool.
Variable re_search : string -> string -> bool.

(** X3.  For hits that have a job name and a url, [get_jobs] returns one
    job for every job name among the records that pass the job filters,
    every name once; the job has no builds and the url of the last such
    record of that name. *)
Theorem get_jobs_last_record_wins :
  forall (hits : list (dict pyval)) (kwargs : Kwargs)
         (stages : list (ElkJob -> bool)),
    job_filters re_valid re_search kwargs = Ok stages ->
    forallb well_formed_job_hit hits = true ->
    exists out,
      get_jobs re_valid re_search (Some hits) kwargs = Ok out
      /\ NoDup (keys out)
      /\ (forall n,
             In n (keys out)
             <-> exists hit,
                   In hit hits
                   /\ passes stages (record_of_hit hit) = true
                   /\ field_text (record_of_hit hit) "job_name" = Some n)
      /\ (forall n job, get n out = Some job -> Job.builds job = [])
      /\ (forall before hit after,
             hits = before ++ hit :: after ->
             passes stages (record_of_hit hit) = true ->
             (forall hit',
                 In hit' after -> passes stages (record_of_hit hit') = true ->
                 record_name (record_of_hit hit')
                 <> record_name (record_of_hit hit)) ->
             get (record_name (record_of_hit hit)) out
             = Some (Job.new (record_name (record_of_hit hit))
                       (record_url (record_of_hit hit)))).
Proof.
  intros hits kwargs stages Hjf Hwf. rewrite forallb_forall in Hwf.
  set (records := map record_of_hit hits).
  set (kept := filter (passes stages) records).
  assert (Hkept : forallb well_formed_job_record kept = true).
  { apply forallb_forall. intros r Hr. apply filter_In in Hr.
    destruct Hr as [Hr _]. apply in_map_iff in Hr.
    destruct Hr as (hit & <- & Hin).
    now apply source_of_well_formed_job_hit, Hwf. }
  exists (jobs_of_records kept []). split.
  { unfold get_jobs. cbn [query_get_hits bind].
    rewrite map_result_ok with (g := record_of_hit)
      by (intros hit Hin; now apply source_of_well_formed_job_hit, Hwf).
    cbn [bind]. unfold filter_jobs. rewrite Hjf. cbn [bind].
    rewrite apply_filters_filter. fold records kept.
    now apply for_each_add_job_of_hit. }
  split; [apply jobs_of_records_wf; constructor|].
  assert (Hname : forall r,
             well_formed_job_record r = true ->
             forall n, field_text r "job_name" = Some n <-> record_name r = n).
  { intros r Hr n. destruct (add_job_of_hit_ok [] r Hr) as [_ E].
    rewrite E. split; [now intros [= <-]|now intros <-]. }
  split.
  { intros n. rewrite jobs_of_records_keys. simpl. split.
    - intros [[]|(r & Hr & Hn)]. apply filter_In in Hr.
      destruct Hr as [Hr Hp]. apply in_map_iff in Hr.
      destruct Hr as (hit & <- & Hin). exists hit.
      split; [exact Hin|]. split; [exact Hp|].
      apply Hname; [|exact Hn].
      now apply source_of_well_formed_job_hit, Hwf.
    - intros (hit & Hin & Hp & Hn). right. exists (record_of_hit hit).
      split.
      + apply filter_In. split; [|exact Hp]. apply in_map_iff. now exists hit.
      + apply Hname; [|exact Hn].
        now apply source_of_well_formed_job_hit, Hwf. }
  split.
  { intros n job Hg. apply get_some_in in Hg.
    assert (H : forall l acc,
               (forall k v, In (k, v) acc -> Job.builds v = []) ->
               forall k v, In (k, v) (jobs_of_records l acc) ->
                           Job.builds v = []).
    { clear. induction l as [|r t IH]; intros acc Hacc; simpl; [exact Hacc|].
      apply IH. intros k v Hin.
      assert (Hs : forall (d : dict Job.t) k0 v0,
                 In (k, v) (set k0 v0 d) -> In (k, v) d \/ v = v0).
      { clear. induction d as [|[k1 v1] d IHd]; intros k0 v0; simpl.
        - intros [[= _ <-]|[]]. now right.
        - destruct (String.eqb k0 k1); simpl.
          + intros [[= _ <-]|H]; [now right|left; now right].
          + intros [H|H]; [left; now left|].
            destruct (IHd _ _ H); [left; now right|now right]. }
      destruct (Hs _ _ _ Hin) as [H| ->]; [now apply (Hacc k)|reflexivity]. }
    apply (H kept [] (fun k v (F : In (k, v) []) => match F with end) n job Hg). }
  intros before hit after -> Hp Hlast.
  unfold kept, records. rewrite map_app, filter_app. simpl. rewrite Hp.
  apply jobs_of_records_get_last.
  intros r' Hr'. apply filter_In in Hr'. destruct Hr' as [Hr' Hp'].
  apply in_map_iff in Hr'. destruct Hr' as (hit' & <- & Hin').
  now apply Hlast.
Qed.

(** X4.  A record that passes the job filters but has no [job_url] makes
    [get_jobs] raise [KeyError] for ["job_url"], whatever comes after it,
    when the records before it are well formed. *)
Theorem get_jobs_missing_url :
  forall (before after : list (dict pyval)) (hit : dict pyval)
         (kwargs : Kwargs) (stages : list (ElkJob -> bool)) (n : string),
    job_filters re_valid re_search kwargs = Ok stages ->
    forallb well_formed_job_hit before = true ->
    forallb (fun h => match source_of_hit h with Ok _ => true | _ => false end)
      (hit :: after) = true ->
    passes stages (record_of_hit hit) = true ->
    get "job_name" (record_of_hit hit) = Some (SStr n) ->
    get "job_url" (record_of_hit hit) = None ->
    get_jobs re_valid re_search (Some (before ++ hit :: after)) kwargs
    = Raise (KeyError "job_url").
Proof.
  intros before after hit kwargs stages n Hjf Hb Ha Hp Hn Hu.
  assert (Hsrc : forall h,
             In h (before ++ hit :: after) ->
             source_of_hit h = Ok (record_of_hit h)).
  { intros h Hin. apply in_app_iff in Hin. destruct Hin as [Hin|Hin].
    - rewrite forallb_forall in Hb.
      now apply source_of_well_formed_job_hit, Hb.
    - rewrite forallb_forall in Ha. specialize (Ha h Hin).
      unfold source_of_hit, record_of_hit, getitem in *.
      destruct (get "_source" h) as [[v|d]|]; simpl in *;
        try discriminate; reflexivity. }
  unfold get_jobs. cbn [query_get_hits bind].
  rewrite map_result_ok with (g := record_of_hit) by exact Hsrc.
  cbn [bind]. unfold filter_jobs. rewrite Hjf. cbn [bind].
  rewrite apply_filters_filter, map_app, filter_app. simpl. rewrite Hp.
  generalize (@nil (string * Job.t)) as acc.
  assert (Hkept : forallb well_formed_job_record
                    (filter (passes stages) (map record_of_hit before)) = true).
  { apply forallb_forall. intros r Hr. apply filter_In in Hr.
    destruct Hr as [Hr _]. apply in_map_iff in Hr.
    destruct Hr as (h & <- & Hin). rewrite forallb_forall in Hb.
    now apply source_of_well_formed_job_hit, Hb. }
  induction (filter (passes stages) (map record_of_hit before)) as [|r t IH];
    intros acc; simpl.
  - unfold add_job_of_hit, getitem. rewrite Hn, Hu. reflexivity.
  - simpl in Hkept. apply andb_true_iff in Hkept. destruct Hkept as [Hr Ht].
    destruct (add_job_of_hit_ok acc r Hr) as [-> _]. simpl. now apply IH.
Qed.

End GetJobsFacts.

(** ** [match_filter_test_by_duration] *)

Section DurationFacts.

Variable float_of_str : string -> option float.

(** X5.  For a test that has a duration and ranges whose operators and
    operands are all valid, [match_filter_test_by_duration] returns
    whether the duration satisfies every range; with no range it returns
    [True]. *)
Theorem duration_filter_is_conjunction :
  forall (d : float) (ranges : list Range),
    forallb (range_well_formed float_of_str) ranges = true ->
    match_filter_test_by_duration float_of_str (Some d) ranges
    = Ok (forallb (range_holds float_of_str d) ranges).
Proof.
  intros d ranges. induction ranges as [|r t IH]; intros Hwf;
    [reflexivity|].
  simpl in Hwf. apply andb_true_iff in Hwf. destruct Hwf as [Hr Ht].
  cbn [match_filter_test_by_duration forallb].
  unfold range_well_formed in Hr. unfold range_holds at 1, range_check.
  destruct (RANGE_OPERATORS (operator r)) as [op|]; [|discriminate].
  destruct (float_of_str (operand r)) as [bound|]; [|discriminate].
  cbn [bind]. destruct (op d bound); cbn [negb andb]; [now apply IH|reflexivity].
Qed.

(** X6.  The ranges are read in order and the first one the duration
    does not satisfy ends the check with [False]: the ranges after it,
    valid or not, are not looked at. *)
Theorem duration_filter_stops_at_first_failure :
  forall (d : float) (pre post : list Range) (r : Range),
    forallb (range_holds float_of_str d) pre = true ->
    range_check float_of_str d r = Some false ->
    match_filter_test_by_duration float_of_str (Some d) (pre ++ r :: post)
    = Ok false.
Proof.
  intros d pre post r Hpre Hr. induction pre as [|p t IH].
  - cbn [app match_filter_test_by_duration]. unfold range_check in Hr.
    destruct (RANGE_OPERATORS (operator r)) as [op|]; [|discriminate].
    destruct (float_of_str (operand r)) as [bound|]; [|discriminate].
    injection Hr as ->. reflexivity.
  - simpl in Hpre. apply andb_true_iff in Hpre. destruct Hpre as [Hp Ht].
    cbn [app match_filter_test_by_duration].
    unfold range_holds, range_check in Hp.
    destruct (RANGE_OPERATORS (operator p)) as [op|]; [|discriminate].
    destruct (float_of_str (operand p)) as [bound|]; [|discriminate].
    cbn [bind]. destruct (op d bound); [|discriminate].
    cbn [negb]. now apply IH.
Qed.

(** X7.  After ranges that the duration satisfies, a range whose operator
    is not in the table raises [KeyError] for that operator, before its
    operand is read; a range with a known operator and an operand that is
    not a number raises [ValueError] for that operand. *)
Theorem duration_filter_malformed_range :
  forall (d : float) (pre post : list Range) (r : Range),
    forallb (range_holds float_of_str d) pre = true ->
    (RANGE_OPERATORS (operator r) = None ->
     match_filter_test_by_duration float_of_str (Some d) (pre ++ r :: post)
     = Raise (KeyError (operator r)))
    /\ (RANGE_OPERATORS (operator r) <> None ->
        float_of_str (operand r) = None ->
        match_filter_test_by_duration float_of_str (Some d) (pre ++ r :: post)
        = Raise (ValueError (operand r))).
Proof.
  intros d pre post r Hpre.
  assert (Hskip : forall tail,
             match_filter_test_by_duration float_of_str (Some d) (pre ++ tail)
             = match_filter_test_by_duration float_of_str (Some d) tail).
  { intros tail. induction pre as [|p t IH]; [reflexivity|].
    simpl in Hpre. apply andb_true_iff in Hpre. destruct Hpre as [Hp Ht].
    cbn [app match_filter_test_by_duration].
    unfold range_holds, range_check in Hp.
    destruct (RANGE_OPERATORS (operator p)) as [op|]; [|discriminate].
    destruct (float_of_str (operand p)) as [bound|]; [|discriminate].
    cbn [bind]. destruct (op d bound); [|discriminate].
    cbn [negb]. now apply IH. }
  rewrite Hskip. cbn [match_filter_test_by_duration]. split.
  - now intros ->.
  - intros Hop Hnum. destruct (RANGE_OPERATORS (operator r)); [|congruence].
    now rewrite Hnum.
Qed.

End DurationFacts.

(** ** More on [get_last_build] *)

Lemma set_new (V : Type) (k : string) (v : V) (d : dict V) :
  ~ In k (keys d) -> set k v d = d ++ [(k, v)].
Proof.
  unfold keys. induction d as [|[k' v'] t IH]; intros Hn; simpl;
    [reflexivity|].
  destruct (String.eqb k k') eqn:E.
  - apply String.eqb_eq in E. subst. exfalso. apply Hn. now left.
  - rewrite IH; [reflexivity|]. intros H. apply Hn. now right.
Qed.

(** What one step of the loop yields for a job that is in the input. *)
Lemma last_build_of_job_ok (builds_jobs acc out : dict Job.t) (n : string)
  (j : Job.t) :
  get n builds_jobs = Some j ->
  last_build_of_job builds_jobs acc (n, j) = Ok out ->
  (Job.builds j = [] /\ out = acc)
  \/ (Job.builds j <> []
      /\ exists k b,
           get k (Job.builds j) = Some b
           /\ is_numeric k = true
           /\ out = set n (job_with_build n (Job.url j) b) acc).
Proof.
  intros Hg. unfold last_build_of_job, getitem. rewrite Hg. cbn [bind].
  destruct (Job.builds j) as [|kb bs] eqn:Eb.
  - cbn [truthy negb]. intros [= <-]. now left.
  - cbn [truthy negb]. rewrite <- Eb. intros H. right.
    split; [rewrite Eb; discriminate|].
    unfold last_build_number in H.
    destruct (map_result _ (keys (Job.builds j))) as [keyed|e] eqn:Ek;
      [|discriminate].
    cbn [bind] in H.
    destruct (last_item (sorted snd keyed)) as [[k z]|] eqn:El;
      [|discriminate].
    cbn [bind] in H.
    destruct (get k (Job.builds j)) as [b|] eqn:Egk; [|discriminate].
    cbn [bind] in H. injection H as <-.
    exists k, b. split; [exact Egk|]. split; [|reflexivity].
    apply last_item_in in El.
    apply (Permutation_in _ (Permutation_sym (sorted_perm snd keyed))) in El.
    clear - Ek El. revert keyed Ek El.
    induction (keys (Job.builds j)) as [|k0 t IH]; intros keyed Ek El.
    + injection Ek as <-. destruct El.
    + cbn [map_result] in Ek. unfold int_of_str at 1 in Ek.
      destruct (int_literal k0) as [z0|] eqn:E0; [|discriminate].
      cbn [bind] in Ek.
      destruct (map_result _ t) as [rest|e]; [|discriminate].
      cbn [bind] in Ek. injection Ek as <-.
      destruct El as [[= <- <-]|El].
      * unfold is_numeric. now rewrite E0.
      * now apply (IH rest).
Qed.

Lemma get_last_build_shape (builds_jobs : dict Job.t)
  (rest : list (string * Job.t)) :
  NoDup (map fst rest) ->
  (forall n j, In (n, j) rest -> get n builds_jobs = Some j) ->
  forall acc out,
    (forall n, In n (map fst rest) -> ~ In n (keys acc)) ->
    for_each (last_build_of_job builds_jobs) rest acc = Ok out ->
    exists lasts,
      out = acc ++ lasts
      /\ keys lasts = keys (with_builds rest)
      /\ Forall (fun item =>
                   exists j k b,
                     In (fst item, j) rest
                     /\ get k (Job.builds j) = Some b
                     /\ is_numeric k = true
                     /\ snd item = job_with_build (fst item) (Job.url j) b)
           lasts.
Proof.
  induction rest as [|[n j] rest IH]; intros Hnd Hget acc out Hfresh Hrun.
  - injection Hrun as <-. exists []. rewrite app_nil_r.
    repeat split. constructor.
  - inversion Hnd as [|? ? Hnotin Hnd']; subst.
    cbn [for_each] in Hrun.
    destruct (last_build_of_job builds_jobs acc (n, j)) as [acc'|e] eqn:E;
      [|discriminate].
    cbn [bind] in Hrun.
    assert (Hget' : forall n' j',
               In (n', j') rest -> get n' builds_jobs = Some j')
      by (intros; apply Hget; now right).
    destruct (@last_build_of_job_ok builds_jobs acc acc' n j
                (Hget n j (or_introl eq_refl)) E)
      as [[Hb ->]|(Hb & k & b & Hk & Hnum & ->)].
    + destruct (IH Hnd' Hget' acc out) as (lasts & -> & Hkeys & Hall);
        [intros n' Hn'; apply Hfresh; now right|exact Hrun|].
      exists lasts. split; [reflexivity|]. split.
      * unfold with_builds. cbn [filter snd]. rewrite Hb. exact Hkeys.
      * eapply Forall_impl; [|exact Hall]. intros item (j' & k & b & H & Hr).
        exists j', k, b. split; [now right|exact Hr].
    + rewrite set_new in Hrun by (apply Hfresh; now left).
      destruct (IH Hnd' Hget' (acc ++ [(n, job_with_build n (Job.url j) b)])
                  out)
        as (lasts & -> & Hkeys & Hall); [|exact Hrun|].
      { intros n' Hn' Hin. unfold keys in Hin. rewrite map_app in Hin.
        apply in_app_iff in Hin. destruct Hin as [Hin|[<-|[]]].
        - apply (Hfresh n'); [now right|exact Hin].
        - contradiction. }
      exists ((n, job_with_build n (Job.url j) b) :: lasts).
      split; [now rewrite <- app_assoc|]. split.
      * unfold with_builds. cbn [filter snd].
        destruct (Job.builds j); [congruence|].
        cbn [truthy keys map fst]. f_equal. exact Hkeys.
      * constructor.
        -- exists j, k, b. simpl. repeat split; auto.
        -- eapply Forall_impl; [|exact Hall].
           intros item (j' & k' & b' & H & Hr).
           exists j', k', b'. split; [now right|exact Hr].
Qed.

(** X8.  What [get_last_build] returns, when it returns: the jobs of the
    input that have builds, in the order of the input and under their
    names, each with the url it had and with one build, taken from its
    builds. *)
Theorem get_last_build_keeps_order :
  forall builds_jobs out : dict Job.t,
    distinct (keys builds_jobs) = true ->
    get_last_build builds_jobs = Ok out ->
    keys out = keys (with_builds builds_jobs)
    /\ (forall n job,
           In (n, job) out ->
           exists j k b,
             In (n, j) builds_jobs
             /\ get k (Job.builds j) = Some b
             /\ job = job_with_build n (Job.url j) b).
Proof.
  intros builds_jobs out Hd Hrun. apply distinct_NoDup in Hd.
  destruct (@get_last_build_shape builds_jobs builds_jobs Hd
              (fun n j H => @get_in _ n j builds_jobs Hd H) [] out)
    as (lasts & -> & Hkeys & Hall); [intros n _ []|exact Hrun|].
  split; [exact Hkeys|].
  intros n job Hin. rewrite Forall_forall in Hall.
  destruct (Hall (n, job) Hin) as (j & k & b & H1 & H2 & _ & H3).
  now exists j, k, b.
Qed.

(** A dictionary of jobs with one numeric build each is what
    [get_last_build] makes of itself. *)
Lemma get_last_build_fixed (d : dict Job.t) :
  NoDup (keys d) ->
  forallb single_build_job d = true ->
  get_last_build d = Ok d.
Proof.
  intros Hnd Hs. unfold get_last_build, items.
  assert (H : forall rest acc,
             NoDup (map fst rest) ->
             (forall n, In n (map fst rest) -> ~ In n (keys acc)) ->
             (forall n j, In (n, j) rest -> get n d = Some j) ->
             forallb single_build_job rest = true ->
             for_each (last_build_of_job d) rest acc = Ok (acc ++ rest)).
  { clear Hs. induction rest as [|[n j] rest IH]; intros acc Hnd' Hf Hg Hs.
    - simpl. now rewrite app_nil_r.
    - inversion Hnd' as [|? ? Hnotin Hnd'']; subst.
      simpl in Hs. apply andb_true_iff in Hs. destruct Hs as [Hj Hrest].
      unfold single_build_job in Hj. simpl in Hj.
      apply andb_true_iff in Hj. destruct Hj as [Hname Hb].
      apply String.eqb_eq in Hname.
      destruct (Job.builds j) as [|[k b] [|? ?]] eqn:Eb; try discriminate.
      apply andb_true_iff in Hb. destruct Hb as [Hk Hnum].
      apply String.eqb_eq in Hk.
      cbn [for_each]. unfold last_build_of_job at 1, getitem at 1.
      rewrite (Hg n j) by now left. cbn [bind]. rewrite Eb.
      cbn [truthy negb]. unfold last_build_number. cbn [keys map fst map_result].
      unfold int_of_str, is_numeric in *.
      destruct (int_literal k) as [z|]; [|discriminate].
      cbn [bind sorted fold_right insert_sorted last_item].
      unfold getitem. cbn [get]. rewrite String.eqb_refl. cbn [bind].
      rewrite set_new by (apply Hf; now left).
      assert (Ej : Job.add_build b (Job.new n (Job.url j)) = j).
      { destruct j as [jn ju jb]. simpl in *. subst. reflexivity. }
      rewrite Ej. rewrite IH; [now rewrite <- app_assoc|exact Hnd''| |
                              |exact Hrest].
      + intros n' Hn' Hin. unfold keys in Hin. rewrite map_app in Hin.
        apply in_app_iff in Hin. destruct Hin as [Hin|[<-|[]]].
        * apply (Hf n'); [now right|exact Hin].
        * contradiction.
      + intros; apply Hg; now right. }
  apply (H d []);
    [exact Hnd | intros n _ [] | intros n j Hin; now apply get_in | exact Hs].
Qed.

(** X9.  [get_last_build] is idempotent: for jobs with distinct names
    whose builds stand under their own, numeric identifiers, applying it
    to its own result returns that result. *)
Theorem get_last_build_idempotent :
  forall builds_jobs : dict Job.t,
    distinct (keys builds_jobs) = true ->
    builds_keyed builds_jobs = true ->
    all_numeric builds_jobs = true ->
    exists out,
      get_last_build builds_jobs = Ok out
      /\ get_last_build out = Ok out.
Proof.
  intros builds_jobs Hd Hk Hn.
  pose proof (distinct_NoDup _ Hd) as Hnd.
  assert (Hnum : forall name job k,
             In (name, job) builds_jobs -> In k (keys (Job.builds job)) ->
             int_literal k <> None).
  { intros name job k Hin Hkey. unfold all_numeric in Hn.
    rewrite forallb_forall in Hn.
    assert (Hj : In job (values builds_jobs))
      by (apply in_map_iff; now exists (name, job)).
    specialize (Hn job Hj). rewrite forallb_forall in Hn.
    specialize (Hn k Hkey). unfold is_numeric in Hn.
    destruct (int_literal k); discriminate. }
  destruct (@get_last_build_loop builds_jobs builds_jobs Hnd
              (fun name job H => @get_in _ name job builds_jobs Hnd H) Hnum [])
    as (out & E & _).
  exists out. split; [exact E|].
  destruct (@get_last_build_shape builds_jobs builds_jobs Hnd
              (fun n j H => @get_in _ n j builds_jobs Hnd H) [] out)
    as (lasts & -> & Hkeys & Hall); [intros n _ []|exact E|].
  simpl. apply get_last_build_fixed.
  - rewrite Hkeys. unfold with_builds, keys.
    clear - Hnd. unfold keys in Hnd.
    induction builds_jobs as [|[n j] t IH]; simpl; [constructor|].
    inversion Hnd as [|? ? Hnotin Hnd']; subst.
    destruct (truthy (Job.builds j)); [|now apply IH].
    simpl. constructor; [|now apply IH].
    intros Hin. apply Hnotin. apply in_map_iff in Hin.
    destruct Hin as (x & Hx & Hin). apply filter_In in Hin.
    apply in_map_iff. exists x. tauto.
  - apply forallb_forall. intros [n job] Hin. rewrite Forall_forall in Hall.
    destruct (Hall (n, job) Hin) as (j & k & b & H1 & H2 & H3 & H4).
    simpl in H4. subst job. unfold single_build_job. simpl.
    rewrite String.eqb_refl. simpl.
    assert (Hid : Build.build_id b = k).
    { unfold builds_keyed in Hk. rewrite forallb_forall in Hk.
      assert (Hj : In j (values builds_jobs))
        by (apply in_map_iff; now exists (n, j)).
      destruct (keyed_by_spec _ _ (Hk j Hj)) as (_ & Hkey & _).
      apply Hkey. now apply get_some_in. }
    rewrite Hid, String.eqb_refl. exact H3.
Qed.

(** ** [str] and [int] of a build number *)

Lemma digits_from_digit (acc d : Z) (after_digit : bool) (c : ascii)
  (t : string) :
  digit_of c = Some d ->
  digits_from acc after_digit (String c t) = digits_from (10 * acc + d) true t.
Proof. intros H. cbn [digits_from]. now rewrite H. Qed.

Lemma digits_from_uint_acc (d : Decimal.uint) :
  forall acc : positive,
    digits_from (Z.pos acc) true (NilEmpty.string_of_uint d)
    = Some (Z.pos (Pos.of_uint_acc d acc)).
Proof.
  induction d as [|d IH|d IH|d IH|d IH|d IH|d IH|d IH|d IH|d IH|d IH];
    intros acc; cbn [NilEmpty.string_of_uint Pos.of_uint_acc];
    [reflexivity| | | | | | | | | |];
    erewrite digits_from_digit by (vm_compute; reflexivity);
    rewrite <- IH; f_equal; lia.
Qed.

Lemma digits_from_uint (d : Decimal.uint) :
  forall after_digit : bool,
    d <> Decimal.Nil ->
    digits_from 0 after_digit (NilEmpty.string_of_uint d)
    = Some (Z.of_N (Pos.of_uint d)).
Proof.
  induction d as [|d IH|d IH|d IH|d IH|d IH|d IH|d IH|d IH|d IH|d IH];
    intros after_digit Hd; [contradiction| | | | | | | | | |];
    cbn [NilEmpty.string_of_uint Pos.of_uint];
    erewrite digits_from_digit by (vm_compute; reflexivity);
    cbn [Z.mul Z.add Z.of_N];
    try apply digits_from_uint_acc.
  destruct d; try (apply IH; discriminate). reflexivity.
Qed.

Lemma int_literal_unsigned (d : Decimal.uint) :
  d <> Decimal.Nil ->
  int_literal (NilEmpty.string_of_uint d)
  = digits_from 0 false (NilEmpty.string_of_uint d).
Proof. destruct d; intros Hd; [contradiction|reflexivity..]. Qed.

(** [int(str(z)) == z] for every [int]. *)
Lemma int_literal_str_of_int (z : Z) : int_literal (str_of_int z) = Some z.
Proof.
  destruct z as [|p|p]; [reflexivity| |];
    pose proof (DecimalPos.Unsigned.to_uint_nonnil p) as Hp;
    unfold str_of_int; cbn [Z.to_int NilZero.string_of_int];
    unfold NilZero.string_of_uint.
  - destruct (Pos.to_uint p) eqn:E; [contradiction|..];
      rewrite <- E in *; rewrite int_literal_unsigned by exact Hp;
      rewrite digits_from_uint by exact Hp;
      now rewrite DecimalPos.Unsigned.of_to.
  - assert (H : int_literal (String "-" (NilEmpty.string_of_uint (Pos.to_uint p)))
                = option_map Z.opp
                    (digits_from 0 false
                       (NilEmpty.string_of_uint (Pos.to_uint p))))
      by reflexivity.
    destruct (Pos.to_uint p) eqn:E; [contradiction|..];
      rewrite <- E in *; rewrite H, digits_from_uint by exact Hp;
      now rewrite DecimalPos.Unsigned.of_to.
Qed.

Lemma numeric_record_build_id (r : ElkJob) :
  numeric_build_num r = true -> is_numeric (record_build_id r) = true.
Proof.
  unfold numeric_build_num, record_build_id.
  destruct (get "build_num" r) as [[|s|z]|]; try discriminate.
  - now intros H.
  - intros _. cbn [str_of_scalar]. unfold is_numeric.
    now rewrite int_literal_str_of_int.
Qed.

(** ** [get_builds] with [last_build] *)

Lemma add_build_by_id (build : Build.t) (j : Job.t) :
  (forall k b, get k (Job.builds j) = Some b -> Build.build_id b = k) ->
  forall k b,
    get k (Job.builds (Job.add_build build j)) = Some b ->
    Build.build_id b = k.
Proof.
  intros Hj k b. unfold Job.add_build. cbn [Job.builds].
  destruct (String.eqb (Build.build_id build) k) eqn:E.
  - apply String.eqb_eq in E. subst k.
    rewrite get_add_entry_same.
    destruct (get (Build.build_id build) (Job.builds j)) as [old|] eqn:G;
      intros [= <-]; [|reflexivity].
    cbn [Build.merge Build.build_id]. now apply Hj.
  - apply String.eqb_neq in E. rewrite get_add_entry_other by exact E.
    apply Hj.
Qed.

Lemma add_build_hits_by_id (records : list ElkJob) :
  forallb well_formed_record records = true ->
  forall acc out,
    builds_by_id acc ->
    for_each add_build_hit records acc = Ok out -> builds_by_id out.
Proof.
  induction records as [|r t IH]; intros Hwf acc out Hacc.
  - simpl. now intros [= <-].
  - simpl in Hwf. apply andb_true_iff in Hwf. destruct Hwf as [Hr Ht].
    destruct (@add_build_of_hit_ok acc r Hr) as (n & u & build & _ & _ & E).
    cbn [for_each]. unfold add_build_hit at 1. rewrite E. cbn [bind fst].
    apply (IH Ht). intros n' j k b Hj.
    assert (H0 : builds_by_id
                   (if mem n acc then acc else set n (Job.new n u) acc)).
    { destruct (mem n acc); [exact Hacc|].
      intros n0 j0 k0 b0 Hj0.
      destruct (String.eqb n n0) eqn:En.
      - apply String.eqb_eq in En. subst n0. rewrite get_set_same in Hj0.
        injection Hj0 as <-. discriminate.
      - apply String.eqb_neq in En. rewrite get_set_other in Hj0 by exact En.
        now apply (Hacc n0 j0). }
    destruct (String.eqb n n') eqn:En.
    + apply String.eqb_eq in En. subst n'. rewrite get_update_same in Hj.
      destruct (get n (if mem n acc then acc else set n (Job.new n u) acc))
        as [j0|] eqn:G; [|discriminate].
      injection Hj as <-. apply add_build_by_id. intros k0 b0.
      now apply (H0 n j0).
    + apply String.eqb_neq in En. rewrite get_update_other in Hj by exact En.
      now apply (H0 n' j).
Qed.

(** X10.  With [last_build] among the arguments and build numbers that are
    integers, or text that reads as one, [get_builds] returns, for every
    job that has a selected record, that job with exactly one build: the
    build of a selected record of the job whose number is the greatest. *)
Theorem get_builds_last_build_greatest :
  forall (re_valid : string -> bool) (re_search : string -> string -> bool)
         (hits : list (dict pyval)) (kwargs : Kwargs)
         (job_stages : list (ElkJob -> bool)),
    mem "last_build" (kw_args kwargs) = true ->
    job_filters re_valid re_search kwargs = Ok job_stages ->
    forallb well_formed_hit hits = true ->
    forallb (fun hit => numeric_build_num (record_of_hit hit)) hits = true ->
    exists out,
      get_builds re_valid re_search (Some hits) kwargs = Ok out
      /\ (forall hit n,
             In hit hits ->
             selected job_stages (get_build_filters kwargs) hit = true ->
             field_text (record_of_hit hit) "job_name" = Some n ->
             exists job k,
               get n out = Some job
               /\ keys (Job.builds job) = [k]
               /\ int_value (record_build_id (record_of_hit hit))
                  <= int_value k)
      /\ (forall n job,
             get n out = Some job ->
             exists hit k,
               In hit hits
               /\ selected job_stages (get_build_filters kwargs) hit = true
               /\ field_text (record_of_hit hit) "job_name" = Some n
               /\ record_build_id (record_of_hit hit) = k
               /\ keys (Job.builds job) = [k]).
Proof.
  intros re_valid re_search hits kwargs job_stages Hlast Hjf Hwf Hnb.
  rewrite forallb_forall in Hwf, Hnb.
  set (stages := get_build_filters kwargs) in *.
  set (records := map record_of_hit hits).
  set (kept := filter (passes job_stages) records).
  set (final := filter (passes stages) (map normalised kept)).
  assert (Hrec : forall r, In r records -> well_formed_record r = true).
  { intros r Hr. apply in_map_iff in Hr. destruct Hr as (hit & <- & Hin).
    now apply source_of_well_formed_hit, Hwf. }
  assert (Hfinal : forallb well_formed_record final = true).
  { apply forallb_forall. intros r Hr. unfold final in Hr.
    apply filter_In in Hr. destruct Hr as [Hr _].
    apply in_map_iff in Hr. destruct Hr as (r0 & <- & Hr0).
    apply filter_In in Hr0. destruct Hr0 as [Hr0 _].
    now apply well_formed_normalised, Hrec. }
  assert (Hsel : forall r n k,
             (In r final /\ field_text r "job_name" = Some n
              /\ record_build_id r = k)
             <-> exists hit,
                   In hit hits /\ selected job_stages stages hit = true
                   /\ field_text (record_of_hit hit) "job_name" = Some n
                   /\ record_build_id (record_of_hit hit) = k
                   /\ r = normalised (record_of_hit hit)).
  { intros r n k. unfold selected. split.
    - intros (Hr & Hn & Hk). unfold final in Hr.
      apply filter_In in Hr. destruct Hr as [Hr Hp].
      apply in_map_iff in Hr. destruct Hr as (r0 & <- & Hr0).
      apply filter_In in Hr0. destruct Hr0 as [Hr0 Hp0].
      pose proof (Hrec r0 Hr0) as Hw.
      apply in_map_iff in Hr0. destruct Hr0 as (hit & <- & Hin).
      exists hit. split; [exact Hin|]. rewrite Hp0, Hp.
      unfold field_text in Hn |- *.
      rewrite normalised_get_other in Hn by discriminate.
      destruct (well_formed_normalised _ Hw) as (_ & _ & Eid & _).
      rewrite Eid in Hk. now repeat split.
    - intros (hit & Hin & Hs & Hn & Hk & ->).
      apply andb_true_iff in Hs. destruct Hs as [Hp0 Hp].
      assert (Hr0 : In (record_of_hit hit) records)
        by (apply in_map_iff; now exists hit).
      pose proof (Hrec _ Hr0) as Hw.
      destruct (well_formed_normalised _ Hw) as (_ & _ & Eid & _).
      split; [|split].
      + unfold final. apply filter_In. split; [|exact Hp].
        apply in_map_iff. exists (record_of_hit hit). split; [reflexivity|].
        apply filter_In. now split.
      + unfold field_text in Hn |- *.
        now rewrite normalised_get_other by discriminate.
      + now rewrite Eid. }
  destruct (@add_build_hits final Hfinal [])
    as (found & Efound & Hfound & Hnonempty); [intros n j; discriminate|].
  assert (Hwffound : wf found).
  { apply (@add_build_hits_wf final Hfinal [] found);
      [constructor|exact Efound]. }
  assert (Hid : builds_by_id found).
  { apply (@add_build_hits_by_id final Hfinal [] found);
      [intros n j k b; discriminate|exact Efound]. }
  assert (Hbuilds : forall n k,
             has_build found n k
             <-> exists hit,
                   In hit hits /\ selected job_stages stages hit = true
                   /\ field_text (record_of_hit hit) "job_name" = Some n
                   /\ record_build_id (record_of_hit hit) = k).
  { intros n k. rewrite Hfound. split.
    - intros [(j & [=] & _)|(r & Hr & Hn & Hk)].
      destruct (proj1 (Hsel r n k)) as (hit & H1 & H2 & H3 & H4 & _);
        [now repeat split|].
      now exists hit.
    - intros (hit & H1 & H2 & H3 & H4). right.
      exists (normalised (record_of_hit hit)).
      apply (Hsel _ n k). now exists hit. }
  assert (Hnum : forall name job k,
             In (name, job) found -> In k (keys (Job.builds job)) ->
             int_literal k <> None).
  { intros name job k Hin Hk.
    assert (Hb : has_build found name k).
    { exists job. split; [now apply get_in|exact Hk]. }
    apply Hbuilds in Hb. destruct Hb as (hit & H1 & _ & _ & <-).
    pose proof (numeric_record_build_id _ (Hnb hit H1)) as Hn.
    unfold is_numeric in Hn.
    destruct (int_literal (record_build_id (record_of_hit hit)));
      [discriminate|discriminate Hn]. }
  destruct (@get_last_build_loop found found Hwffound
              (fun name job H => @get_in _ name job found Hwffound H) Hnum [])
    as (out & Eout & P1 & _ & P3).
  assert (Hlastof : forall n j,
             get n found = Some j ->
             exists k z b,
               get k (Job.builds j) = Some b
               /\ int_literal k = Some z
               /\ (forall k' z',
                      In k' (keys (Job.builds j)) ->
                      int_literal k' = Some z' -> z' <= z)
               /\ get n out = Some (job_with_build n (Job.url j) b)
               /\ Build.build_id b = k).
  { intros n j Hj.
    destruct (P1 n j (get_some_in _ _ Hj) (Hnonempty n j Hj))
      as (k & z & b & H1 & H2 & H3 & H4).
    exists k, z, b. repeat split; auto. now apply (Hid n j). }
  exists out. split.
  { unfold get_builds. cbn [query_get_hits bind].
    rewrite map_result_ok with (g := record_of_hit)
      by (intros hit Hin; now apply source_of_well_formed_hit, Hwf).
    cbn [bind]. unfold filter_jobs. rewrite Hjf. cbn [bind].
    rewrite apply_filters_filter. unfold filter_builds.
    rewrite map_result_ok with (g := normalised).
    2:{ intros r Hr. apply filter_In in Hr. destruct Hr as [Hr _].
        now apply well_formed_normalised, Hrec. }
    cbn [bind]. rewrite apply_filters_filter.
    fold records kept stages final. rewrite Efound. cbn [bind].
    rewrite Hlast.
    assert (Hkeep : filter_values has_builds_job found = found).
    { apply filter_values_wf_all; [exact Hwffound|].
      intros k v Hg. unfold has_builds_job.
      specialize (Hnonempty k v Hg). now destruct (Job.builds v). }
    destruct stages; [|rewrite Hkeep]; exact Eout. }
  split.
  - intros hit n Hin Hs Hn.
    assert (Hb : has_build found n (record_build_id (record_of_hit hit)))
      by (apply Hbuilds; now exists hit).
    destruct Hb as (j & Hj & Hk).
    destruct (Hlastof n j Hj) as (k & z & b & H1 & H2 & H3 & H4 & H5).
    exists (job_with_build n (Job.url j) b), k.
    split; [exact H4|]. split; [cbn; now rewrite H5|].
    destruct (int_literal (record_build_id (record_of_hit hit)))
      as [z'|] eqn:Ez.
    + unfold int_value. rewrite Ez, H2. now apply (H3 _ z' Hk).
    + exfalso. now apply (Hnum n j _ (get_some_in _ _ Hj) Hk).
  - intros n job Hout.
    destruct (get n found) as [j|] eqn:Hj.
    + destruct (Hlastof n j Hj) as (k & z & b & H1 & H2 & H3 & H4 & H5).
      rewrite H4 in Hout. injection Hout as <-.
      assert (Hb : has_build found n k).
      { exists j. split; [exact Hj|].
        apply in_map_iff. exists (k, b). split; [reflexivity|].
        now apply get_some_in. }
      apply Hbuilds in Hb. destruct Hb as (hit & Hh1 & Hh2 & Hh3 & Hh4).
      exists hit, k. repeat split; auto. cbn. now rewrite H5.
    + apply get_none_iff in Hj. rewrite (P3 n Hj) in Hout. discriminate.
Qed.

(** ** [filter_builds] *)

Lemma map_result_raises (A B : Type) (f : A -> outcome B) (g : A -> B)
  (before after : list A) (x : A) (e : exn) :
  (forall y, In y before -> f y = Ok (g y)) ->
  f x = Raise e ->
  map_result f (before ++ x :: after) = Raise e.
Proof.
  intros Hb Hx. induction before as [|y t IH]; simpl.
  - now rewrite Hx.
  - rewrite (Hb y) by now left. cbn [bind].
    rewrite IH by (intros; apply Hb; now right). reflexivity.
Qed.

Lemma set_twice (V : Type) (k : string) (v : V) (d : dict V) :
  set k v (set k v d) = set k v d.
Proof.
  induction d as [|[k' v'] t IH]; simpl.
  - now rewrite String.eqb_refl.
  - destruct (String.eqb k k') eqn:E; simpl; rewrite E; [reflexivity|].
    now rewrite IH.
Qed.

Lemma filter_kept (A : Type) (f : A -> bool) (l : list A) :
  (forall x, In x l -> f x = true) -> filter f l = l.
Proof.
  induction l as [|a t IH]; intros H; simpl; [reflexivity|].
  rewrite (H a) by now left. rewrite IH; [reflexivity|].
  intros; apply H; now right.
Qed.

Lemma stringify_build_num_text (r r' : ElkJob) :
  stringify_build_num r = Ok r' ->
  (exists s, get "build_num" r' = Some (SStr s))
  /\ stringify_build_num r' = Ok r'.
Proof.
  unfold stringify_build_num, getitem.
  destruct (get "build_num" r) as [n|]; [|discriminate].
  cbn [bind]. intros [= <-]. rewrite get_set_same. cbn [bind str_of_scalar].
  split; [now eexists|]. now rewrite set_twice.
Qed.

Lemma map_result_in (A B : Type) (f : A -> outcome B) (l : list A)
  (out : list B) :
  map_result f l = Ok out ->
  forall y, In y out -> exists x, In x l /\ f x = Ok y.
Proof.
  revert out. induction l as [|a t IH]; intros out; simpl.
  - intros [= <-] y [].
  - destruct (f a) as [b|e] eqn:E; [|discriminate]. cbn [bind].
    destruct (map_result f t) as [bs|e]; [|discriminate]. cbn [bind].
    intros [= <-] y [<-|Hy].
    + exists a. split; [now left|exact E].
    + destruct (IH bs eq_refl y Hy) as (x & Hx & Ex).
      exists x. split; [now right|exact Ex].
Qed.

(** X11.  [filter_builds] reads the build number of every record before
    any check is applied: a record without [build_num] makes it raise
    [KeyError], whatever the checks are and also when there is none, and
    whether or not the record would pass them. *)
Theorem filter_builds_missing_build_num :
  forall (before after : list ElkJob) (record : ElkJob)
         (checks_to_apply : list (ElkJob -> bool)),
    forallb (mem "build_num") before = true ->
    mem "build_num" record = false ->
    filter_builds (before ++ record :: after) checks_to_apply
    = Raise (KeyError "build_num").
Proof.
  intros before after record checks Hb Hr. unfold filter_builds.
  rewrite (@map_result_raises _ _ stringify_build_num normalised before after
             record (KeyError "build_num")); [reflexivity| |].
  - rewrite forallb_forall in Hb. intros y Hy. specialize (Hb y Hy).
    unfold stringify_build_num, normalised, getitem, mem in *.
    now destruct (get "build_num" y).
  - unfold stringify_build_num, getitem, mem in *.
    now destruct (get "build_num" record).
Qed.

(** X12.  What [filter_builds] returns has the build number as text in
    every record, and passes through [filter_builds] with the same checks
    unchanged. *)
Theorem filter_builds_idempotent :
  forall (builds_found out : list ElkJob)
         (checks_to_apply : list (ElkJob -> bool)),
    filter_builds builds_found checks_to_apply = Ok out ->
    (forall record,
        In record out -> exists s, get "build_num" record = Some (SStr s))
    /\ filter_builds out checks_to_apply = Ok out.
Proof.
  intros l out checks. unfold filter_builds.
  destruct (map_result stringify_build_num l) as [l'|e] eqn:E;
    [|discriminate].
  cbn [bind]. rewrite apply_filters_filter. intros [= <-].
  assert (H : forall r,
             In r (filter (passes checks) l') ->
             (exists s, get "build_num" r = Some (SStr s))
             /\ stringify_build_num r = Ok r).
  { intros r Hr. apply filter_In in Hr. destruct Hr as [Hr _].
    destruct (map_result_in _ _ E r Hr) as (r0 & _ & E0).
    now apply (stringify_build_num_text r0). }
  split; [intros r Hr; now apply H|].
  rewrite map_result_ok with (g := fun r => r)
    by (intros r Hr; now apply H).
  cbn [bind]. rewrite map_id, apply_filters_filter.
  rewrite filter_kept; [reflexivity|].
  intros r Hr. now apply filter_In in Hr.
Qed.

(** ** More on [run_query] *)

Section RunQueryFacts.

Variable get_source_method :
  string -> list Source.t -> string -> outcome source_method.

(** A criterion that has a function leaves its level in [last_level],
    fetched or not, when its step ends without an exception. *)
Lemma run_arg_sets_last_level start_level ci arg st st' :
  Argument.has_func arg = true ->
  run_arg get_source_method start_level ci arg st = (st', None) ->
  last_level st' = Argument.level arg.
Proof.
  intros HF. unfold run_arg. rewrite HF.
  destruct (_ && _).
  - destruct (Argument.func arg) as [func|] eqn:F.
    + destruct (query_environments _ _ _ _ _) as [[envs' calls] [e|]];
        intros [= <-]; reflexivity.
    + unfold Argument.has_func in HF. now rewrite F in HF.
  - intros [= <-]. reflexivity.
Qed.

(** X13.  After a criterion [p] that has a function, a criterion [a] of a
    lower level is passed over: no source is asked and the environments
    stay as [p] left them, although [a] may have a function and a level
    of at least [start_level].  A criterion [b] of the level of [a] that
    comes next is fetched, on the environments as [p] left them. *)
Theorem run_query_skips_first_of_lower_level :
  forall (start_level : Z) (ci_args : dict Argument.t)
         (p a b : Argument.t) (f : string) (st st1 : QueryState),
    Argument.has_func p = true ->
    run_arg get_source_method start_level ci_args p st = (st1, None) ->
    Argument.level a < Argument.level p ->
    Argument.level b = Argument.level a ->
    start_level <= Argument.level b ->
    Argument.func b = Some f ->
    Argument.has_func b = true ->
    run_args get_source_method start_level ci_args [p; a] st
    = (with_last_level (Argument.level a) st1, None)
    /\ fetched (fst (run_args get_source_method start_level ci_args
                       [p; a; b] st))
       = fetched st1
         ++ snd (fst (query_environments get_source_method ci_args b f
                        (environments st1)))
    /\ environments (fst (run_args get_source_method start_level ci_args
                            [p; a; b] st))
       = fst (fst (query_environments get_source_method ci_args b f
                     (environments st1))).
Proof.
  intros start_level ci p a b f st st1 Hp E1 Ha Hb Hs Hf Hfb.
  pose proof (run_arg_sets_last_level _ _ _ _ Hp E1) as Hl.
  assert (Ea : run_arg get_source_method start_level ci a st1
               = (with_last_level (Argument.level a) st1, None)).
  { unfold run_arg.
    assert (G : (Argument.level a >=? last_level st1) = false)
      by (rewrite Hl, Z.geb_leb; apply Z.leb_gt; lia).
    rewrite G, andb_false_r. reflexivity. }
  cbn [run_args]. rewrite E1, Ea. split; [reflexivity|].
  unfold run_arg. cbn [with_last_level last_level environments fetched].
  assert (G1 : (Argument.level b >=? start_level) = true)
    by (apply Z.geb_le; lia).
  assert (G2 : (Argument.level b >=? Argument.level a) = true)
    by (apply Z.geb_le; lia).
  rewrite G1, G2, Hf, Hfb. cbn [andb].
  destruct (query_environments _ _ _ _ _) as [[envs' calls] [e|]];
    split; reflexivity.
Qed.

(** X14.  When [Source.get_source_method] raises for a system (none of
    its sources has the method), in whichever environment, [run_query]
    ends with that exception: the environments and systems before it
    have been fetched and populated, no method is called for that system,
    the systems and environments after it are as they were, and the
    criteria that follow are not looked at. *)
Theorem run_query_no_source_for_system :
  forall (start_level : Z) (ci_args : dict Argument.t) (arg : Argument.t)
         (rest : list Argument.t) (f : string) (st : QueryState)
         (envs_before envs_after : list Environment.t) (env : Environment.t)
         (before after : list System.t) (system : System.t) (e : exn),
    start_level <= Argument.level arg ->
    last_level st <= Argument.level arg ->
    Argument.func arg = Some f ->
    Argument.has_func arg = true ->
    environments st = envs_before ++ env :: envs_after ->
    all_answer get_source_method ci_args f envs_before = true ->
    Environment.systems env = before ++ system :: after ->
    forallb (fun s => match fetched_system get_source_method ci_args f s with
                      | Some _ => true
                      | None => false
                      end) before = true ->
    get_source_method (System.name system) (System.sources system) f
    = Raise e ->
    exists calls,
      run_args get_source_method start_level ci_args (arg :: rest) st
      = ({| environments :=
              map (fetched_environment get_source_method ci_args f)
                envs_before
              ++ {| Environment.name := Environment.name env;
                    Environment.systems :=
                      map (fun s =>
                             match fetched_system get_source_method ci_args
                                     f s
                             with
                             | Some s' => s'
                             | None => s
                             end) before
                      ++ system :: after |} :: envs_after;
            last_level := last_level st;
            fetched :=
              fetched st ++ calls_for arg f envs_before ++ calls |},
         Some e)
      /\ map fetch_system calls = map System.name before
      /\ Forall (fun c => fetch_arg c = arg) calls.
Proof.
  intros start_level ci arg rest f st envs_before envs_after env before after
    system e H1 H2 Hf Hfb Henv Hall Hsys Hb He.
  assert (Hb' : Forall (fun s => fetched_system get_source_method ci f s
                                 <> None) before).
  { apply Forall_forall. intros s Hs. rewrite forallb_forall in Hb.
    specialize (Hb s Hs). now destruct (fetched_system _ _ _ s). }
  destruct (@query_systems_no_source get_source_method ci arg f
              (Environment.name env) before system after e Hb' He)
    as (calls & E & Hc).
  pose proof (query_systems_calls get_source_method ci arg f
                (Environment.name env) (before ++ system :: after)) as Hargs.
  rewrite E in Hargs. cbn [fst snd] in Hargs.
  exists calls. split; [|split; [exact Hc|exact Hargs]].
  rewrite <- Hsys in E.
  apply (@run_args_fault get_source_method start_level ci arg rest f st);
    try assumption.
  rewrite Henv.
  now apply (@query_environments_fault get_source_method ci arg f envs_before
               env envs_after).
Qed.

Lemma query_systems_length ci arg func env_name systems :
  List.length (fst (fst (query_systems get_source_method ci arg func
                           env_name systems)))
  = List.length systems.
Proof.
  induction systems as [|system rest IH]; simpl; [reflexivity|].
  destruct (get_source_method _ _ _) as [method|e]; simpl; [|reflexivity].
  destruct (method _) as [instances|e]; simpl; [|reflexivity].
  destruct (query_systems _ _ _ _ _ rest) as [[rest' calls] err].
  simpl in *. now rewrite IH.
Qed.

Lemma query_environments_shape ci arg func envs :
  shape (fst (fst (query_environments get_source_method ci arg func envs)))
  = shape envs.
Proof.
  induction envs as [|env rest IH]; simpl; [reflexivity|].
  pose proof (query_systems_length ci arg func (Environment.name env)
                (Environment.systems env)) as Hl.
  destruct (query_systems _ _ _ _ _ _) as [[systems' calls] err].
  simpl in Hl. destruct err as [e|]; simpl.
  - now rewrite Hl.
  - destruct (query_environments _ _ _ _ rest) as [[rest' calls'] err'].
    simpl in *. now rewrite Hl, IH.
Qed.

Lemma run_arg_shape start_level ci arg st :
  shape (environments (fst (run_arg get_source_method start_level ci arg st)))
  = shape (environments st).
Proof.
  unfold run_arg. destruct (_ && _); [|reflexivity].
  destruct (Argument.func arg) as [func|]; [|reflexivity].
  destruct (Argument.has_func arg); [|reflexivity].
  pose proof (query_environments_shape ci arg func (environments st)) as H.
  destruct (query_environments _ _ _ _ _) as [[envs' calls] [e|]];
    exact H.
Qed.

(** X15.  [run_query] neither adds nor drops nor reorders environments or
    systems: whatever the criteria and the sources answer, and also when
    the run ends with an exception, the environments have the names and
    the numbers of systems they had, in the same order. *)
Theorem run_query_keeps_shape :
  forall (start_level : Z) (ci_args : dict Argument.t)
         (envs : list Environment.t),
    shape (environments
             (fst (run_query get_source_method start_level ci_args envs)))
    = shape envs.
Proof.
  intros start_level ci envs. unfold run_query.
  change envs with (environments (initial_state envs)) at 2.
  generalize (initial_state envs) as st.
  induction (query_order ci) as [|arg rest IH]; intros st; [reflexivity|].
  cbn [run_args].
  pose proof (run_arg_shape start_level ci arg st) as H.
  destruct (run_arg _ _ _ _ _) as [st' [e|]]; [exact H|].
  rewrite IH. exact H.
Qed.

End RunQueryFacts.

(** ** [extend_parser] *)

(** The loop over the [API] of a class, as [extend_parser] of it. *)
Lemma extend_attribute_eq (group_name : string) (level : Z)
  (attr_dict : attribute) :
  extend_attribute group_name level attr_dict
  = match attr_dict with
    | Attribute (Some ((_ :: _) as arguments)) class_type =>
        {| ext_arguments := arguments; ext_group := group_name;
           ext_level := level |}
        :: match class_type with
           | Some (Class name (Some API)) =>
               extend_parser API name (level + 1)
           | _ => []
           end
    | _ => []
    end.
Proof.
  destruct attr_dict as [[[|a args]|] class_type]; try reflexivity.
  cbn [extend_attribute]. f_equal.
  destruct class_type as [[| | | |name [API|]]|]; try reflexivity.
  unfold extend_parser.
  induction API as [|[k attr_dict] rest IH]; [reflexivity|].
  cbn [flat_map snd]. now rewrite <- IH.
Qed.

Lemma extend_attribute_raised :
  forall (attr_dict : attribute) (group_name : string) (level d : Z),
    extend_attribute group_name (level + d) attr_dict
    = map (raised d) (extend_attribute group_name level attr_dict).
Proof.
  fix IH 1. intros [[[|a args]|] class_type] group_name level d;
    try reflexivity.
  cbn [extend_attribute map raised ext_arguments ext_group ext_level].
  f_equal.
  destruct class_type as [[| | | |name [API|]]|]; try reflexivity.
  induction API as [|[k attr_dict] rest IHrest]; [reflexivity|].
  rewrite map_app, <- IHrest. f_equal.
  replace (level + d + 1) with (level + 1 + d) by lia. apply IH.
Qed.

Lemma extend_attribute_levels :
  forall (attr_dict : attribute) (group_name : string) (level : Z)
         (call : Extension),
    In call (extend_attribute group_name level attr_dict) ->
    level <= ext_level call
    /\ (ext_level call = level ->
        ext_group call = group_name
        /\ ext_arguments call = arguments_of attr_dict
        /\ has_arguments attr_dict = true).
Proof.
  fix IH 1. intros [[[|a args]|] class_type] group_name level call;
    try (now intros []).
  cbn [extend_attribute]. intros [<-|Hin].
  - split; [cbn; lia|]. intros _. repeat split.
  - destruct class_type as [[| | | |name [API|]]|]; try destruct Hin.
    assert (H : level + 1 <= ext_level call); [|split; lia].
    induction API as [|[k attr_dict] rest IHrest]; [destruct Hin|].
    apply in_app_iff in Hin. destruct Hin as [Hin|Hin].
    + now apply (IH attr_dict name (level + 1) call).
    + now apply IHrest.
Qed.

Lemma extend_parser_deeper (attributes : dict attribute) (group_name : string)
  (level : Z) (call : Extension) :
  In call (extend_parser attributes group_name level) ->
  level <= ext_level call.
Proof.
  unfold extend_parser. intros Hin. apply in_flat_map in Hin.
  destruct Hin as ([k attr_dict] & _ & Hin).
  now apply (extend_attribute_levels attr_dict group_name level call).
Qed.

(** X16.  [extend_parser] gives the parser the arguments of every
    attribute that has some, under the group and at the level it was
    called with, one call per attribute and in the order of the
    attributes; every other call it makes is for a nested [API], at a
    deeper level. *)
Theorem extend_parser_top_level :
  forall (attributes : dict attribute) (group_name : string) (level : Z),
    (forall call,
        In call (extend_parser attributes group_name level) ->
        level <= ext_level call)
    /\ filter (fun call => ext_level call =? level)
         (extend_parser attributes group_name level)
       = map (fun item =>
                {| ext_arguments := arguments_of (snd item);
                   ext_group := group_name;
                   ext_level := level |})
           (filter (fun item => has_arguments (snd item)) attributes).
Proof.
  intros attributes group_name level.
  split; [intros call; apply extend_parser_deeper|].
  unfold extend_parser.
  induction attributes as [|[k attr_dict] rest IH]; [reflexivity|].
  cbn [flat_map snd]. rewrite filter_app, IH. clear IH.
  rewrite extend_attribute_eq.
  destruct attr_dict as [[[|a args]|] class_type]; try reflexivity.
  cbn [filter ext_level has_arguments snd arguments_of map app].
  rewrite Z.eqb_refl. cbn [app]. f_equal.
  assert (H : forall calls : list Extension,
             (forall call, In call calls -> level + 1 <= ext_level call) ->
             filter (fun call => ext_level call =? level) calls = []).
  { induction calls as [|c t IHt]; intros Hc; [reflexivity|].
    cbn [filter].
    assert (E : (ext_level c =? level) = false).
    { apply Z.eqb_neq. specialize (Hc c (or_introl eq_refl)). lia. }
    rewrite E. apply IHt. intros; apply Hc; now right. }
  replace (filter (fun call => ext_level call =? level)
             match class_type with
             | Some (Class name (Some API)) =>
                 extend_parser API name (level + 1)
             | _ => []
             end) with (@nil Extension); [reflexivity|].
  symmetry. apply H.
  destruct class_type as [[| | | |name [API|]]|]; try (intros call []).
  intros call. apply extend_parser_deeper.
Qed.

(** X17.  The levels [extend_parser] hands out count the nesting from the
    level it starts with: started [d] levels higher, it makes the same
    calls, each [d] levels higher. *)
Theorem extend_parser_raised :
  forall (attributes : dict attribute) (group_name : string) (level d : Z),
    extend_parser attributes group_name (level + d)
    = map (raised d) (extend_parser attributes group_name level).
Proof.
  intros attributes group_name level d. unfold extend_parser.
  induction attributes as [|[k attr_dict] rest IH]; [reflexivity|].
  cbn [flat_map snd]. now rewrite map_app, IH, extend_attribute_raised.
Qed.

(** X18.  An attribute without arguments adds nothing to the parser, not
    even the arguments of the [API] of its type: [extend_parser] makes
    the calls it makes for the attributes that have arguments alone. *)
Theorem extend_parser_skips_without_arguments :
  forall (attributes : dict attribute) (group_name : string) (level : Z),
    extend_parser attributes group_name level
    = extend_parser
        (filter (fun item => has_arguments (snd item)) attributes)
        group_name level.
Proof.
  intros attributes group_name level. unfold extend_parser.
  induction attributes as [|[k attr_dict] rest IH]; [reflexivity|].
  cbn [flat_map filter snd].
  destruct (has_arguments attr_dict) eqn:E.
  - cbn [flat_map snd]. now rewrite IH.
  - rewrite IH. destruct attr_dict as [[[|a args]|] class_type];
      [reflexivity|discriminate|reflexivity].
Qed.

(** ** The tests [get_tests] keeps *)

Section TestFilterFacts.

Variable re_valid : string -> bool.
Variable re_search : string -> string -> bool.
Variable float_of_str : string -> option float.

(** A test case that [select_test] keeps has passed every test filter:
    its name or its class name matches the pattern, its status (SUCCESS,
    SKIPPED or FAILURE, a failure counting before a skip) is the
    upper-case form of one of the requested results, and its duration
    satisfies the ranges; the test is made with the name, the class name
    and the status of the test case. *)
Lemma kept_test_passed_filters :
  forall (kwargs : Kwargs) (tests_filtering : bool) (f : TestFilters)
         (test : TestCase) (t : Test.t),
    test_filters_of re_valid kwargs = Ok (tests_filtering, f) ->
    select_test re_search float_of_str f test = Ok (Some t) ->
    Test.name t = tc_name test
    /\ Test.class_name t = tc_classname test
    /\ Test.result t = Some (test_status_of test)
    /\ In (test_status_of test) ["SUCCESS"; "SKIPPED"; "FAILURE"]
    /\ (tc_failure test = true -> test_status_of test = "FAILURE")
    /\ (forall p,
           tests_pattern f = Some p ->
           re_search p (tc_name test) = true
           \/ exists c, tc_classname test = Some c /\ re_search p c = true)
    /\ (forall arg requested,
           get "test_result" (kw_args kwargs) = Some arg ->
           Argument.value arg = VStrs requested ->
           requested <> [] ->
           exists s, In s requested /\ upper s = test_status_of test)
    /\ (forall arg ranges,
           get "test_duration" (kw_args kwargs) = Some arg ->
           Argument.value arg = VRanges ranges ->
           match_filter_test_by_duration float_of_str (tc_time test) ranges
           = Ok true).
Proof.
  intros kwargs tests_filtering f test t Hf Hs.
  assert (Hres : forall arg requested,
             get "test_result" (kw_args kwargs) = Some arg ->
             Argument.value arg = VStrs requested ->
             test_result_argument f = map upper requested).
  { intros arg requested Ha Hv. unfold test_filters_of in Hf.
    destruct (match get "tests" (kw_args kwargs) with
              | Some _ => _ | None => _ end) as [[tf tp]|e];
      [|discriminate].
    cbn [bind] in Hf. rewrite Ha, Hv in Hf. cbn [bind] in Hf.
    now injection Hf as _ <-. }
  assert (Hdur : forall arg,
             get "test_duration" (kw_args kwargs) = Some arg ->
             test_duration_arguments f = Argument.value arg).
  { intros arg Ha. unfold test_filters_of in Hf.
    destruct (match get "tests" (kw_args kwargs) with
              | Some _ => _ | None => _ end) as [[tf tp]|e];
      [|discriminate].
    cbn [bind] in Hf.
    destruct (match get "test_result" (kw_args kwargs) with
              | Some _ => _ | None => _ end) as [tr|e];
      [|discriminate].
    cbn [bind] in Hf. rewrite Ha in Hf. now injection Hf as _ <-. }
  unfold select_test in Hs.
  destruct (negb _) eqn:Hp in Hs; [discriminate|].
  destruct (_ && _) eqn:Hr in Hs; [discriminate|].
  destruct (if argval_truthy (test_duration_arguments f) then _ else _)
    as [duration_ok|e] eqn:Hd in Hs; [|discriminate].
  cbn [bind] in Hs. destruct duration_ok; [|discriminate].
  cbn [negb] in Hs. injection Hs as <-. cbn.
  split; [reflexivity|]. split; [reflexivity|]. split; [reflexivity|].
  split.
  { unfold test_status_of.
    destruct (tc_failure test), (tc_skipped test); simpl; auto. }
  split.
  { unfold test_status_of. now intros ->. }
  split.
  { intros p Ep. rewrite Ep in Hp. apply negb_false_iff in Hp.
    apply orb_true_iff in Hp. destruct Hp as [Hp|Hp]; [right|now left].
    destruct (tc_classname test) as [c|]; [|discriminate]. now exists c. }
  split.
  { intros arg requested Ha Hv Hne.
    rewrite (Hres arg requested Ha Hv) in Hr.
    destruct requested as [|r0 rs]; [congruence|].
    cbn [map andb] in Hr. apply negb_false_iff in Hr.
    apply str_in_iff in Hr.
    change (In (test_status_of test) (map upper (r0 :: rs))) in Hr.
    apply in_map_iff in Hr.
    destruct Hr as (s & Es & Hin). now exists s. }
  intros arg ranges Ha Hv. rewrite (Hdur arg Ha), Hv in Hd.
  destruct ranges as [|r0 rs]; [reflexivity|].
  cbn [argval_truthy] in Hd. exact Hd.
Qed.

End TestFilterFacts.

(** ** [get_tests] on records without test suites *)

Lemma update_in (V : Type) (n : string) (f : V -> V) (d : dict V) (k : string)
  (v : V) :
  In (k, v) (update n f d) ->
  In (k, v) d \/ exists v0, In (k, v0) d /\ v = f v0.
Proof.
  induction d as [|[k' v'] t IH]; simpl; [tauto|].
  destruct (String.eqb n k').
  - intros [[= <- <-]|H]; [right; exists v'; split; [now left|reflexivity]|].
    left. now right.
  - intros [H|H]; [left; now left|].
    destruct (IH H) as [H'|(v0 & H1 & H2)]; [left; now right|].
    right. exists v0. split; [now right|exact H2].
Qed.

Lemma update_absent_app (V : Type) (n : string) (f : V -> V) (d : dict V)
  (x : V) :
  ~ In n (keys d) -> update n f (d ++ [(n, x)]) = d ++ [(n, f x)].
Proof.
  unfold keys. induction d as [|[k' v'] t IH]; intros Hn; simpl.
  - now rewrite String.eqb_refl.
  - destruct (String.eqb n k') eqn:E.
    + apply String.eqb_eq in E. subst. exfalso. apply Hn. now left.
    + rewrite IH; [reflexivity|]. intros H. apply Hn. now right.
Qed.

Lemma add_entry_build_without_tests (b : Build.t) (d : dict Build.t) :
  Build.tests b = [] ->
  Forall (fun kb => Build.tests (snd kb) = []) d ->
  add_entry Build.merge (Build.build_id b) b d <> []
  /\ Forall (fun kb => Build.tests (snd kb) = [])
       (add_entry Build.merge (Build.build_id b) b d).
Proof.
  intros Hb Hd. induction Hd as [|[k' v'] t Hv Ht IH]; simpl.
  - split; [discriminate|]. now repeat constructor.
  - destruct (String.eqb (Build.build_id b) k').
    + split; [discriminate|]. constructor; [|exact Ht].
      cbn. rewrite Hb. exact Hv.
    + split; [discriminate|]. constructor; [exact Hv|apply IH].
Qed.

(** What [add_build_of_hit] has done when it returns. *)
Lemma add_build_of_hit_form (acc out : dict Job.t) (r : ElkJob)
  (n id : string) :
  add_build_of_hit acc r = Ok (out, n, id) ->
  exists u result duration,
    out = update n (Job.add_build (Build.new id result duration))
            (if mem n acc then acc else set n (Job.new n u) acc).
Proof.
  unfold add_build_of_hit, getitem.
  destruct (get "job_name" r) as [[|jn|]|]; try discriminate.
  cbn [bind key_field].
  destruct (get "job_url" r) as [url_v|]; [|discriminate].
  cbn [bind].
  destruct (text_field "job_url" url_v) as [u|]; [|discriminate].
  cbn [bind].
  destruct (text_field "build_result" (get_or_none "build_result" r))
    as [res|]; [|discriminate].
  cbn [bind].
  destruct (get "build_num" r) as [num|]; [|discriminate].
  cbn [bind].
  destruct (duration_of (get_or_none "build_duration" r)) as [dur|];
    [|discriminate].
  cbn [bind]. intros [= <- <- <-]. now exists u, res, dur.
Qed.

Lemma add_build_hit_without_tests (acc out : dict Job.t) (r : ElkJob) :
  builds_without_tests acc ->
  add_build_hit acc r = Ok out ->
  builds_without_tests out.
Proof.
  intros Hacc. unfold add_build_hit.
  destruct (add_build_of_hit acc r) as [[[out' n] id]|e] eqn:E;
    [|discriminate].
  cbn [bind fst]. intros [= <-].
  destruct (add_build_of_hit_form _ _ E) as (u & res & dur & ->).
  assert (Hadd : forall j,
             Forall (fun kb => Build.tests (snd kb) = []) (Job.builds j) ->
             Job.builds (Job.add_build (Build.new id res dur) j) <> []
             /\ Forall (fun kb => Build.tests (snd kb) = [])
                  (Job.builds (Job.add_build (Build.new id res dur) j))).
  { intros j Hj. cbn [Job.add_build Job.builds].
    now apply (add_entry_build_without_tests (Build.new id res dur)). }
  intros k v Hin. destruct (mem n acc) eqn:Em.
  - apply update_in in Hin. destruct Hin as [Hin|(v0 & Hin & ->)].
    + now apply (Hacc k).
    + apply Hadd. now apply (Hacc k v0).
  - assert (Hn : ~ In n (keys acc)).
    { apply get_none_iff. unfold mem in Em. now destruct (get n acc). }
    rewrite set_new, update_absent_app in Hin by exact Hn.
    apply in_app_iff in Hin. destruct Hin as [Hin|[[= <- <-]|[]]].
    + now apply (Hacc k).
    + apply Hadd. constructor.
Qed.

Lemma add_build_hits_without_tests (records : list ElkJob) :
  forall acc out,
    builds_without_tests acc ->
    for_each add_build_hit records acc = Ok out ->
    builds_without_tests out.
Proof.
  induction records as [|r t IH]; intros acc out Hacc; simpl.
  - now intros [= <-].
  - destruct (add_build_hit acc r) as [acc'|e] eqn:E; [|discriminate].
    cbn [bind]. apply IH. now apply (add_build_hit_without_tests r Hacc).
Qed.

Lemma for_each_ext (A S : Type) (f g : S -> A -> outcome S) (l : list A) :
  (forall x s, In x l -> f s x = g s x) ->
  forall s, for_each f l s = for_each g l s.
Proof.
  induction l as [|a t IH]; intros H s; simpl; [reflexivity|].
  rewrite (H a s) by now left. destruct (g s a); [|reflexivity].
  cbn [bind]. apply IH. intros; apply H; now right.
Qed.

Lemma filter_none (A : Type) (f : A -> bool) (l : list A) :
  (forall x, In x l -> f x = false) -> filter f l = [].
Proof.
  induction l as [|a t IH]; intros H; simpl; [reflexivity|].
  rewrite (H a) by now left. apply IH. intros; apply H; now right.
Qed.

Lemma source_of_hit_record (hit : dict pyval) (r : ElkJob) :
  source_of_hit hit = Ok r -> r = record_of_hit hit.
Proof.
  unfold source_of_hit, record_of_hit, getitem.
  destruct (get "_source" hit) as [[v|d]|]; try discriminate.
  now intros [= <-].
Qed.

Lemma stringify_no_test_suites (r r' : ElkJob) :
  stringify_build_num r = Ok r' ->
  no_test_suites r = true -> no_test_suites r' = true.
Proof.
  unfold stringify_build_num, getitem, no_test_suites.
  destruct (get "build_num" r) as [n|] eqn:G; [|discriminate].
  cbn [bind]. intros [= <-]. rewrite keys_set. unfold mem. now rewrite G.
Qed.

Section WithoutSuites.

Variable re_valid : string -> bool.
Variable re_search : string -> string -> bool.
Variable parse_test_suite : scalar -> option (list TestCase).
Variable float_of_str : string -> option float.

(** Without a test suite in the record, the body of the loop of
    [get_tests] is that of [get_builds]. *)
Lemma add_tests_of_hit_no_suites (f : TestFilters) (acc : dict Job.t)
  (r : ElkJob) :
  no_test_suites r = true ->
  add_tests_of_hit re_search parse_test_suite float_of_str f acc r
  = add_build_hit acc r.
Proof.
  intros Hr. unfold add_tests_of_hit, add_build_hit.
  destruct (add_build_of_hit acc r) as [[[out n] id]|e]; [|reflexivity].
  cbn [bind fst]. rewrite filter_none; [reflexivity|].
  intros k Hk. unfold no_test_suites in Hr. rewrite forallb_forall in Hr.
  now apply negb_true_iff, Hr.
Qed.

(** The records that reach the loop, when the hits hold no suite. *)
Lemma filtered_no_test_suites (hits : list (dict pyval))
  (records kept final : list ElkJob) (kwargs : Kwargs)
  (stages : list (ElkJob -> bool)) :
  no_suites_in (Some hits) = true ->
  map_result source_of_hit hits = Ok records ->
  filter_jobs re_valid re_search records kwargs = Ok kept ->
  filter_builds kept stages = Ok final ->
  forall r, In r final -> no_test_suites r = true.
Proof.
  intros Hh Er Ek Ef r Hr. cbn [no_suites_in] in Hh.
  rewrite forallb_forall in Hh.
  unfold filter_builds in Ef.
  destruct (map_result stringify_build_num kept) as [l|e] eqn:El;
    [|discriminate].
  cbn [bind] in Ef. rewrite apply_filters_filter in Ef. injection Ef as <-.
  apply filter_In in Hr. destruct Hr as [Hr _].
  destruct (map_result_in _ _ El r Hr) as (r0 & Hr0 & E0).
  apply (stringify_no_test_suites _ E0).
  unfold filter_jobs in Ek.
  destruct (job_filters re_valid re_search kwargs) as [js|e]; [|discriminate].
  cbn [bind] in Ek. rewrite apply_filters_filter in Ek. injection Ek as <-.
  apply filter_In in Hr0. destruct Hr0 as [Hr0 _].
  destruct (map_result_in _ _ Er r0 Hr0) as (hit & Hhit & Eh).
  rewrite (source_of_hit_record _ Eh). now apply Hh.
Qed.

(** X20.  When the records hold no test suite and no argument filters
    tests, [get_tests] called with [builds] or [last_build] is
    [get_builds]: the same jobs and builds, or the same exception. *)
Theorem get_tests_without_suites_is_get_builds :
  forall (response : option (list (dict pyval))) (kwargs : Kwargs)
         (f : TestFilters),
    mem "builds" (kw_args kwargs) || mem "last_build" (kw_args kwargs)
    = true ->
    test_filters_of re_valid kwargs = Ok (false, f) ->
    no_suites_in response = true ->
    get_tests re_valid re_search parse_test_suite float_of_str response kwargs
    = get_builds re_valid re_search response kwargs.
Proof.
  intros response kwargs f Hb Hf Hs. unfold get_tests, get_builds.
  unfold check_builds_for_test. rewrite Hb. cbn [bind].
  destruct response as [hits|]; [|reflexivity].
  cbn [query_get_hits bind].
  destruct (map_result source_of_hit hits) as [records|e] eqn:Er;
    [|reflexivity].
  cbn [bind].
  destruct (filter_jobs re_valid re_search records kwargs) as [kept|e] eqn:Ek;
    [|reflexivity].
  cbn [bind].
  destruct (filter_builds kept (get_build_filters kwargs)) as [final|e] eqn:Ef;
    [|reflexivity].
  cbn [bind]. rewrite Hf. cbn [bind].
  rewrite (@for_each_ext _ _
             (add_tests_of_hit re_search parse_test_suite float_of_str f)
             add_build_hit final)
    by (intros r s Hr; apply add_tests_of_hit_no_suites;
        now apply (@filtered_no_test_suites hits records kept final kwargs
                     (get_build_filters kwargs) Hs Er Ek Ef)).
  destruct (for_each add_build_hit final []) as [found|e] eqn:Efound;
    [|reflexivity].
  cbn [bind].
  assert (Hkeep : filter_values has_builds_job found = found).
  { apply filter_values_all. intros k v Hin.
    assert (Hinit : builds_without_tests []) by (intros ? ? []).
    destruct (@add_build_hits_without_tests final [] found Hinit Efound
                k v Hin) as [Hne _].
    unfold has_builds_job. now destruct (Job.builds v). }
  destruct (get_build_filters kwargs); [reflexivity|].
  now rewrite Hkeep.
Qed.

(** X21.  When the records hold no test suite and an argument filters
    tests, [get_tests] returns no job at all for well-formed hits. *)
Theorem get_tests_filter_without_suites :
  forall (hits : list (dict pyval)) (kwargs : Kwargs) (f : TestFilters)
         (job_stages : list (ElkJob -> bool)),
    mem "builds" (kw_args kwargs) || mem "last_build" (kw_args kwargs)
    = true ->
    test_filters_of re_valid kwargs = Ok (true, f) ->
    job_filters re_valid re_search kwargs = Ok job_stages ->
    forallb well_formed_hit hits = true ->
    no_suites_in (Some hits) = true ->
    get_tests re_valid re_search parse_test_suite float_of_str (Some hits)
      kwargs
    = Ok [].
Proof.
  intros hits kwargs f job_stages Hb Hf Hjf Hwf Hs.
  rewrite forallb_forall in Hwf.
  set (stages := get_build_filters kwargs) in *.
  set (records := map record_of_hit hits) in *.
  set (kept := filter (passes job_stages) records).
  set (final := filter (passes stages) (map normalised kept)).
  assert (Hrec : forall r, In r records -> well_formed_record r = true).
  { intros r Hr. apply in_map_iff in Hr. destruct Hr as (hit & <- & Hin).
    now apply source_of_well_formed_hit, Hwf. }
  assert (Hfinal : forallb well_formed_record final = true).
  { apply forallb_forall. intros r Hr. unfold final in Hr.
    apply filter_In in Hr. destruct Hr as [Hr _].
    apply in_map_iff in Hr. destruct Hr as (r0 & <- & Hr0).
    apply filter_In in Hr0. destruct Hr0 as [Hr0 _].
    now apply well_formed_normalised, Hrec. }
  destruct (@add_build_hits final Hfinal [])
    as (found & Efound & _ & _); [intros n j; discriminate|].
  assert (Er : map_result source_of_hit hits = Ok records)
    by (apply map_result_ok; intros hit Hin;
        now apply source_of_well_formed_hit, Hwf).
  assert (Ek : filter_jobs re_valid re_search records kwargs = Ok kept)
    by (unfold filter_jobs; rewrite Hjf; cbn [bind];
        now rewrite apply_filters_filter).
  assert (Ef : filter_builds kept stages = Ok final).
  { unfold filter_builds. rewrite map_result_ok with (g := normalised).
    - cbn [bind]. now rewrite apply_filters_filter.
    - intros r Hr. apply filter_In in Hr. destruct Hr as [Hr _].
      now apply well_formed_normalised, Hrec. }
  unfold get_tests, check_builds_for_test. rewrite Hb.
  cbn [bind query_get_hits]. rewrite Er. cbn [bind]. rewrite Ek.
  cbn [bind]. fold stages. rewrite Ef. cbn [bind]. rewrite Hf. cbn [bind].
  rewrite (@for_each_ext _ _
             (add_tests_of_hit re_search parse_test_suite float_of_str f)
             add_build_hit final)
    by (intros r s Hr; apply add_tests_of_hit_no_suites;
        now apply (@filtered_no_test_suites hits records kept final kwargs
                     stages Hs Er Ek Ef)).
  rewrite Efound. cbn [bind].
  assert (Hnone : filter_values has_tests_job found = []).
  { apply filter_none. intros [k v] Hin.
    assert (Hinit : builds_without_tests []) by (intros ? ? []).
    destruct (@add_build_hits_without_tests final [] found Hinit Efound
                k v Hin) as [_ Hall].
    cbn [snd]. unfold has_tests_job, values.
    induction Hall as [|kb t Hkb _ IH]; [reflexivity|].
    cbn [map existsb]. now rewrite Hkb. }
  rewrite Hnone. now destruct (mem "last_build" (kw_args kwargs)).
Qed.

End WithoutSuites.

(** ** [run_query]: the first criterion *)

Section FirstCriterion.

Variable get_source_method :
  string -> list Source.t -> string -> outcome source_method.

(** X22.  The criterion [run_query] takes first, when it has a function
    and its level is at least [start_level], is fetched for every system
    of every environment, in order and once each, as long as the sources
    answer: each system is populated with what the method named by the
    criterion returns for the values of all the arguments, and the run
    goes on with the remaining criteria from there. *)
Theorem run_query_fetches_first_criterion :
  forall (start_level : Z) (ci_args : dict Argument.t)
         (envs : list Environment.t) (arg : Argument.t)
         (rest : list Argument.t) (f : string),
    query_order ci_args = arg :: rest ->
    Argument.func arg = Some f ->
    Argument.has_func arg = true ->
    start_level <= Argument.level arg ->
    -1 <= Argument.level arg ->
    all_answer get_source_method ci_args f envs = true ->
    run_query get_source_method start_level ci_args envs
    = run_args get_source_method start_level ci_args rest
        {| environments :=
             map (fetched_environment get_source_method ci_args f) envs;
           last_level := Argument.level arg;
           fetched := calls_for arg f envs |}.
Proof.
  intros start_level ci envs arg rest f Ho Hf Hfb H1 H2 Hall.
  unfold run_query. rewrite Ho. cbn [run_args]. unfold run_arg.
  assert (G1 : (Argument.level arg >=? start_level) = true)
    by (apply Z.geb_le; lia).
  assert (G2 : (Argument.level arg >=? last_level (initial_state envs))
               = true)
    by (apply Z.geb_le; cbn; lia).
  rewrite G1, G2, Hf, Hfb. cbn [andb initial_state environments fetched].
  now rewrite (@query_environments_all get_source_method ci arg f envs Hall).
Qed.

End FirstCriterion.

(** ** The tests in the result of [get_tests] *)

Lemma update_in_key (V : Type) (n : string) (f : V -> V) (d : dict V)
  (k : string) (v : V) :
  In (k, v) (update n f d) ->
  In (k, v) d \/ (k = n /\ exists v0, In (k, v0) d /\ v = f v0).
Proof.
  induction d as [|[k' v'] t IH]; simpl; [tauto|].
  destruct (String.eqb n k') eqn:E.
  - apply String.eqb_eq in E. subst k'.
    intros [[= <- <-]|H]; [|left; now right].
    right. split; [reflexivity|]. exists v'. split; [now left|reflexivity].
  - intros [H|H]; [left; now left|].
    destruct (IH H) as [H'|(-> & v0 & H1 & H2)]; [left; now right|].
    right. split; [reflexivity|]. exists v0. split; [now right|exact H2].
Qed.

Lemma set_in (V : Type) (n : string) (x : V) (d : dict V) (k : string)
  (v : V) :
  In (k, v) (set n x d) -> In (k, v) d \/ (k = n /\ v = x).
Proof.
  induction d as [|[k' v'] t IH]; simpl.
  - intros [[= <- <-]|[]]. now right.
  - destruct (String.eqb n k') eqn:E.
    + apply String.eqb_eq in E. subst k'.
      intros [[= <- <-]|H]; [now right|left; now right].
    + intros [H|H]; [left; now left|].
      destruct (IH H) as [H'|H']; [left; now right|now right].
Qed.

Lemma add_entry_in (V : Type) (merge : V -> V -> V) (k : string) (v : V)
  (d : dict V) (k' : string) (v' : V) :
  In (k', v') (add_entry merge k v d) ->
  In (k', v') d
  \/ (exists old, In (k', old) d /\ v' = merge old v)
  \/ v' = v.
Proof.
  induction d as [|[k0 v0] t IH]; simpl.
  - intros [[= <- <-]|[]]. now right; right.
  - destruct (String.eqb k k0).
    + intros [[= <- <-]|H]; [|left; now right].
      right; left. exists v0. split; [now left|reflexivity].
    + intros [H|H]; [left; now left|].
      destruct (IH H) as [H'|[(old & H1 & H2)|H']].
      * left; now right.
      * right; left. exists old. split; [now right|exact H2].
      * now right; right.
Qed.

(** Adding a build that has no tests adds no test to a job. *)
Lemma add_build_keeps_tests (new_build : Build.t) (j : Job.t) (b : string)
  (build : Build.t) (k : string) :
  Build.tests new_build = [] ->
  In (b, build) (Job.builds (Job.add_build new_build j)) ->
  In k (keys (Build.tests build)) ->
  exists build0,
    In (b, build0) (Job.builds j) /\ In k (keys (Build.tests build0)).
Proof.
  intros Hnew Hin Hk. cbn [Job.add_build Job.builds] in Hin.
  apply add_entry_in in Hin.
  destruct Hin as [Hin|[(old & Hin & ->) | ->]].
  - now exists build.
  - exists old. split; [exact Hin|].
    cbn [Build.merge Build.tests] in Hk. now rewrite Hnew in Hk.
  - rewrite Hnew in Hk. destruct Hk.
Qed.

Lemma add_build_of_hit_name (acc out : dict Job.t) (r : ElkJob)
  (n id : string) :
  add_build_of_hit acc r = Ok (out, n, id) ->
  field_text r "job_name" = Some n.
Proof.
  unfold add_build_of_hit, getitem, field_text.
  destruct (get "job_name" r) as [[|jn|]|]; try discriminate.
  cbn [bind key_field].
  destruct (get "job_url" r) as [url_v|]; [|discriminate].
  cbn [bind].
  destruct (text_field "job_url" url_v) as [u|]; [|discriminate].
  cbn [bind].
  destruct (text_field "build_result" (get_or_none "build_result" r))
    as [res|]; [|discriminate].
  cbn [bind].
  destruct (get "build_num" r) as [num|]; [|discriminate].
  cbn [bind].
  destruct (duration_of (get_or_none "build_duration" r)) as [dur|];
    [|discriminate].
  cbn [bind]. now intros [= _ <- _].
Qed.

Lemma stringify_get_other (r r' : ElkJob) (field : string) :
  stringify_build_num r = Ok r' ->
  field <> "build_num" -> get field r' = get field r.
Proof.
  unfold stringify_build_num, getitem.
  destruct (get "build_num" r) as [n|]; [|discriminate].
  cbn [bind]. intros [= <-] Hne. apply get_set_other. congruence.
Qed.

Lemma stringify_keys (r r' : ElkJob) (key : string) :
  stringify_build_num r = Ok r' -> In key (keys r') -> In key (keys r).
Proof.
  unfold stringify_build_num, getitem.
  destruct (get "build_num" r) as [n|] eqn:G; [|discriminate].
  cbn [bind]. intros [= <-]. rewrite keys_set. unfold mem. now rewrite G.
Qed.

Section StoredTests.

Variable re_valid : string -> bool.
Variable re_search : string -> string -> bool.
Variable parse_test_suite : scalar -> option (list TestCase).
Variable float_of_str : string -> option float.

Lemma select_test_name (f : TestFilters) (test : TestCase) (t : Test.t) :
  select_test re_search float_of_str f test = Ok (Some t) ->
  Test.name t = tc_name test.
Proof.
  unfold select_test.
  destruct (negb _); [discriminate|].
  destruct (_ && _); [discriminate|].
  destruct (if argval_truthy (test_duration_arguments f) then _ else _)
    as [duration_ok|e]; [|discriminate].
  cbn [bind]. destruct duration_ok; [|discriminate].
  cbn [negb]. now intros [= <-].
Qed.

Lemma test_of_stringified (r r' : ElkJob) (test : TestCase) :
  stringify_build_num r = Ok r' ->
  test_of_record parse_test_suite r' test ->
  test_of_record parse_test_suite r test.
Proof.
  intros E (suite & xml & tests & H1 & H2 & H3 & H4 & H5).
  exists suite, xml, tests.
  assert (Hne : suite <> "build_num") by (intros ->; discriminate H2).
  split; [now apply (@stringify_keys r r' suite E)|]. split; [exact H2|].
  split; [now rewrite <- (@stringify_get_other r r' suite E Hne)|].
  now split.
Qed.

Local Notation "'stored'" :=
  (stored_tests_selected re_search parse_test_suite float_of_str)
  (only parsing).

(** [add_build_of_hit] stores no test. *)
Lemma add_build_of_hit_stored (f : TestFilters) (records : list ElkJob)
  (acc out : dict Job.t) (r : ElkJob) (n id : string) :
  stored f records acc ->
  add_build_of_hit acc r = Ok (out, n, id) ->
  stored f records out.
Proof.
  intros Hacc E.
  destruct (@add_build_of_hit_form acc out r n id E) as (u & res & dur & ->).
  assert (H0 : stored f records
                 (if mem n acc then acc else set n (Job.new n u) acc)).
  { destruct (mem n acc); [exact Hacc|].
    intros n' job b build k Hj Hb Hk. apply set_in in Hj.
    destruct Hj as [Hj|[_ ->]]; [now apply (Hacc n' job b build k)|].
    destruct Hb. }
  intros n' job b build k Hj Hb Hk. apply update_in_key in Hj.
  destruct Hj as [Hj|(_ & j0 & Hj & ->)].
  - now apply (H0 n' job b build k).
  - destruct (@add_build_keeps_tests (Build.new id res dur) j0 b build k
                eq_refl Hb Hk) as (build0 & Hb0 & Hk0).
    now apply (H0 n' j0 b build0 k).
Qed.

(** [add_test_at] stores the one test it is given. *)
Lemma add_test_at_stored (f : TestFilters) (records : list ElkJob)
  (acc out : dict Job.t) (record : ElkJob) (test : TestCase) (t : Test.t)
  (n id : string) :
  stored f records acc ->
  In record records ->
  field_text record "job_name" = Some n ->
  test_of_record parse_test_suite record test ->
  select_test re_search float_of_str f test = Ok (Some t) ->
  add_test_at n id t acc = Ok out ->
  stored f records out.
Proof.
  intros Hacc Hr Hn Ht Hs. unfold add_test_at, getitem.
  destruct (get n acc) as [j|]; [|discriminate]. cbn [bind].
  destruct (get id (Job.builds j)) as [b0|]; [|discriminate]. cbn [bind].
  intros [= <-] n' job b build k Hj Hb Hk.
  apply update_in_key in Hj. destruct Hj as [Hj|(-> & j0 & Hj & ->)].
  - now apply (Hacc n' job b build k).
  - cbn [Job.builds] in Hb. apply update_in_key in Hb.
    destruct Hb as [Hb|(_ & build0 & Hb & ->)].
    + now apply (Hacc n j0 b build k).
    + cbn [Build.add_test Build.tests] in Hk. apply keys_add_entry in Hk.
      destruct Hk as [Hk| ->].
      * now apply (Hacc n j0 b build0 k).
      * exists record, test, t. repeat split; auto.
        symmetry. now apply (@select_test_name f test t).
Qed.

Lemma add_selected_tests_stored (f : TestFilters) (records : list ElkJob)
  (record : ElkJob) (n id : string) (all_tests tests : list TestCase) :
  In record records ->
  field_text record "job_name" = Some n ->
  (forall test, In test all_tests ->
                test_of_record parse_test_suite record test) ->
  (forall test, In test tests -> In test all_tests) ->
  forall acc out,
    stored f records acc ->
    for_each (add_selected_test re_search float_of_str f n id) tests acc
    = Ok out ->
    stored f records out.
Proof.
  intros Hr Hn Hall. induction tests as [|test rest IH]; intros Hsub acc out
    Hacc.
  - cbn. now intros [= <-].
  - cbn [for_each]. unfold add_selected_test at 1.
    destruct (select_test re_search float_of_str f test) as [[t|]|e] eqn:Es;
      try discriminate; cbn [bind].
    + destruct (add_test_at n id t acc) as [acc'|e] eqn:Ea; [|discriminate].
      cbn [bind]. apply IH; [intros; apply Hsub; now right|].
      exact (@add_test_at_stored f records acc acc' record test t n id
               Hacc Hr Hn (Hall test (Hsub test (or_introl eq_refl))) Es Ea).
    + apply IH; [intros; apply Hsub; now right|exact Hacc].
Qed.

Lemma add_tests_of_suites_stored (f : TestFilters) (records : list ElkJob)
  (record : ElkJob) (n id : string) (suites : list string) :
  In record records ->
  field_text record "job_name" = Some n ->
  (forall suite, In suite suites ->
                 In suite (keys record)
                 /\ String.prefix "test_results_" suite = true) ->
  forall acc out,
    stored f records acc ->
    for_each (add_tests_of_suite re_search parse_test_suite float_of_str f
                record n id) suites acc
    = Ok out ->
    stored f records out.
Proof.
  intros Hr Hn. induction suites as [|suite rest IH]; intros Hs acc out Hacc.
  - cbn. now intros [= <-].
  - cbn [for_each]. unfold add_tests_of_suite at 1, getitem, parse_tests.
    destruct (get suite record) as [xml|] eqn:Ex; [|discriminate].
    cbn [bind].
    destruct (parse_test_suite xml) as [tests|] eqn:Ep; [|discriminate].
    cbn [bind].
    destruct (for_each _ tests acc) as [acc'|e] eqn:Ea; [|discriminate].
    cbn [bind]. apply IH; [intros; apply Hs; now right|].
    assert (Hall : forall test, In test tests ->
                                test_of_record parse_test_suite record test).
    { intros test Ht. destruct (Hs suite (or_introl eq_refl)) as [H1 H2].
      now exists suite, xml, tests. }
    exact (@add_selected_tests_stored f records record n id tests tests
             Hr Hn Hall (fun test H => H) acc acc' Hacc Ea).
Qed.

Lemma add_tests_of_hit_stored (f : TestFilters) (records : list ElkJob)
  (acc out : dict Job.t) (record : ElkJob) :
  In record records ->
  stored f records acc ->
  add_tests_of_hit re_search parse_test_suite float_of_str f acc record
  = Ok out ->
  stored f records out.
Proof.
  intros Hr Hacc. unfold add_tests_of_hit.
  destruct (add_build_of_hit acc record) as [[[acc1 n] id]|e] eqn:E;
    [|discriminate].
  cbn [bind]. intros Hrun.
  refine (@add_tests_of_suites_stored f records record n id _ Hr
            (@add_build_of_hit_name acc acc1 record n id E) _ acc1 out
            (@add_build_of_hit_stored f records acc acc1 record n id Hacc E)
            Hrun).
  intros suite Hs. apply filter_In in Hs. exact Hs.
Qed.

Lemma add_tests_of_hits_stored (f : TestFilters) (records rest : list ElkJob) :
  (forall r, In r rest -> In r records) ->
  forall acc out,
    stored f records acc ->
    for_each (add_tests_of_hit re_search parse_test_suite float_of_str f)
      rest acc
    = Ok out ->
    stored f records out.
Proof.
  induction rest as [|r t IH]; intros Hsub acc out Hacc.
  - cbn. now intros [= <-].
  - cbn [for_each].
    destruct (add_tests_of_hit _ _ _ f acc r) as [acc'|e] eqn:E;
      [|discriminate].
    cbn [bind]. apply IH; [intros; apply Hsub; now right|].
    exact (@add_tests_of_hit_stored f records acc acc' r
             (Hsub r (or_introl eq_refl)) Hacc E).
Qed.

(** [get_last_build] keeps builds as they are. *)
Lemma get_last_build_stored (f : TestFilters) (records : list ElkJob)
  (builds_jobs out : dict Job.t) :
  stored f records builds_jobs ->
  get_last_build builds_jobs = Ok out ->
  stored f records out.
Proof.
  intros Hin. unfold get_last_build, items.
  assert (H : forall rest,
             (forall item, In item rest -> In item builds_jobs) ->
             forall acc out,
               stored f records acc ->
               for_each (last_build_of_job builds_jobs) rest acc = Ok out ->
               stored f records out).
  { induction rest as [|[n j] rest IH]; intros Hsub acc out' Hacc.
    - cbn. now intros [= <-].
    - cbn [for_each].
      destruct (last_build_of_job builds_jobs acc (n, j)) as [acc'|e] eqn:E;
        [|discriminate].
      cbn [bind]. apply IH; [intros; apply Hsub; now right|].
      unfold last_build_of_job, getitem in E.
      destruct (get n builds_jobs) as [j0|]; [|discriminate].
      cbn [bind] in E.
      destruct (negb (truthy (Job.builds j))); [now injection E as <-|].
      destruct (last_build_number (Job.builds j)) as [k0|]; [|discriminate].
      cbn [bind] in E.
      destruct (get k0 (Job.builds j)) as [b0|] eqn:G; [|discriminate].
      cbn [bind] in E. injection E as <-.
      intros n' job b build k Hj Hb Hk. apply set_in in Hj.
      destruct Hj as [Hj|[-> ->]]; [now apply (Hacc n' job b build k)|].
      cbn in Hb. destruct Hb as [[= <- <-]|[]].
      apply (Hin n j k0 b0 k); [apply Hsub; now left| |exact Hk].
      now apply get_some_in. }
  apply (H builds_jobs); [auto|intros ? ? ? ? ? []].
Qed.

(** X19.  Every test in the result of [get_tests] has passed the test
    filters of the arguments: a test that a build of a job holds has the
    name of a test case of a suite of a hit of that job, and that test
    case matches the pattern made of the [tests] argument by its name or
    its class name, has a status (SUCCESS, SKIPPED or FAILURE, a failure
    counting before a skip) that is the upper-case form of one of the
    requested results, and a duration that satisfies the requested
    ranges. *)
Theorem get_tests_keeps_selected_tests :
  forall (hits : list (dict pyval)) (kwargs : Kwargs) (out : dict Job.t)
         (n b k : string) (job : Job.t) (build : Build.t),
    get_tests re_valid re_search parse_test_suite float_of_str (Some hits)
      kwargs
    = Ok out ->
    In (n, job) out ->
    In (b, build) (Job.builds job) ->
    In k (keys (Build.tests build)) ->
    exists hit test,
      In hit hits
      /\ field_text (record_of_hit hit) "job_name" = Some n
      /\ test_of_record parse_test_suite (record_of_hit hit) test
      /\ tc_name test = k
      /\ (forall arg,
             get "tests" (kw_args kwargs) = Some arg ->
             argval_truthy (Argument.value arg) = true ->
             exists pattern,
               join_patterns (Argument.value arg) = Ok pattern
               /\ (re_search pattern (tc_name test) = true
                   \/ exists c,
                        tc_classname test = Some c
                        /\ re_search pattern c = true))
      /\ (forall arg requested,
             get "test_result" (kw_args kwargs) = Some arg ->
             Argument.value arg = VStrs requested ->
             requested <> [] ->
             exists s, In s requested /\ upper s = test_status_of test)
      /\ (forall arg ranges,
             get "test_duration" (kw_args kwargs) = Some arg ->
             Argument.value arg = VRanges ranges ->
             match_filter_test_by_duration float_of_str (tc_time test) ranges
             = Ok true).
Proof.
  intros hits kwargs out n b k job build Hrun Hj Hb Hk.
  unfold get_tests in Hrun.
  destruct (check_builds_for_test kwargs); [|discriminate].
  cbn [bind query_get_hits] in Hrun.
  destruct (map_result source_of_hit hits) as [records|e] eqn:Er;
    [|discriminate].
  cbn [bind] in Hrun.
  destruct (filter_jobs re_valid re_search records kwargs) as [kept|e] eqn:Ek;
    [|discriminate].
  cbn [bind] in Hrun.
  destruct (filter_builds kept (get_build_filters kwargs)) as [final|e] eqn:Ef;
    [|discriminate].
  cbn [bind] in Hrun.
  destruct (test_filters_of re_valid kwargs) as [[tests_filtering f]|e] eqn:Et;
    [|discriminate].
  cbn [bind] in Hrun.
  destruct (for_each
              (add_tests_of_hit re_search parse_test_suite float_of_str f)
              final []) as [found|e] eqn:Efound; [|discriminate].
  cbn [bind] in Hrun.
  assert (Hfound : stored f final found).
  { apply (@add_tests_of_hits_stored f final final (fun r H => H) [] found);
      [intros ? ? ? ? ? []|exact Efound]. }
  assert (Hfinal : stored f final
                     (if tests_filtering
                      then filter_values has_tests_job found else found)).
  { destruct tests_filtering; [|exact Hfound].
    intros n' job' b' build' k' Hj'. apply filter_In in Hj'.
    now apply Hfound. }
  assert (Hout : stored f final out).
  { destruct (mem "last_build" (kw_args kwargs)).
    - now apply (@get_last_build_stored f final _ out Hfinal).
    - now injection Hrun as <-. }
  destruct (Hout n job b build k Hj Hb Hk)
    as (record & test & t & Hr & Hn & Htest & Hsel & Hname).
  (* the record, back to the hit it came from *)
  unfold filter_builds in Ef.
  destruct (map_result stringify_build_num kept) as [l|e] eqn:El;
    [|discriminate].
  cbn [bind] in Ef. rewrite apply_filters_filter in Ef. injection Ef as <-.
  apply filter_In in Hr. destruct Hr as [Hr _].
  destruct (map_result_in _ _ El record Hr) as (r0 & Hr0 & E0).
  unfold filter_jobs in Ek.
  destruct (job_filters re_valid re_search kwargs) as [js|e]; [|discriminate].
  cbn [bind] in Ek. rewrite apply_filters_filter in Ek. injection Ek as <-.
  apply filter_In in Hr0. destruct Hr0 as [Hr0 _].
  destruct (map_result_in _ _ Er r0 Hr0) as (hit & Hhit & Eh).
  apply source_of_hit_record in Eh. subst r0.
  destruct (@kept_test_passed_filters re_valid re_search float_of_str kwargs
              tests_filtering f test t Et Hsel)
    as (_ & _ & _ & _ & _ & Hpat & Hres & Hdur).
  exists hit, test. split; [exact Hhit|]. split.
  { unfold field_text in Hn |- *.
    now rewrite (@stringify_get_other _ _ "job_name" E0) in Hn
      by discriminate. }
  split; [now apply (@test_of_stringified _ _ test E0)|].
  split; [exact Hname|]. split; [|split; [exact Hres|exact Hdur]].
  intros arg Ha Ht. unfold test_filters_of in Et. rewrite Ha, Ht in Et.
  destruct (join_patterns (Argument.value arg)) as [joined|e] eqn:Ej;
    [|discriminate].
  cbn [bind] in Et. unfold re_compile in Et.
  destruct (re_valid joined); [|discriminate].
  cbn [bind] in Et.
  destruct (match get "test_result" (kw_args kwargs) with
            | Some _ => _ | None => _ end) as [tr|e];
    [|discriminate].
  cbn [bind] in Et. injection Et as _ <-.
  exists joined. split; [reflexivity|]. now apply (Hpat joined).
Qed.

End StoredTests.

(** ** Concrete runs of the further properties *)

(** X3 at three hits, two of them for the job ["test"]. *)
Lemma get_jobs_last_record_wins_witness :
  exists out,
    get_jobs any_pattern_valid any_text_matches
      (Some [job_hit "test" "http://domain.tld/a";
             job_hit "test2" "http://domain.tld/test2";
             job_hit "test" "http://domain.tld/b"]) no_kwargs = Ok out
    /\ keys out = ["test"; "test2"]
    /\ get "test" out = Some (Job.new "test" (Some "http://domain.tld/b")).
Proof.
  destruct (@get_jobs_last_record_wins any_pattern_valid any_text_matches
              [job_hit "test" "http://domain.tld/a";
               job_hit "test2" "http://domain.tld/test2";
               job_hit "test" "http://domain.tld/b"] no_kwargs []
              eq_refl eq_refl)
    as (out & E & _).
  exists out. split; [exact E|].
  injection E as <-. split; reflexivity.
Defined.

(** X4 at a record without url between two complete ones. *)
Lemma get_jobs_missing_url_witness :
  get_jobs any_pattern_valid any_text_matches
    (Some ([job_hit "test" "http://domain.tld/test"]
           ++ job_hit_without_url "test2"
           :: [job_hit "test3" "http://domain.tld/test3"])) no_kwargs
  = Raise (KeyError "job_url").
Proof.
  exact (@get_jobs_missing_url any_pattern_valid any_text_matches
           [job_hit "test" "http://domain.tld/test"]
           [job_hit "test3" "http://domain.tld/test3"]
           (job_hit_without_url "test2") no_kwargs [] "test2"
           eq_refl eq_refl eq_refl eq_refl eq_refl eq_refl).
Defined.

(** X5 at the duration 1.5 and the ranges [> 1], [<= 2]. *)
Lemma duration_filter_is_conjunction_witness :
  match_filter_test_by_duration sample_float_of_str (Some 1.5%float)
    [range ">" "1"; range "<=" "2"]
  = Ok true.
Proof.
  exact (@duration_filter_is_conjunction sample_float_of_str 1.5%float
           [range ">" "1"; range "<=" "2"] eq_refl).
Defined.

(** X6 at the duration 1.5: [> 1] holds, [< 1] does not, and the range
    after it has no known operator. *)
Lemma duration_filter_stops_at_first_failure_witness :
  match_filter_test_by_duration sample_float_of_str (Some 1.5%float)
    ([range ">" "1"] ++ range "<" "1" :: [range "~" "x"])
  = Ok false.
Proof.
  exact (@duration_filter_stops_at_first_failure sample_float_of_str
           1.5%float [range ">" "1"] [range "~" "x"] (range "<" "1")
           eq_refl eq_refl).
Defined.

(** X7 at the duration 1.5, after [> 1]: an unknown operator, and a
    known operator with an operand that is no number. *)
Lemma duration_filter_malformed_range_witness :
  match_filter_test_by_duration sample_float_of_str (Some 1.5%float)
    ([range ">" "1"] ++ range "~" "abc" :: [range "<" "2"])
  = Raise (KeyError "~")
  /\ match_filter_test_by_duration sample_float_of_str (Some 1.5%float)
       ([range ">" "1"] ++ range "<" "abc" :: [range "<" "2"])
     = Raise (ValueError "abc").
Proof.
  split.
  - apply (proj1 (@duration_filter_malformed_range sample_float_of_str
                    1.5%float [range ">" "1"] [range "<" "2"]
                    (range "~" "abc") eq_refl)).
    reflexivity.
  - apply (proj2 (@duration_filter_malformed_range sample_float_of_str
                    1.5%float [range ">" "1"] [range "<" "2"]
                    (range "<" "abc") eq_refl)).
    + discriminate.
    + reflexivity.
Defined.

(** X8 at three jobs, the second of them without builds. *)
Lemma get_last_build_keeps_order_witness :
  keys [("job1", job_with_build "job1" (Some "http://domain.tld/job1")
                   (build_of "10" "FAIL"));
        ("job2", job_with_build "job2" None (build_of "7" "SUCCESS"))]
  = keys (with_builds three_jobs).
Proof.
  exact (proj1 (@get_last_build_keeps_order three_jobs
                  [("job1", job_with_build "job1"
                              (Some "http://domain.tld/job1")
                              (build_of "10" "FAIL"));
                   ("job2", job_with_build "job2" None
                              (build_of "7" "SUCCESS"))]
                  eq_refl eq_refl)).
Defined.

(** X9 at the same three jobs. *)
Lemma get_last_build_idempotent_witness :
  exists out,
    get_last_build three_jobs = Ok out /\ get_last_build out = Ok out.
Proof.
  exact (@get_last_build_idempotent three_jobs eq_refl eq_refl eq_refl).
Defined.

(** X10 at the builds 2, 10 and 3 of one job and the build 7 of another. *)
Lemma get_builds_last_build_greatest_witness :
  exists out,
    get_builds any_pattern_valid any_text_matches
      (Some [numbered_build_hit "job1" "http://domain.tld/job1" 2 "SUCCESS";
             numbered_build_hit "job1" "http://domain.tld/job1" 10 "FAIL";
             numbered_build_hit "job2" "http://domain.tld/job2" 7 "SUCCESS";
             numbered_build_hit "job1" "http://domain.tld/job1" 3 "SUCCESS"])
      last_build_kwargs = Ok out
    /\ map (fun item => (fst item, keys (Job.builds (snd item)))) out
       = [("job1", ["10"]); ("job2", ["7"])].
Proof.
  destruct (@get_builds_last_build_greatest any_pattern_valid
              any_text_matches
              [numbered_build_hit "job1" "http://domain.tld/job1" 2 "SUCCESS";
               numbered_build_hit "job1" "http://domain.tld/job1" 10 "FAIL";
               numbered_build_hit "job2" "http://domain.tld/job2" 7 "SUCCESS";
               numbered_build_hit "job1" "http://domain.tld/job1" 3 "SUCCESS"]
              last_build_kwargs [] eq_refl eq_refl eq_refl eq_refl)
    as (out & E & _).
  exists out. split; [exact E|].
  injection E as <-. reflexivity.
Defined.

(** X11 at a record without build number after a complete one, with no
    check at all. *)
Lemma filter_builds_missing_build_num_witness :
  filter_builds
    ([[("job_name", SStr "job1"); ("build_num", SInt 1)]]
     ++ [("job_name", SStr "job2")] :: [])
    []
  = Raise (KeyError "build_num").
Proof.
  exact (@filter_builds_missing_build_num
           [[("job_name", SStr "job1"); ("build_num", SInt 1)]] []
           [("job_name", SStr "job2")] [] eq_refl eq_refl).
Defined.

(** X12 at one record with the build number 7. *)
Lemma filter_builds_idempotent_witness :
  filter_builds [[("job_name", SStr "job1"); ("build_num", SStr "7")]] []
  = Ok [[("job_name", SStr "job1"); ("build_num", SStr "7")]].
Proof.
  exact (proj2 (@filter_builds_idempotent
                  [[("job_name", SStr "job1"); ("build_num", SInt 7)]]
                  [[("job_name", SStr "job1"); ("build_num", SStr "7")]]
                  [] eq_refl)).
Defined.

(** X13 at the criteria tests (level 2), jobs and spec (level 1), all
    with a function: sources are asked for tests and for spec, not for
    jobs. *)
Lemma run_query_skips_first_of_lower_level_witness :
  map (fun c => Argument.name (fetch_arg c))
    (fetched (fst (run_query first_with_method 1 three_ci_args
                     [sample_environment])))
  = ["tests"; "spec"].
Proof.
  destruct (@run_query_skips_first_of_lower_level first_with_method 1
              three_ci_args tests_arg jobs_arg spec_arg "get_jobs"
              (initial_state [sample_environment])
              (fst (run_arg first_with_method 1 three_ci_args tests_arg
                      (initial_state [sample_environment]))))
    as (_ & E & _);
    [reflexivity|reflexivity|reflexivity|reflexivity|discriminate
    |reflexivity|reflexivity|].
  change (run_query first_with_method 1 three_ci_args [sample_environment])
    with (run_args first_with_method 1 three_ci_args
            [tests_arg; jobs_arg; spec_arg]
            (initial_state [sample_environment])).
  rewrite E. reflexivity.
Defined.

(** X14 at two environments: the second system of the second has no
    source with [get_tests]. *)
Lemma run_query_no_source_for_system_witness :
  snd (run_query first_with_method 1 sample_ci_args
         [sample_environment; two_systems])
  = Some (NoCapableSource "gateA" "get_tests")
  /\ map fetch_system
       (fetched (fst (run_query first_with_method 1 sample_ci_args
                        [sample_environment; two_systems])))
     = ["gateA"; "gateB"].
Proof.
  destruct (@run_query_no_source_for_system first_with_method 1
              sample_ci_args tests_arg [jobs_arg] "get_tests"
              (initial_state [sample_environment; two_systems])
              [sample_environment] [] two_systems
              [{| System.name := "gateB"; System.sources := [sample_source];
                  System.jobs := [] |}] [] gateA
              (NoCapableSource "gateA" "get_tests"))
    as (calls & E & Hc & _);
    [discriminate|discriminate|reflexivity|reflexivity|reflexivity
    |reflexivity|reflexivity|reflexivity|reflexivity|].
  change (run_query first_with_method 1 sample_ci_args
            [sample_environment; two_systems])
    with (run_args first_with_method 1 sample_ci_args
            (tests_arg :: [jobs_arg])
            (initial_state [sample_environment; two_systems])).
  rewrite E. split; [reflexivity|].
  cbn [fst fetched initial_state app]. rewrite map_app, Hc. reflexivity.
Defined.

(** X16 to X18 on a sample [API]: the levels follow the nesting, and the
    [API] behind the attribute without arguments is not visited. *)
Example extend_parser_sample :
  map (fun call => (ext_group call, ext_level call))
    (extend_parser sample_API default_group_name default_level)
  = [("Environment", 0); ("Environment", 0); ("System", 1); ("Job", 2)].
Proof. reflexivity. Qed.

(** X19 at a build with a suite of two test cases, asked for with
    [--builds --test-result failure]: the test in the result is the one
    that failed. *)
Lemma get_tests_keeps_selected_tests_witness :
  exists hit test,
    In hit [tests_hit]
    /\ tc_name test = "test_a"
    /\ exists s, In s ["failure"] /\ upper s = test_status_of test.
Proof.
  destruct (@get_tests_keeps_selected_tests any_pattern_valid
              any_text_matches sample_suite_parser sample_float_of_str
              [tests_hit] failed_tests_kwargs failed_tests_result
              "job1" "1" "test_a" failed_tests_job failed_tests_build
              eq_refl (or_introl eq_refl) (or_introl eq_refl)
              (or_introl eq_refl))
    as (hit & test & H1 & _ & _ & H4 & _ & Hres & _).
  exists hit, test. split; [exact H1|]. split; [exact H4|].
  apply (Hres _ ["failure"] eq_refl eq_refl). discriminate.
Defined.

(** X20 at two builds of one job, asked for with [--last-build]. *)
Lemma get_tests_without_suites_is_get_builds_witness :
  get_tests any_pattern_valid any_text_matches no_suite_parsed
    sample_float_of_str
    (Some [build_hit "job1" "http://domain.tld/job1" "1" "SUCCESS";
           build_hit "job1" "http://domain.tld/job1" "2" "FAIL"])
    last_build_kwargs
  = Ok [("job1", job_with_build "job1" (Some "http://domain.tld/job1")
                   (build_of "2" "FAIL"))].
Proof.
  rewrite (@get_tests_without_suites_is_get_builds any_pattern_valid
             any_text_matches no_suite_parsed sample_float_of_str
             (Some [build_hit "job1" "http://domain.tld/job1" "1" "SUCCESS";
                    build_hit "job1" "http://domain.tld/job1" "2" "FAIL"])
             last_build_kwargs
             {| tests_pattern := None; test_result_argument := [];
                test_duration_arguments := VStrs [] |}
             eq_refl eq_refl eq_refl).
  reflexivity.
Defined.

(** X21 at the same builds, asked for with [--builds --tests tempest]. *)
Lemma get_tests_filter_without_suites_witness :
  get_tests any_pattern_valid any_text_matches no_suite_parsed
    sample_float_of_str
    (Some [build_hit "job1" "http://domain.tld/job1" "1" "SUCCESS";
           build_hit "job1" "http://domain.tld/job1" "2" "FAIL"])
    builds_and_tests_kwargs
  = Ok [].
Proof.
  exact (@get_tests_filter_without_suites any_pattern_valid any_text_matches
           no_suite_parsed sample_float_of_str
           [build_hit "job1" "http://domain.tld/job1" "1" "SUCCESS";
            build_hit "job1" "http://domain.tld/job1" "2" "FAIL"]
           builds_and_tests_kwargs
           {| tests_pattern := Some "tempest"; test_result_argument := [];
              test_duration_arguments := VStrs [] |}
           [] eq_refl eq_refl eq_refl eq_refl eq_refl).
Defined.

(** X22 at the criteria jobs (level 1) and tests (level 2): tests comes
    first and is fetched for the one system there is. *)
Lemma run_query_fetches_first_criterion_witness :
  map (fun c => (Argument.name (fetch_arg c), fetch_system c, fetch_method c))
    (fetched (fst (run_query first_with_method 1 sample_ci_args
                     [sample_environment])))
  = [("tests", "gateA", "get_tests")].
Proof.
  rewrite (@run_query_fetches_first_criterion first_with_method 1
             sample_ci_args [sample_environment] tests_arg [jobs_arg]
             "get_tests" eq_refl eq_refl eq_refl);
    [reflexivity|discriminate|discriminate|reflexivity].
Defined.
